(** * God.hpp: the generational optimisation engine

    A shallow embedding of [src/God.hpp]: the score comparators, the
    termination functors, the worker routine [Process] with its online
    statistics, and the generational loop [God::simulate].

    Conventions.
    - [unsigned int] values are naturals; the places where 32-bit wrap-around
      can change a result ([j * m_populationSize], [stop - start],
      [xN + popN_]) go through [uint_mul], [uint_sub] and [uint_add].
    - [double] values are exact rationals ([Qc]): the scores a processor
      returns are taken to be finite numbers and the arithmetic on them to
      be exact. A division whose divisor is zero is tracked by [fdiv], since
      in the source it yields an infinity or a NaN rather than a number, and
      what the comparators answer on a score that is a NaN is in [Float].
    - [Algo*] is an address into an explicit object store [Mem]; undefined
      behaviour (a dangling or null dereference, a double [delete], a modulo
      or division by zero, an out-of-range [at], a [Pop] on an empty
      selector) makes the embedded function return [None].
    - The workers of a generation touch shared state only under the mutex;
      the order in which they take it is the parameter [schedule]. *)

From Stdlib Require Import ZArith QArith Qcanon Lia Lqa Permutation Sorted.
From stdpp Require Import base option numbers list gmap.

Local Open Scope nat_scope.

(** ** Machine integers *)

Definition UINT_MOD : Z := 2 ^ 32.

Definition is_uint (n : nat) : Prop := (Z.of_nat n < UINT_MOD)%Z.

Definition uint_wrap (z : Z) : nat := Z.to_nat (z mod UINT_MOD).

Definition uint_add (a b : nat) : nat := uint_wrap (Z.of_nat a + Z.of_nat b).
Definition uint_sub (a b : nat) : nat := uint_wrap (Z.of_nat a - Z.of_nat b).
Definition uint_mul (a b : nat) : nat := uint_wrap (Z.of_nat a * Z.of_nat b).

(** ** Scores *)

Module Processor.
(** Modelled from the spec: [Processor.hpp] is not part of the sources; the
    engine reads the two fields [success] and [score] of
    [Processor::Score]. The score is taken to be a finite number; a score
    that may be a NaN is [Float.Processor.Score]. *)
Record Score : Type := mkScore { success : bool; score : Qc }.
End Processor.

Definition addr : Type := nat.

(** The null pointer. *)
Definition NULL : addr := 0.

Record AlgoScore : Type := mkAlgoScore { algo : addr; score : Processor.Score }.

Definition ascore (a : AlgoScore) : Qc := Processor.score (score a).
Definition asuccess (a : AlgoScore) : bool := Processor.success (score a).

(** ** Termination functors *)

Fixpoint greedyComplete (successors : list AlgoScore) (stepNum : nat) : bool :=
  match successors with
  | [] => false
  | a :: rest => if asuccess a then true else greedyComplete rest stepNum
  end.

Definition patientComplete (successors : list AlgoScore) (stepNum : nat) : bool :=
  false.

(** ** Comparators *)

Definition algoScoreSort (lhs rhs : AlgoScore) : bool :=
  if Bool.eqb (asuccess lhs) (asuccess rhs)
  then bool_decide (ascore lhs < ascore rhs)%Qc
  else asuccess rhs.

Definition minScoreHeap (lhs rhs : AlgoScore) : Z :=
  if negb (asuccess lhs) && asuccess rhs then 1%Z
  else if asuccess lhs && negb (asuccess rhs) then (-1)%Z
  else if bool_decide (ascore lhs < ascore rhs)%Qc then (-1)%Z
  else if bool_decide (ascore rhs < ascore lhs)%Qc then 1%Z
  else 0%Z.

Definition maxScoreHeap (lhs rhs : AlgoScore) : Z :=
  if negb (asuccess lhs) && asuccess rhs then 1%Z
  else if asuccess lhs && negb (asuccess rhs) then (-1)%Z
  else if bool_decide (ascore lhs < ascore rhs)%Qc then 1%Z
  else if bool_decide (ascore rhs < ascore lhs)%Qc then (-1)%Z
  else 0%Z.

(** ** The comparators on floating values *)

(** The three comparators above read the scores as rationals, which are
    totally ordered. A [double] can also be a NaN, and [l.score < r.score]
    is false as soon as one side is a NaN. [Float] has the same three
    comparators on scores that are a finite value, an infinity or a NaN;
    [finite_score] takes a score of the engine into it. *)
Module Float.

Inductive double : Type :=
  | NegInf
  | Finite (q : Qc)
  | PosInf
  | NaN.

(** [x < y] on doubles. *)
Definition lt (x y : double) : bool :=
  match x with
  | NegInf =>
      match y with
      | Finite _ | PosInf => true
      | NegInf | NaN => false
      end
  | Finite a =>
      match y with
      | Finite b => bool_decide (a < b)%Qc
      | PosInf => true
      | NegInf | NaN => false
      end
  | PosInf | NaN => false
  end.

Definition is_nan (x : double) : bool :=
  match x with
  | NaN => true
  | NegInf | Finite _ | PosInf => false
  end.

Module Processor.
Record Score : Type := mkScore { success : bool; score : double }.
End Processor.

Record AlgoScore : Type := mkAlgoScore { algo : addr; score : Processor.Score }.

Definition ascore (a : AlgoScore) : double := Processor.score (score a).
Definition asuccess (a : AlgoScore) : bool := Processor.success (score a).

Definition algoScoreSort (lhs rhs : AlgoScore) : bool :=
  if Bool.eqb (asuccess lhs) (asuccess rhs)
  then lt (ascore lhs) (ascore rhs)
  else asuccess rhs.

Definition minScoreHeap (lhs rhs : AlgoScore) : Z :=
  if negb (asuccess lhs) && asuccess rhs then 1%Z
  else if asuccess lhs && negb (asuccess rhs) then (-1)%Z
  else if lt (ascore lhs) (ascore rhs) then (-1)%Z
  else if lt (ascore rhs) (ascore lhs) then 1%Z
  else 0%Z.

Definition maxScoreHeap (lhs rhs : AlgoScore) : Z :=
  if negb (asuccess lhs) && asuccess rhs then 1%Z
  else if asuccess lhs && negb (asuccess rhs) then (-1)%Z
  else if lt (ascore lhs) (ascore rhs) then 1%Z
  else if lt (ascore rhs) (ascore lhs) then (-1)%Z
  else 0%Z.

End Float.

Definition finite_score (a : AlgoScore) : Float.AlgoScore :=
  Float.mkAlgoScore (algo a)
    (Float.Processor.mkScore (asuccess a) (Float.Finite (ascore a))).

(** [std::max_element(first, last, comp)]: the first element that no later
    one beats; [None] stands for the past-the-end iterator of an empty
    range. *)
Fixpoint max_element_from (comp : AlgoScore → AlgoScore → bool)
    (largest : AlgoScore) (rest : list AlgoScore) : AlgoScore :=
  match rest with
  | [] => largest
  | x :: rest' =>
      max_element_from comp (if comp largest x then x else largest) rest'
  end.

Definition max_element (comp : AlgoScore → AlgoScore → bool)
    (l : list AlgoScore) : option AlgoScore :=
  match l with
  | [] => None
  | x :: rest => Some (max_element_from comp x rest)
  end.

(** ** Number of worker threads (simulate, lines 225-229) *)

Definition numThreads (populationSize minThreadWorkloadSize maxNumThreads : nat)
    : option nat :=
  if decide (minThreadWorkloadSize = 0) then None
  else
    let n := populationSize / minThreadWorkloadSize in
    Some (if decide (maxNumThreads < n) then maxNumThreads else n).

(** ** Online statistics (Process, lines 64-98) *)

Definition Qc_of_nat (n : nat) : Qc := Qc_of_Z (Z.of_nat n).

(** The global accumulator [(popM, popBar, popN)], and a worker's
    [(xM, xBar, xN)]. *)
Record Stats : Type := mkStats { popM : Qc; popBar : Qc; popN : nat }.

(** One turn of the loop at lines 75-77; [k] is [i - td->start + 1], which
    cannot wrap since [td->start <= i < td->stop]. *)
Definition welford_step (k : nat) (x : Qc) (xM xBar : Qc) : Qc * Qc :=
  let delta := (x - xBar)%Qc in
  let xBar' := (xBar + delta / Qc_of_nat k)%Qc in
  ((xM + delta * (x - xBar'))%Qc, xBar').

(** The statistics a worker holds after the scores [xs], having seen [k]
    scores before them. *)
Fixpoint welford_from (k : nat) (xs : list Qc) (xM xBar : Qc) : Qc * Qc :=
  match xs with
  | [] => (xM, xBar)
  | x :: xs' =>
      let '(xM', xBar') := welford_step (S k) x xM xBar in
      welford_from (S k) xs' xM' xBar'
  end.

Definition Process_stats (xs : list Qc) : Stats :=
  let '(xM, xBar) := welford_from 0 xs 0%Qc 0%Qc in
  mkStats xM xBar (length xs).

(** The merge under the mutex, lines 81-98: [pop] is the global accumulator,
    [x] the worker's. *)
Definition merge_stats (pop x : Stats) : Stats :=
  if decide (popN pop = 0) then x
  else
    let delta := (popBar x - popBar pop)%Qc in
    let n := uint_add (popN x) (popN pop) in
    let bar := ((Qc_of_nat (popN x) * popBar x
                 + Qc_of_nat (popN pop) * popBar pop) / Qc_of_nat n)%Qc in
    let m := (popM x + popM pop
              + delta * delta * Qc_of_nat (popN x) * Qc_of_nat (popN pop)
                / Qc_of_nat n)%Qc in
    mkStats m bar n.

(** Reference quantities of a sequence of scores: the mean, the sum of
    squared deviations from it, and the same statistics written with the sum
    and the sum of squares. *)
Definition Qc_sum (xs : list Qc) : Qc := foldr Qcplus 0%Qc xs.
Definition Qc_sumsq (xs : list Qc) : Qc := Qc_sum ((λ x, x * x)%Qc <$> xs).
Definition mean (xs : list Qc) : Qc := (Qc_sum xs / Qc_of_nat (length xs))%Qc.
Definition sumSqDev (xs : list Qc) : Qc :=
  Qc_sum ((λ x, (x - mean xs) * (x - mean xs))%Qc <$> xs).
Definition stats_of (xs : list Qc) : Stats :=
  mkStats (Qc_sumsq xs - Qc_sum xs * Qc_sum xs / Qc_of_nat (length xs))%Qc
          (mean xs) (length xs).

(** ** Loops *)

(** [for (j = ...; ...; j++) body]: the body runs once for each index of
    [js], in order, and the loop is undefined as soon as one turn is. *)
Fixpoint for_each {St : Type} (js : list nat) (body : nat → St → option St)
    (s : St) : option St :=
  match js with
  | [] => Some s
  | j :: js' => s' ← body j s; for_each js' body s'
  end.

(** ** The bounded top-k selector *)

(** Modelled from the spec: [Heap.hpp] is not part of the sources. The
    retained items are kept best first; [Insert] adds while below capacity,
    and at capacity replaces the worst retained item when the new one is
    better; [Pop] removes the best retained item and is undefined on an empty
    structure; [Flush] empties it. The comparator [H] answers a negative
    number when its left argument ranks better. *)
Record Heap : Type := mkHeap { capacity : nat; items : list AlgoScore }.

Section Heap.
Variable H : AlgoScore → AlgoScore → Z.

Fixpoint insert_sorted (x : AlgoScore) (l : list AlgoScore) : list AlgoScore :=
  match l with
  | [] => [x]
  | y :: l' => if (H x y <? 0)%Z then x :: y :: l' else y :: insert_sorted x l'
  end.

Definition Insert (h : Heap) (x : AlgoScore) : Heap :=
  if decide (length (items h) < capacity h)
  then mkHeap (capacity h) (insert_sorted x (items h))
  else
    match last (items h) with
    | Some worst =>
        if (H x worst <? 0)%Z
        then mkHeap (capacity h) (insert_sorted x (removelast (items h)))
        else h
    | None => h
    end.

Definition Pop (h : Heap) : option (AlgoScore * Heap) :=
  match items h with
  | [] => None
  | b :: rest => Some (b, mkHeap (capacity h) rest)
  end.

Definition Flush (h : Heap) : Heap := mkHeap (capacity h) [].
End Heap.

(** ** Reported percentages *)

(** A [double] division: [None] when the divisor is zero, where the source
    obtains an infinity or a NaN. *)
Definition fdiv (a b : Qc) : option Qc :=
  if decide (b = 0%Qc) then None else Some (a / b)%Qc.

(** The figures of one generation's progress text (lines 302-311); the two
    lines that need [sigma], a square root, are left out. [r_successors] is
    the successor set handed to the termination functor. *)
Record Report : Type := mkReport {
  r_generation : nat;
  r_successors : list AlgoScore;
  r_mu : Qc;
  r_best : AlgoScore;
  r_above_avg : option Qc;
  r_avg_change : option Qc;
  r_best_change : option Qc
}.

Definition percent (q : option Qc) : option Qc := (λ x, x * Qc_of_nat 100)%Qc <$> q.

Definition make_report (i : nat) (algoscores : list AlgoScore) (popBar : Qc)
    (best : AlgoScore) (prevAvg prevBest : Qc) : Report :=
  mkReport i algoscores popBar best
    (percent (fdiv (- (ascore best - popBar)) popBar))
    (percent (fdiv (- (popBar - prevAvg)) prevAvg))
    (percent (fdiv (- (ascore best - prevBest)) prevBest)).

(** ** Worker slices *)

Record threadData : Type := mkThreadData { start : nat; stop : nat }.

(** Lines 280-284. *)
Definition make_threadData (populationSize numThreads j : nat) : threadData :=
  mkThreadData (uint_mul j populationSize / numThreads)
    (if decide (j = numThreads - 1) then populationSize
     else uint_mul (S j) populationSize / numThreads).

(** The worker's local heap and statistics; [w_evaluated] records, in order,
    the pairs the worker evaluated. *)
Record Worker : Type := mkWorker {
  w_scores : Heap;
  xM : Qc;
  xBar : Qc;
  w_evaluated : list AlgoScore
}.

(** The state the workers share under the mutex. *)
Record Shared : Type := mkShared { sh_scores : Heap; sh_stats : Stats }.

(** * The engine *)

Section Engine.
Context {Genome : Type}.

(** Modelled from the spec: [Algo.hpp] and [Processor.hpp] are not part of
    the sources. [Algo::gen] allocates a new, independently owned
    individual derived from the receiver, which it leaves unchanged;
    [gen_content a g] is the content of the object allocated at address [a]
    from a parent of content [g]. [Processor::process] is pure and reads
    the individual's content only. *)
Variable gen_content : addr → Genome → Genome.
Variable process_score : Genome → Processor.Score.

(** The order in which the workers of generation [i] take the mutex. *)
Variable schedule : nat → list nat.

(** The comparator [H] and the termination functor [C] of
    [simulate<H, C>]. *)
Variable H : AlgoScore → AlgoScore → Z.
Variable C : list AlgoScore → nat → bool.

(** ** The object store *)

(** The live [Algo] objects, the next fresh address, and the addresses
    destroyed so far, most recent first. Addresses are never reused. *)
Record Mem : Type := mkMem {
  cells : gmap addr Genome;
  brk : addr;
  deleted : list addr
}.

Definition Algo_gen (m : Mem) (p : addr) : option (addr * Mem) :=
  g ← cells m !! p;
  Some (brk m,
        mkMem (<[brk m := gen_content (brk m) g]> (cells m)) (S (brk m))
          (deleted m)).

(** [delete p]: nothing for the null pointer, undefined for a pointer that
    is not live. *)
Definition Algo_delete (m : Mem) (p : addr) : option Mem :=
  if decide (p = NULL) then Some m
  else
    match cells m !! p with
    | Some _ => Some (mkMem (delete p (cells m)) (brk m) (p :: deleted m))
    | None => None
    end.

Definition process (m : Mem) (p : addr) : option Processor.Score :=
  process_score <$> cells m !! p.

(** ** Process (lines 60-105) *)

(** One turn of the loop at lines 68-78. *)
Definition Process_body (m : Mem) (population : list addr) (td : threadData)
    (i : nat) (w : Worker) : option Worker :=
  a ← population !! i;
  sc ← process m a;
  let as_ := mkAlgoScore a sc in
  let '(xM', xBar') :=
    welford_step (i - start td + 1) (ascore as_) (xM w) (xBar w) in
  Some (mkWorker (Insert H (w_scores w) as_) xM' xBar' (w_evaluated w ++ [as_])).

(** Lines 63-78: the part of a worker that touches no shared state. *)
Definition Process_local (successorSize : nat) (m : Mem)
    (population : list addr) (td : threadData) : option Worker :=
  for_each (seq (start td) (stop td - start td))
    (Process_body m population td)
    (mkWorker (mkHeap successorSize []) 0%Qc 0%Qc []).

(** One turn of the loop at lines 99-102. *)
Definition transfer_body (_ : nat) (hs : Heap * Heap) : option (Heap * Heap) :=
  '(x, local) ← Pop (hs.1);
  Some (local, Insert H (hs.2) x).

(** Lines 80-103: the merge under the mutex. *)
Definition Process_merge (successorSize : nat) (td : threadData) (w : Worker)
    (g : Shared) : option Shared :=
  let st := merge_stats (sh_stats g)
              (mkStats (xM w) (xBar w) (uint_sub (stop td) (start td))) in
  hs ← for_each (seq 0 successorSize) transfer_body (w_scores w, sh_scores g);
  Some (mkShared (hs.2) st).

(** ** The configuration and state of [God] *)

Record God : Type := mkGod {
  m_seeds : list addr;
  m_populationSize : nat;
  m_successorSize : nat;
  m_minThreadWorkloadSize : nat;
  m_maxNumThreads : nat;
  m_numCycles : nat
}.

(** The locals of [simulate] that live across generations, with the seeds
    and the store; [reports] and [evaluated] collect, oldest first, what
    was printed and every pair that was evaluated. *)
Record State : Type := mkState {
  mem : Mem;
  seeds : list addr;
  population : list addr;
  scores : Heap;
  algoscores : list AlgoScore;
  best : option AlgoScore;
  prevAvg : Qc;
  prevBest : Qc;
  reports : list Report;
  evaluated : list AlgoScore
}.

Variable god : God.

Abbreviation populationSize := (m_populationSize god).
Abbreviation successorSize := (m_successorSize god).

(** Lines 246-250. *)
Definition spawn_body (sds : list addr) (j : nat) (mp : Mem * list addr)
    : option (Mem * list addr) :=
  if decide (length sds = 0) then None
  else
    seed ← sds !! (j mod length sds);
    '(a, m') ← Algo_gen (mp.1) seed;
    Some (m', <[j := a]> (mp.2)).

(** Lines 251-255. *)
Definition delete_seed_body (j : nat) (ms : Mem * list addr)
    : option (Mem * list addr) :=
  p ← ms.2 !! j;
  m' ← Algo_delete (ms.1) p;
  Some (m', <[j := NULL]> (ms.2)).

(** Generation 1, lines 246-255: the new store, population and seeds. *)
Definition init_population (m : Mem) (sds pop : list addr)
    : option (Mem * list addr * list addr) :=
  mp ← for_each (seq 0 populationSize) (spawn_body sds) (m, pop);
  ms ← for_each (seq 0 (length sds)) delete_seed_body (mp.1, sds);
  Some (ms.1, mp.2, ms.2).

(** Lines 261-265. *)
Definition breed_body (scs : list AlgoScore) (j : nat) (mp : Mem * list addr)
    : option (Mem * list addr) :=
  if decide (successorSize = 0) then None
  else
    as_ ← scs !! (j mod successorSize);
    '(a, m') ← Algo_gen (mp.1) (algo as_);
    Some (m', <[j := a]> (mp.2)).

(** Lines 266-273. *)
Definition replace_body (keep : addr) (newpop : list addr) (j : nat)
    (mp : Mem * list addr) : option (Mem * list addr) :=
  p ← mp.2 !! j;
  m' ← (if decide (p = keep) then Some (mp.1) else Algo_delete (mp.1) p);
  n ← newpop !! j;
  Some (m', <[j := n]> (mp.2)).

(** Generations 2 and later, lines 259-273; [b] is [*best]. *)
Definition breed (b : AlgoScore) (scs : list AlgoScore) (m : Mem)
    (pop : list addr) : option (Mem * list addr) :=
  if decide (populationSize = 0) then None
  else
    let newpop := <[0 := algo b]> (replicate populationSize NULL) in
    mn ← for_each (seq 1 (populationSize - 1)) (breed_body scs) (m, newpop);
    for_each (seq 0 populationSize) (replace_body (algo b) (mn.2)) (mn.1, pop).

(** Lines 278-292: the workers run, then merge in the order [order]. *)
Definition merge_body (tds : list threadData) (workers : list Worker)
    (j : nat) (g : Shared) : option Shared :=
  td ← tds !! j;
  w ← workers !! j;
  Process_merge successorSize td w g.

Definition evaluate (numThreads : nat) (order : list nat) (m : Mem)
    (pop : list addr) (global : Heap) : option (Shared * list AlgoScore) :=
  let tds := make_threadData populationSize numThreads <$> seq 0 numThreads in
  workers ← mapM (Process_local successorSize m pop) tds;
  g ← for_each order (merge_body tds workers)
        (mkShared global (mkStats 0%Qc 0%Qc 0));
  Some (g, concat (w_evaluated <$> workers)).

(** Lines 294-297. *)
Definition drain_body (j : nat) (hs : Heap * list AlgoScore)
    : option (Heap * list AlgoScore) :=
  '(x, h) ← Pop (hs.1);
  Some (h, <[j := x]> (hs.2)).

(** Lines 323-330 and 336-343. *)
Definition free_body (keep : addr) (j : nat) (mp : Mem * list addr)
    : option (Mem * list addr) :=
  p ← mp.2 !! j;
  if decide (p = keep) then Some mp
  else m' ← Algo_delete (mp.1) p; Some (m', <[j := NULL]> (mp.2)).

Definition free_losers (keep : addr) (st : State) : option State :=
  mp ← for_each (seq 0 populationSize) (free_body keep)
         (mem st, population st);
  Some (mkState (mp.1) (seeds st) (mp.2) (scores st) (algoscores st) (best st)
          (prevAvg st) (prevBest st) (reports st) (evaluated st)).

(** Lines 244-274: the new store, population and seeds of generation [i]. *)
Definition populate (i : nat) (st : State)
    : option (Mem * list addr * list addr) :=
  if decide (i = 1)
  then init_population (mem st) (seeds st) (population st)
  else
    b ← best st;
    mp ← breed b (algoscores st) (mem st) (population st);
    Some (mp.1, mp.2, seeds st).

(** Lines 276-318: evaluation, selection of the successors and of the best,
    the report. *)
Definition select (numThreads : nat) (i : nat) (st : State)
    (mps : Mem * list addr * list addr) : option State :=
  let '(m1, pop1, sds1) := mps in
  '(g, evs) ← evaluate numThreads (schedule i) m1 pop1 (Flush (scores st));
  hs ← for_each (seq 0 successorSize) drain_body (sh_scores g, algoscores st);
  b ← max_element algoScoreSort (hs.2);
  _ ← cells m1 !! algo b;
  let popBar := popBar (sh_stats g) in
  Some (mkState m1 sds1 pop1 (hs.1) (hs.2) (Some b) popBar (ascore b)
          (reports st ++ [make_report i (hs.2) popBar b (prevAvg st) (prevBest st)])
          (evaluated st ++ evs)).

(** One turn of the loop at line 239, up to line 318. *)
Definition generation (numThreads : nat) (i : nat) (st : State)
    : option State :=
  mps ← populate i st;
  select numThreads i st mps.

(** The loop at line 239 with [n] generations left to run, and what
    follows it. The answer is the returned [AlgoScore] and the final
    state. The counter is a natural number here; the loop with the 32-bit
    counter of the source is [cycles_wrapping] below, which this one agrees
    with when [m_numCycles] is below [UINT_MAX]. *)
Fixpoint cycles (numThreads : nat) (n i : nat) (st : State)
    : option (AlgoScore * State) :=
  match n with
  | 0 =>
      winner ← max_element algoScoreSort (algoscores st);
      st' ← free_losers (algo winner) st;
      Some (winner, st')
  | S n' =>
      st' ← generation numThreads i st;
      if C (algoscores st') i
      then
        b ← best st';
        st'' ← free_losers (algo b) st';
        Some (b, st'')
      else cycles numThreads n' (S i) st'
  end.

(** [God::simulate<H, C>], started in the store [m]. The loop counter is
    taken not to wrap: [m_numCycles] is below [UINT_MAX]. *)
Definition simulate (m : Mem) : option (AlgoScore * State) :=
  numThreads ← numThreads populationSize (m_minThreadWorkloadSize god)
                 (m_maxNumThreads god);
  cycles numThreads (m_numCycles god) 1
    (mkState m (m_seeds god) (replicate populationSize NULL)
       (mkHeap successorSize [])
       (replicate successorSize (mkAlgoScore NULL (Processor.mkScore false 0%Qc)))
       None 0%Qc 0%Qc [] []).

(** ** The loop with its 32-bit counter *)





End Engine.

(** * Notions used to state the properties *)

(** [covers h y]: some retained item is at least as good as [y]. *)
Definition covers (h : Heap) (y : AlgoScore) : Prop :=
  ∃ z, z ∈ items h ∧ algoScoreSort z y = false.

(** The retained items are in best-first order: no item is beaten by a later
    one. *)
Definition best_first (H : AlgoScore → AlgoScore → Z) (l : list AlgoScore)
    : Prop :=
  StronglySorted (λ x y, (H y x <? 0)%Z = false) l.

(** The comparator [H] calls better what [algoScoreSort] calls greater. *)
Definition ranks_like_sorter (H : AlgoScore → AlgoScore → Z) : Prop :=
  ∀ x w, (H x w <? 0)%Z = algoScoreSort w x.

Section Notions.
Context {Genome : Type}.
Variable gen_content : addr → Genome → Genome.
Variable process_score : Genome → Processor.Score.
Variable schedule : nat → list nat.
Variable H : AlgoScore → AlgoScore → Z.
Variable god : God.

Definition live (m : @Mem Genome) (p : addr) : Prop := is_Some (cells m !! p).

(** Live objects lie strictly between the null pointer and the next fresh
    address. *)
Definition mem_wf (m : @Mem Genome) : Prop :=
  0 < brk m ∧ ∀ p, live m p → 0 < p < brk m.

(** The store after the objects at [ps] were destroyed, in that order. *)
Definition freed (ps : list addr) (m : @Mem Genome) : @Mem Genome :=
  mkMem (foldr delete (cells m) ps) (brk m) (reverse ps ++ deleted m).

(** The store after [Algo::gen] on an object of content [g]. *)
Definition spawned (g : Genome) (m : @Mem Genome) : @Mem Genome :=
  mkMem (<[brk m := gen_content (brk m) g]> (cells m)) (S (brk m)) (deleted m).

(** [x] is what evaluating a member of [pop] in the store [m] gives. *)
Definition evaluation_of (m : @Mem Genome) (pop : list addr) (x : AlgoScore)
    : Prop :=
  ∃ g, algo x ∈ pop ∧ cells m !! algo x = Some g ∧ score x = process_score g.

(** [x] is the pair [Process] builds for the individual at [p]. *)
Definition scored_as (m : @Mem Genome) (p : addr) (x : AlgoScore) : Prop :=
  algo x = p ∧ ∃ g, cells m !! p = Some g ∧ score x = process_score g.

(** The configuration under which every generation is defined: at least one
    worker, a non-empty successor set that every slice can fill, slice bounds
    that do not wrap, and every worker taking the mutex once. *)
Definition config_ok (numThreads : nat) : Prop :=
  0 < numThreads ∧ 0 < m_successorSize god
  ∧ m_successorSize god ≤ m_populationSize god / numThreads
  ∧ is_uint (numThreads * m_populationSize god)
  ∧ ∀ i, schedule i ≡ₚ seq 0 numThreads.

(** The state before generation 1: the seeds are distinct live objects. *)
Definition start_ok (st : @State Genome) : Prop :=
  mem_wf (mem st) ∧ seeds st ≠ [] ∧ NoDup (seeds st)
  ∧ (∀ s, s ∈ seeds st → live (mem st) s)
  ∧ length (population st) = m_populationSize god
  ∧ capacity (scores st) = m_successorSize god
  ∧ length (algoscores st) = m_successorSize god
  ∧ best st = None
  ∧ evaluated st = [].

(** The state after a generation: the population is made of distinct live
    objects, the successors are evaluations of its members, [best] is their
    maximum, and, when the heap ranks like [algoScoreSort], nothing evaluated
    so far outranks it. *)
Definition running (st : @State Genome) : Prop :=
  mem_wf (mem st)
  ∧ length (population st) = m_populationSize god
  ∧ NoDup (population st)
  ∧ (∀ p, p ∈ population st → live (mem st) p)
  ∧ capacity (scores st) = m_successorSize god
  ∧ length (algoscores st) = m_successorSize god
  ∧ (∀ x, x ∈ algoscores st →
       evaluation_of (mem st) (population st) x ∧ x ∈ evaluated st)
  ∧ (∃ b, best st = Some b
          ∧ max_element algoScoreSort (algoscores st) = Some b
          ∧ (ranks_like_sorter H →
               ∀ x, x ∈ evaluated st → algoScoreSort b x = false)).

(** The state after a generation of a run started in the store [m0] with
    the seeds [sds]: besides [running], at least one report was made, the
    run created [populationSize] objects in its first generation and
    [populationSize - 1] in each later one, the population is made of
    objects the run created, what was in [m0] is untouched but for the
    seeds, which are gone, and every object the run created and did not yet
    destroy is in the population. *)
Definition tidy (m0 : @Mem Genome) (sds : list addr) (s : @State Genome)
    : Prop :=
  running s
  ∧ 0 < length (reports s)
  ∧ brk (mem s)
    = brk m0 + m_populationSize god
      + (length (reports s) - 1) * (m_populationSize god - 1)
  ∧ (∀ p, p ∈ population s → brk m0 ≤ p)
  ∧ (∀ q, q < brk m0 →
       cells (mem s) !! q = if decide (q ∈ sds) then None else cells m0 !! q)
  ∧ (∀ q, brk m0 ≤ q → live (mem s) q → q ∈ population s).

End Notions.

Global Arguments spawned : simpl never.
Global Arguments freed : simpl never.

(** * A small concrete run *)

(** One seed of content 0 at address 1; an individual's content is the
    address it was allocated at, and its score that content, never a
    success; one worker, three individuals, two successors, one cycle. *)
Definition demo_god : God := mkGod [1] 3 2 3 1 1.
Definition demo_mem : @Mem nat := mkMem {[ 1 := 0 ]} 2 [].
Definition demo_gen (a : addr) (g : nat) : nat := a.
Definition demo_score (g : nat) : Processor.Score :=
  Processor.mkScore false (Qc_of_nat g).
Definition demo_schedule (i : nat) : list nat := [0].

(** The same run with a score that is a success exactly for content 3, and
    three cycles allowed. *)
Definition lucky_score (g : nat) : Processor.Score :=
  Processor.mkScore (bool_decide (g = 3)) (Qc_of_nat g).
Definition lucky_god : God := mkGod [1] 3 2 3 1 3.

(** A score that is a success exactly for content 2, the lowest value of
    the first generation. *)
Definition early_score (g : nat) : Processor.Score :=
  Processor.mkScore (bool_decide (g = 2)) (Qc_of_nat g).

(** The state [simulate] starts the loop in, for [lucky_god] in
    [demo_mem]. *)
Definition lucky_start : @State nat :=
  mkState demo_mem [1] (replicate 3 NULL) (mkHeap 2 [])
    (replicate 2 (mkAlgoScore NULL (Processor.mkScore false 0%Qc)))
    None 0%Qc 0%Qc [] [].

(** Two live individuals, one successor. *)
Definition pair_god : God := mkGod [] 2 1 1 1 2.
Definition pair_mem : @Mem nat := mkMem {[ 1 := 10; 2 := 20 ]} 3 [].
Definition pair_best : AlgoScore := mkAlgoScore 2 (demo_score 20).

(** * Properties *)

(** ** Machine integers *)

Lemma uint_wrap_small (z : Z) : (0 ≤ z < UINT_MOD)%Z → uint_wrap z = Z.to_nat z.
Proof. intros Hz. unfold uint_wrap. by rewrite Z.mod_small. Qed.

Lemma uint_add_small (a b : nat) : is_uint (a + b) → uint_add a b = a + b.
Proof.
  unfold is_uint, uint_add. intros Hab.
  rewrite uint_wrap_small by lia. lia.
Qed.

Lemma uint_mul_small (a b : nat) : is_uint (a * b) → uint_mul a b = a * b.
Proof.
  unfold is_uint, uint_mul. intros Hab.
  rewrite uint_wrap_small by lia. lia.
Qed.

Lemma uint_sub_small (a b : nat) : b ≤ a → is_uint a → uint_sub a b = a - b.
Proof.
  unfold is_uint, uint_sub. intros Hba Ha.
  rewrite uint_wrap_small by lia. lia.
Qed.

Lemma is_uint_le (a b : nat) : a ≤ b → is_uint b → is_uint a.
Proof. unfold is_uint. lia. Qed.

(** ** Comparators *)

Lemma algoScoreSort_irrefl (a : AlgoScore) : algoScoreSort a a = false.
Proof.
  unfold algoScoreSort. rewrite Bool.eqb_reflx.
  apply bool_decide_eq_false. intros H. by apply Qclt_not_eq in H.
Qed.

Lemma Qclt_asym (x y : Qc) : (x < y)%Qc → ¬ (y < x)%Qc.
Proof. unfold Qclt. lra. Qed.


(** A success outranks a failure, whatever the values. *)
Lemma algoScoreSort_success (a b : AlgoScore) :
  asuccess a = false → asuccess b = true → algoScoreSort a b = true.
Proof. unfold algoScoreSort. by intros -> ->. Qed.

Lemma algoScoreSort_failure (a b : AlgoScore) :
  asuccess a = true → asuccess b = false → algoScoreSort a b = false.
Proof. unfold algoScoreSort. by intros -> ->. Qed.

Lemma algoScoreSort_value (a b : AlgoScore) :
  asuccess a = asuccess b →
  algoScoreSort a b = bool_decide (ascore a < ascore b)%Qc.
Proof. unfold algoScoreSort. intros ->. by rewrite Bool.eqb_reflx. Qed.

(** [algoScoreSort] is the strict part of a total preorder: its negation is
    transitive. *)
Lemma algoScoreSort_negtrans (a b c : AlgoScore) :
  algoScoreSort a b = false → algoScoreSort b c = false →
  algoScoreSort a c = false.
Proof.
  unfold algoScoreSort.
  destruct (asuccess a), (asuccess b), (asuccess c); simpl; try done.
  all: rewrite !bool_decide_eq_false; unfold Qclt; lra.
Qed.

Lemma algoScoreSort_trans (a b c : AlgoScore) :
  algoScoreSort a b = true → algoScoreSort b c = true →
  algoScoreSort a c = true.
Proof.
  unfold algoScoreSort.
  destruct (asuccess a), (asuccess b), (asuccess c); simpl; try done.
  all: rewrite !bool_decide_eq_true; unfold Qclt; lra.
Qed.

(** ** [max_element] *)

Lemma max_element_from_elem comp (x : AlgoScore) l :
  max_element_from comp x l ∈ x :: l.
Proof.
  revert x. induction l as [|y l IH]; intros x; simpl; [by left|].
  specialize (IH (if comp x y then y else x)).
  apply elem_of_cons in IH as [->|IH].
  - destruct (comp x y); [right|]; by left.
  - by do 2 right.
Qed.

Lemma max_element_from_ge (x : AlgoScore) l :
  algoScoreSort (max_element_from algoScoreSort x l) x = false.
Proof.
  revert x. induction l as [|y l IH]; intros x; simpl.
  - apply algoScoreSort_irrefl.
  - destruct (algoScoreSort x y) eqn:Hxy; [|apply IH].
    apply algoScoreSort_negtrans with y; [apply IH|].
    revert Hxy. unfold algoScoreSort.
    destruct (asuccess x), (asuccess y); simpl; try done.
    all: rewrite bool_decide_eq_true, bool_decide_eq_false; unfold Qclt; lra.
Qed.

Lemma max_element_from_max (x : AlgoScore) l y :
  y ∈ x :: l →
  algoScoreSort (max_element_from algoScoreSort x l) y = false.
Proof.
  revert x. induction l as [|z l IH]; intros x Hy; simpl.
  - apply list_elem_of_singleton in Hy as ->. apply algoScoreSort_irrefl.
  - apply elem_of_cons in Hy as [->|Hy].
    + apply algoScoreSort_negtrans with (if algoScoreSort x z then z else x).
      * apply max_element_from_ge.
      * destruct (algoScoreSort x z) eqn:Hxz; [|apply algoScoreSort_irrefl].
        revert Hxz. unfold algoScoreSort.
        destruct (asuccess x), (asuccess z); simpl; try done.
        all: rewrite bool_decide_eq_true, bool_decide_eq_false;
          unfold Qclt; lra.
    + apply elem_of_cons in Hy as [->|Hy].
      * apply algoScoreSort_negtrans with (if algoScoreSort x z then z else x).
        -- apply max_element_from_ge.
        -- destruct (algoScoreSort x z) eqn:Hxz; [apply algoScoreSort_irrefl|done].
      * apply IH. set_solver.
Qed.

(** ** Online statistics *)

Lemma Qc_of_nat_S n : Qc_of_nat (S n) = (Qc_of_nat n + 1)%Qc.
Proof.
  unfold Qc_of_nat. rewrite Nat2Z.inj_succ, <-Z.add_1_r, Z2Qc_inj_add.
  by rewrite Z2Qc_inj_1.
Qed.

Lemma Qc_of_nat_0 : Qc_of_nat 0 = 0%Qc.
Proof. apply Z2Qc_inj_0. Qed.

Lemma Qc_of_nat_add n m : Qc_of_nat (n + m) = (Qc_of_nat n + Qc_of_nat m)%Qc.
Proof. unfold Qc_of_nat. by rewrite Nat2Z.inj_add, Z2Qc_inj_add. Qed.

Lemma Qc_of_nat_neq_0 n : n ≠ 0 → Qc_of_nat n ≠ 0%Qc.
Proof.
  intros Hn Heq. unfold Qc_of_nat in Heq.
  rewrite <-Z2Qc_inj_0 in Heq. apply Z2Qc_inj in Heq. lia.
Qed.

Lemma Qc_sum_app xs ys : Qc_sum (xs ++ ys) = (Qc_sum xs + Qc_sum ys)%Qc.
Proof.
  unfold Qc_sum. induction xs as [|x xs IH]; simpl; [ring|].
  rewrite IH. ring.
Qed.

Lemma Qc_sumsq_app xs ys : Qc_sumsq (xs ++ ys) = (Qc_sumsq xs + Qc_sumsq ys)%Qc.
Proof. unfold Qc_sumsq. by rewrite fmap_app, Qc_sum_app. Qed.

Lemma Qc_sum_perm xs ys : Permutation xs ys → Qc_sum xs = Qc_sum ys.
Proof.
  unfold Qc_sum. induction 1; simpl; try congruence. ring.
Qed.

Lemma Qc_div_0 (x : Qc) : (x / 0 = 0)%Qc.
Proof. apply Qc_is_canon. unfold Qcdiv, Qcmult, Qcinv. simpl.
  rewrite !Qred_correct. change (/ 0)%Q with 0%Q. ring. Qed.

Lemma Qc_sum_snoc xs x : Qc_sum (xs ++ [x]) = (Qc_sum xs + x)%Qc.
Proof. rewrite Qc_sum_app. unfold Qc_sum at 2. simpl. ring. Qed.

Lemma Qc_sumsq_snoc xs x : Qc_sumsq (xs ++ [x]) = (Qc_sumsq xs + x * x)%Qc.
Proof. unfold Qc_sumsq. rewrite fmap_app. apply Qc_sum_snoc. Qed.

Lemma welford_step_stats (p : list Qc) (x : Qc) :
  welford_step (S (length p)) x (popM (stats_of p)) (popBar (stats_of p))
  = (popM (stats_of (p ++ [x])), popBar (stats_of (p ++ [x]))).
Proof.
  unfold welford_step, stats_of, mean, popM, popBar.
  rewrite !Qc_sum_snoc, !Qc_sumsq_snoc, length_app, Nat.add_1_r.
  destruct p as [|y p].
  - change (Qc_sum []) with 0%Qc. change (Qc_sumsq []) with 0%Qc.
    change (length (@nil Qc)) with 0.
    rewrite Qc_of_nat_S, Qc_of_nat_0, !Qc_div_0. f_equal; field; done.
  - set (n := length (y :: p)).
    assert (Qc_of_nat n ≠ 0%Qc) as Hq by by apply Qc_of_nat_neq_0.
    assert (Qc_of_nat n + 1 ≠ 0)%Qc as Hq'.
    { rewrite <-Qc_of_nat_S. by apply Qc_of_nat_neq_0. }
    rewrite Qc_of_nat_S. f_equal; field; done.
Qed.

Lemma welford_from_stats (p xs : list Qc) :
  welford_from (length p) xs (popM (stats_of p)) (popBar (stats_of p))
  = (popM (stats_of (p ++ xs)), popBar (stats_of (p ++ xs))).
Proof.
  revert p. induction xs as [|x xs IH]; intros p.
  - by rewrite app_nil_r.
  - change (welford_from (length p) (x :: xs) ?a ?b)
      with (let '(xM', xBar') := welford_step (S (length p)) x a b in
            welford_from (S (length p)) xs xM' xBar').
    rewrite welford_step_stats.
    replace (S (length p)) with (length (p ++ [x]))
      by (rewrite length_app; simpl; lia).
    rewrite IH. by rewrite <-app_assoc.
Qed.

Lemma stats_of_nil : stats_of [] = mkStats 0%Qc 0%Qc 0.
Proof.
  unfold stats_of, mean. change (length (@nil Qc)) with 0.
  change (Qc_sum []) with 0%Qc. change (Qc_sumsq []) with 0%Qc.
  rewrite Qc_of_nat_0, !Qc_div_0. f_equal; ring.
Qed.

Lemma Process_stats_of (xs : list Qc) : Process_stats xs = stats_of xs.
Proof.
  unfold Process_stats.
  pose proof (welford_from_stats [] xs) as H.
  rewrite stats_of_nil in H. simpl in H. by rewrite H.
Qed.

Lemma stats_of_perm xs ys : Permutation xs ys → stats_of xs = stats_of ys.
Proof.
  intros Hp. unfold stats_of, mean, Qc_sumsq.
  rewrite (Qc_sum_perm _ _ Hp), (Permutation_length Hp).
  by rewrite (Qc_sum_perm _ _ (fmap_Permutation _ _ _ Hp)).
Qed.

Lemma merge_stats_of (xs ys : list Qc) :
  is_uint (length xs + length ys) →
  merge_stats (stats_of xs) (stats_of ys) = stats_of (xs ++ ys).
Proof.
  intros Hu. unfold merge_stats.
  destruct (decide (popN (stats_of xs) = 0)) as [Hx|Hx]; simpl in Hx.
  - apply length_zero_iff_nil in Hx. by subst xs.
  - unfold stats_of, mean, popM, popBar, popN.
    rewrite uint_add_small by (by rewrite Nat.add_comm).
    rewrite Qc_sum_app, Qc_sumsq_app, length_app.
    rewrite (Nat.add_comm (length ys)), Qc_of_nat_add.
    pose proof (Qc_of_nat_neq_0 _ Hx) as Hq.
    assert (Qc_of_nat (length xs) + Qc_of_nat (length ys) ≠ 0)%Qc as Hq'.
    { rewrite <-Qc_of_nat_add. apply Qc_of_nat_neq_0. lia. }
    destruct ys as [|y ys].
    + change (Qc_sum []) with 0%Qc. change (Qc_sumsq []) with 0%Qc.
      change (length (@nil Qc)) with 0.
      rewrite Qc_of_nat_0, !Qc_div_0. f_equal; field; done.
    + set (m := length (y :: ys)) in *.
      assert (Qc_of_nat m ≠ 0%Qc) as Hm by by apply Qc_of_nat_neq_0.
      f_equal; field; done.
Qed.

Lemma sumSqDev_shift (mu : Qc) (xs : list Qc) :
  Qc_sum ((λ x, (x - mu) * (x - mu))%Qc <$> xs)
  = (Qc_sumsq xs - (1 + 1) * mu * Qc_sum xs + Qc_of_nat (length xs) * mu * mu)%Qc.
Proof.
  induction xs as [|x xs IH].
  - change (length (@nil Qc)) with 0. rewrite Qc_of_nat_0.
    change (Qc_sumsq []) with 0%Qc. change (Qc_sum []) with 0%Qc.
    change (Qc_sum (_ <$> [])) with 0%Qc. ring.
  - change (Qc_sum (?f <$> x :: xs)) with (f x + Qc_sum (f <$> xs))%Qc.
    change (Qc_sumsq (x :: xs)) with (x * x + Qc_sumsq xs)%Qc.
    change (Qc_sum (x :: xs)) with (x + Qc_sum xs)%Qc.
    change (length (x :: xs)) with (S (length xs)).
    rewrite IH, Qc_of_nat_S. ring.
Qed.

Lemma sumSqDev_stats_of (xs : list Qc) : sumSqDev xs = popM (stats_of xs).
Proof.
  unfold sumSqDev. rewrite sumSqDev_shift.
  unfold stats_of, popM, mean. destruct xs as [|x xs].
  - change (length (@nil Qc)) with 0. rewrite Qc_of_nat_0, !Qc_div_0. ring.
  - set (n := length (x :: xs)).
    assert (Qc_of_nat n ≠ 0%Qc) as Hq by by apply Qc_of_nat_neq_0.
    field; done.
Qed.

Lemma foldl_merge_stats (acc : list Qc) (order : list (list Qc)) :
  is_uint (length acc + length (concat order)) →
  foldl merge_stats (stats_of acc) (Process_stats <$> order)
  = stats_of (acc ++ concat order).
Proof.
  revert acc. induction order as [|s order IH]; intros acc Hu.
  - by rewrite app_nil_r.
  - simpl in *. rewrite length_app in Hu.
    rewrite Process_stats_of, merge_stats_of by (eapply is_uint_le, Hu; lia).
    rewrite IH by (rewrite length_app; eapply is_uint_le, Hu; lia).
    by rewrite <-app_assoc.
Qed.

(** C2. Whatever the slices of a sequence of scores and whatever the order
    in which the workers merge, the global [(popM, popBar, popN)] equals what
    one worker computes over the whole sequence, which is its sum of squared
    deviations, its mean and its length; on worker results the merge is
    commutative and associative. The counts are taken to fit an
    [unsigned int]. *)
Theorem parallel_statistics_equal_sequential (slices order : list (list Qc)) :
  order ≡ₚ slices →
  is_uint (length (concat slices)) →
  let merged := foldl merge_stats (mkStats 0%Qc 0%Qc 0) (Process_stats <$> order) in
  merged = Process_stats (concat slices)
  ∧ popN merged = length (concat slices)
  ∧ popBar merged = mean (concat slices)
  ∧ popM merged = sumSqDev (concat slices)
  ∧ (∀ a b : list Qc, is_uint (length a + length b) →
       merge_stats (Process_stats a) (Process_stats b)
       = merge_stats (Process_stats b) (Process_stats a))
  ∧ (∀ a b c : list Qc, is_uint (length a + length b + length c) →
       merge_stats (merge_stats (Process_stats a) (Process_stats b)) (Process_stats c)
       = merge_stats (Process_stats a) (merge_stats (Process_stats b) (Process_stats c))).
Proof.
  intros Hperm Hu merged.
  assert (concat order ≡ₚ concat slices) as Hc by by rewrite Hperm.
  assert (merged = stats_of (concat slices)) as Hm.
  { unfold merged. rewrite <-stats_of_nil, foldl_merge_stats.
    - by apply stats_of_perm.
    - simpl. by rewrite (Permutation_length Hc). }
  rewrite Hm, Process_stats_of, sumSqDev_stats_of. repeat split.
  - intros a b Hab. rewrite !Process_stats_of.
    rewrite !merge_stats_of by (eapply is_uint_le, Hab; lia).
    apply stats_of_perm, Permutation_app_comm.
  - intros a b c Habc. rewrite !Process_stats_of.
    rewrite !merge_stats_of; rewrite ?length_app;
      try (eapply is_uint_le, Habc; lia).
    by rewrite <-app_assoc.
Qed.

Lemma parallel_statistics_witness :
  let slices := [[Qc_of_nat 1; Qc_of_nat 2]; [Qc_of_nat 6]] in
  let merged := foldl merge_stats (mkStats 0%Qc 0%Qc 0)
                  (Process_stats <$> reverse slices) in
  merged = Process_stats (concat slices)
  ∧ popN merged = 3
  ∧ popBar merged = Qc_of_nat 3
  ∧ popM merged = Qc_of_nat 14.
Proof.
  intros slices merged.
  destruct (parallel_statistics_equal_sequential slices (reverse slices))
    as (H1 & H2 & H3 & H4 & _).
  - apply reverse_Permutation.
  - unfold is_uint, UINT_MOD. simpl. lia.
  - fold merged in H1, H2, H3, H4. repeat split; [done..| |].
    + rewrite H3. apply Qc_is_canon. reflexivity.
    + rewrite H4. apply Qc_is_canon. reflexivity.
Defined.

(** ** Number of worker threads *)

Lemma numThreads_min (populationSize minThreadWorkloadSize maxNumThreads : nat) :
  minThreadWorkloadSize ≠ 0 →
  numThreads populationSize minThreadWorkloadSize maxNumThreads
  = Some ((populationSize / minThreadWorkloadSize) `min` maxNumThreads).
Proof.
  intros Hw. unfold numThreads. rewrite decide_False by done.
  cbv zeta. f_equal. case_decide; lia.
Qed.

Lemma numThreads_positive (populationSize minThreadWorkloadSize maxNumThreads n : nat) :
  0 < maxNumThreads →
  numThreads populationSize minThreadWorkloadSize maxNumThreads = Some n →
  0 < n ↔ minThreadWorkloadSize ≤ populationSize.
Proof.
  intros Hm. unfold numThreads. case_decide as Hw; [done|].
  cbv zeta. intros [= <-].
  assert (0 < populationSize / minThreadWorkloadSize
          ↔ minThreadWorkloadSize ≤ populationSize) as Hdiv.
  { by apply Nat.div_str_pos_iff. }
  case_decide; lia.
Qed.

(** C3 (the code departs from it). With a population of 3, a minimal
    workload of 5 and at most 2 threads, all positive, [simulate] computes
    [min (3 / 5) 2], which is no worker thread at all. *)
Theorem numThreads_zero_when_underpopulated : numThreads 3 5 2 = Some 0.
Proof. reflexivity. Qed.

(** ** The ordering policies *)

(** C7. For both heap comparators a success outranks a failure whatever the
    values (the result is -1 with the success on the left and 1 with it on
    the right); between two items of equal success flag [minScoreHeap] ranks
    the lower value better and [maxScoreHeap] the higher one; equal flag and
    equal value compare as 0. *)
Theorem heap_orderings_contract (a b : AlgoScore) :
  (asuccess a = true → asuccess b = false →
     minScoreHeap a b = (-1)%Z ∧ minScoreHeap b a = 1%Z
     ∧ maxScoreHeap a b = (-1)%Z ∧ maxScoreHeap b a = 1%Z)
  ∧ (asuccess a = asuccess b → (ascore a < ascore b)%Qc →
     minScoreHeap a b = (-1)%Z ∧ minScoreHeap b a = 1%Z
     ∧ maxScoreHeap a b = 1%Z ∧ maxScoreHeap b a = (-1)%Z)
  ∧ (asuccess a = asuccess b → ascore a = ascore b →
     minScoreHeap a b = 0%Z ∧ maxScoreHeap a b = 0%Z).
Proof.
  unfold minScoreHeap, maxScoreHeap. split; [|split].
  - by intros -> ->.
  - intros Heq Hlt. pose proof (Qclt_asym _ _ Hlt) as Hge. rewrite Heq.
    destruct (asuccess b); simpl;
      rewrite (bool_decide_eq_true_2 _ Hlt), (bool_decide_eq_false_2 _ Hge);
      done.
  - intros Heq Hv. rewrite Heq, Hv.
    assert (¬ (ascore b < ascore b)%Qc) as Hirr.
    { intros Hlt. by apply Qclt_not_eq in Hlt. }
    destruct (asuccess b); simpl; by rewrite (bool_decide_eq_false_2 _ Hirr).
Qed.

Lemma heap_orderings_contract_witness :
  let s := mkAlgoScore 1 (Processor.mkScore true (Qc_of_nat 9)) in
  let f := mkAlgoScore 2 (Processor.mkScore false (Qc_of_nat 1)) in
  let g := mkAlgoScore 3 (Processor.mkScore false (Qc_of_nat 4)) in
  (minScoreHeap s f = (-1)%Z ∧ maxScoreHeap f s = 1%Z)
  ∧ (minScoreHeap f g = (-1)%Z ∧ maxScoreHeap f g = 1%Z)
  ∧ (minScoreHeap g g = 0%Z ∧ maxScoreHeap g g = 0%Z).
Proof.
  intros s f g.
  destruct (heap_orderings_contract s f) as (Hsf & _ & _).
  destruct (heap_orderings_contract f g) as (_ & Hfg & _).
  destruct (heap_orderings_contract g g) as (_ & _ & Hgg).
  destruct Hsf as (? & _ & _ & ?); [reflexivity..|].
  destruct Hfg as (? & _ & ? & _); [reflexivity..|].
  destruct Hgg as (? & ?); [reflexivity..|].
  done.
Defined.

(** ** The generation's best *)

(** ** Loops *)

Lemma for_each_app {St : Type} (js ks : list nat) (body : nat → St → option St) s :
  for_each (js ++ ks) body s = for_each js body s ≫= for_each ks body.
Proof.
  revert s. induction js as [|j js IH]; intros s; simpl; [done|].
  destruct (body j s) as [s'|]; simpl; [apply IH|done].
Qed.

(** A loop over consecutive indices runs to its end when every turn is
    defined on the states the invariant allows. *)
Lemma for_each_seq_total {St : Type} (I : nat → St → Prop)
    (body : nat → St → option St) (lo n : nat) (s : St) :
  I lo s →
  (∀ j t, lo ≤ j < lo + n → I j t → ∃ t', body j t = Some t' ∧ I (S j) t') →
  ∃ s', for_each (seq lo n) body s = Some s' ∧ I (lo + n) s'.
Proof.
  revert lo s. induction n as [|n IH]; intros lo s Hs Hstep; simpl.
  - exists s. by rewrite Nat.add_0_r.
  - destruct (Hstep lo s) as (t & -> & Ht); [lia|done|]. simpl.
    destruct (IH (S lo) t) as (s' & Hs' & HI); [done| |].
    + intros j u Hj Hu. apply Hstep; [lia|done].
    + exists s'. split; [done|]. by replace (lo + S n) with (S lo + n) by lia.
Qed.

(** What a loop that ran to its end establishes. *)
Lemma for_each_seq_post {St : Type} (I : nat → St → Prop)
    (body : nat → St → option St) (lo n : nat) (s s' : St) :
  I lo s →
  (∀ j t t', lo ≤ j < lo + n → I j t → body j t = Some t' → I (S j) t') →
  for_each (seq lo n) body s = Some s' → I (lo + n) s'.
Proof.
  revert lo s. induction n as [|n IH]; intros lo s Hs Hstep; simpl.
  - intros [= <-]. by rewrite Nat.add_0_r.
  - destruct (body lo s) as [t|] eqn:Hb; [simpl|done]. intros Hrest.
    replace (lo + S n) with (S lo + n) by lia.
    apply (IH (S lo) t); [|intros j u u' Hj; apply Hstep; lia|done].
    by apply (Hstep lo s); [lia|..].
Qed.

Lemma for_each_list_total {St : Type} (I : list nat → St → Prop)
    (body : nat → St → option St) (js : list nat) (s : St) :
  I [] s →
  (∀ done_ j t, j ∈ js → I done_ t →
     ∃ t', body j t = Some t' ∧ I (done_ ++ [j]) t') →
  ∃ s', for_each js body s = Some s' ∧ I js s'.
Proof.
  intros Hs Hstep.
  cut (∀ done_ s, I done_ s → (∀ j, j ∈ js → j ∈ js) →
        ∀ rest, (∀ j, j ∈ rest → j ∈ js) →
        ∃ s', for_each rest body s = Some s' ∧ I (done_ ++ rest) s').
  { intros Hcut. apply (Hcut [] s); auto. }
  clear s Hs. intros done_ s Hs _ rest. revert done_ s Hs.
  induction rest as [|j rest IH]; intros done_ s Hs Hin; simpl.
  - exists s. by rewrite app_nil_r.
  - destruct (Hstep done_ j s) as (t & -> & Ht); [apply Hin; by left|done|].
    simpl. destruct (IH (done_ ++ [j]) t) as (s' & Hs' & HI); [done| |].
    + intros i Hi. apply Hin. by right.
    + exists s'. split; [done|]. by rewrite <-app_assoc in HI.
Qed.

Lemma for_each_list_post {St : Type} (I : list nat → St → Prop)
    (body : nat → St → option St) (js : list nat) (s s' : St) :
  I [] s →
  (∀ done_ j t t', j ∈ js → I done_ t → body j t = Some t' → I (done_ ++ [j]) t') →
  for_each js body s = Some s' → I js s'.
Proof.
  intros Hs Hstep.
  cut (∀ rest done_ s, I done_ s → (∀ j, j ∈ rest → j ∈ js) →
        for_each rest body s = Some s' → I (done_ ++ rest) s').
  { intros Hcut. apply (Hcut js [] s); auto. }
  clear s Hs. induction rest as [|j rest IH]; intros done_ s Hs Hin; simpl.
  - intros [= <-]. by rewrite app_nil_r.
  - destruct (body j s) as [t|] eqn:Hb; [simpl|done]. intros Hrest.
    rewrite (assoc_L (++) done_ [j] rest : done_ ++ j :: rest = (done_ ++ [j]) ++ rest).
    apply (IH _ t); [|intros i Hi; apply Hin; by right|done].
    eapply Hstep; [apply Hin; by left|done..].
Qed.

(** A turn that is undefined whatever the state stops the loop. *)
Lemma for_each_stuck {St : Type} (body : nat → St → option St) (js : list nat)
    (j : nat) (s : St) :
  j ∈ js → (∀ t, body j t = None) → for_each js body s = None.
Proof.
  intros Hj Hnone. revert s. induction js as [|i js IH]; intros s.
  - by apply elem_of_nil in Hj.
  - simpl. destruct (decide (i = j)) as [->|Hne].
    + by rewrite Hnone.
    + destruct (body i s); [simpl|done]. apply IH.
      apply elem_of_cons in Hj as [->|]; done.
Qed.

(** ** The bounded top-k selector *)

Section HeapFacts.
Variable H : AlgoScore → AlgoScore → Z.

Lemma insert_sorted_perm (x : AlgoScore) (l : list AlgoScore) :
  insert_sorted H x l ≡ₚ x :: l.
Proof.
  induction l as [|y l IH]; simpl; [done|].
  destruct (H x y <? 0)%Z; [done|]. rewrite IH. apply Permutation_swap.
Qed.

Lemma last_removelast (l : list AlgoScore) (w : AlgoScore) :
  last l = Some w → l = removelast l ++ [w].
Proof.
  intros Hl. destruct (decide (l = [])) as [->|Hne]; [done|].
  rewrite (app_removelast_last w Hne) at 1. f_equal. f_equal.
  apply last_Some in Hl as (l' & ->). by rewrite List.last_last.
Qed.

Lemma capacity_Insert (h : Heap) (x : AlgoScore) :
  capacity (Insert H h x) = capacity h.
Proof.
  unfold Insert. case_decide; [done|].
  destruct (last (items h)); [|done]. by destruct (H x a <? 0)%Z.
Qed.

Lemma length_items_Insert (h : Heap) (x : AlgoScore) :
  length (items (Insert H h x))
  = if decide (length (items h) < capacity h) then S (length (items h))
    else length (items h).
Proof.
  unfold Insert. case_decide; simpl.
  - by rewrite insert_sorted_perm.
  - destruct (last (items h)) as [w|] eqn:Hl; [|done].
    destruct (H x w <? 0)%Z; [|done]. simpl.
    rewrite insert_sorted_perm. simpl.
    rewrite (last_removelast _ _ Hl) at 2. rewrite length_app. simpl. lia.
Qed.

Lemma length_items_Insert_min (h : Heap) (x : AlgoScore) :
  length (items h) ≤ capacity h →
  length (items (Insert H h x)) = capacity h `min` S (length (items h)).
Proof. intros Hle. rewrite length_items_Insert. case_decide; lia. Qed.

Lemma elem_of_items_Insert (h : Heap) (x y : AlgoScore) :
  y ∈ items (Insert H h x) → y = x ∨ y ∈ items h.
Proof.
  unfold Insert. case_decide; simpl.
  - rewrite insert_sorted_perm. by intros [->|?]%elem_of_cons; [left|right].
  - destruct (last (items h)) as [w|] eqn:Hl; [|by right].
    destruct (H x w <? 0)%Z; [|by right]. simpl.
    rewrite insert_sorted_perm. intros [->|Hy]%elem_of_cons; [by left|right].
    rewrite (last_removelast _ _ Hl). apply elem_of_app. by left.
Qed.

Lemma Pop_Some (h h' : Heap) (b : AlgoScore) :
  Pop h = Some (b, h') ↔ items h = b :: items h' ∧ capacity h' = capacity h.
Proof.
  unfold Pop. destruct h as [c [|y l]], h' as [c' l']; simpl; split.
  - done.
  - by intros [? _].
  - by intros [= -> -> ->].
  - by intros [[= -> ->] ->].
Qed.

Lemma Pop_None (h : Heap) : Pop h = None ↔ items h = [].
Proof. unfold Pop. by destruct (items h). Qed.

Lemma algoScoreSort_asym (a b : AlgoScore) :
  algoScoreSort a b = true → algoScoreSort b a = false.
Proof.
  unfold algoScoreSort.
  destruct (asuccess a), (asuccess b); simpl; try done.
  all: rewrite bool_decide_eq_true, bool_decide_eq_false; apply Qclt_asym.
Qed.

Lemma covers_Insert_old (h : Heap) (x y : AlgoScore) :
  ranks_like_sorter H → covers h y → covers (Insert H h x) y.
Proof.
  intros Hr (z & Hz & Hzy). unfold covers, Insert. case_decide; simpl.
  - exists z. split; [|done]. rewrite insert_sorted_perm. by right.
  - destruct (last (items h)) as [w|] eqn:Hl; [|by exists z].
    destruct (H x w <? 0)%Z eqn:Hxw; [|by exists z]. simpl.
    rewrite (last_removelast _ _ Hl) in Hz.
    apply elem_of_app in Hz as [Hz|Hz%list_elem_of_singleton].
    + exists z. split; [|done]. rewrite insert_sorted_perm. by right.
    + subst z. exists x. split; [rewrite insert_sorted_perm; by left|].
      rewrite Hr in Hxw. apply algoScoreSort_asym in Hxw.
      by apply algoScoreSort_negtrans with w.
Qed.

Lemma covers_Insert_new (h : Heap) (x : AlgoScore) :
  ranks_like_sorter H → 0 < capacity h → covers (Insert H h x) x.
Proof.
  intros Hr Hc. unfold covers, Insert. case_decide as Hlt; simpl.
  - exists x. split; [|apply algoScoreSort_irrefl].
    rewrite insert_sorted_perm. by left.
  - destruct (last (items h)) as [w|] eqn:Hl.
    + destruct (H x w <? 0)%Z eqn:Hxw; simpl.
      * exists x. split; [|apply algoScoreSort_irrefl].
        rewrite insert_sorted_perm. by left.
      * exists w. rewrite Hr in Hxw. split; [|done].
        rewrite (last_removelast _ _ Hl). apply elem_of_app. right. by left.
    + apply last_None in Hl. rewrite Hl in Hlt. simpl in Hlt. lia.
Qed.

End HeapFacts.


(** ** Worker slices *)

Lemma is_uint_mul_le (a b c : nat) : a ≤ b → is_uint (b * c) → is_uint (a * c).
Proof. intros Hab. apply is_uint_le. by apply Nat.mul_le_mono_r. Qed.

Lemma make_threadData_start (P T j : nat) :
  j < T → is_uint (T * P) → start (make_threadData P T j) = j * P / T.
Proof.
  intros Hj Hu. unfold make_threadData. cbn [start].
  rewrite uint_mul_small; [done|]. eapply is_uint_mul_le, Hu. lia.
Qed.

Lemma make_threadData_stop (P T j : nat) :
  j < T → is_uint (T * P) → stop (make_threadData P T j) = S j * P / T.
Proof.
  intros Hj Hu. unfold make_threadData. cbn [stop]. case_decide as Hlast.
  - replace (S j) with T by lia. by rewrite (Nat.mul_comm T P), Nat.div_mul by lia.
  - rewrite uint_mul_small; [done|]. eapply is_uint_mul_le, Hu. lia.
Qed.

Lemma slice_bounds (P T j : nat) :
  j < T →
  j * P / T + P / T ≤ S j * P / T ∧ S j * P / T ≤ P.
Proof.
  intros Hj. split.
  - apply Nat.div_le_lower_bound; [lia|].
    pose proof (Nat.Div0.mul_div_le (j * P) T).
    pose proof (Nat.Div0.mul_div_le P T). lia.
  - apply Nat.Div0.div_le_upper_bound. nia.
Qed.

Lemma slice_zero_length (P T : nat) :
  0 < T → is_uint (T * P) →
  stop (make_threadData P T 0) - start (make_threadData P T 0) = P / T.
Proof.
  intros HT Hu. rewrite make_threadData_start, make_threadData_stop by done.
  rewrite Nat.mul_0_l, Nat.mul_1_l, Nat.Div0.div_0_l. lia.
Qed.

Section StoreFacts.
Context {Genome : Type}.
Variable gen_content : addr → Genome → Genome.
Variable process_score : Genome → Processor.Score.

(** ** The object store *)

Lemma Algo_gen_live (m : @Mem Genome) (p : addr) (g : Genome) :
  cells m !! p = Some g →
  Algo_gen gen_content m p = Some (brk m, spawned gen_content g m).
Proof. intros Hg. unfold Algo_gen. by rewrite Hg. Qed.

Lemma Algo_gen_Some (m m' : @Mem Genome) (p a : addr) :
  Algo_gen gen_content m p = Some (a, m') →
  ∃ g, cells m !! p = Some g ∧ a = brk m ∧ m' = spawned gen_content g m.
Proof.
  unfold Algo_gen. destruct (cells m !! p) as [g|]; [|done].
  simpl. intros [= <- <-]. by exists g.
Qed.

Lemma Algo_delete_live (m : @Mem Genome) (p : addr) :
  mem_wf m → live m p → Algo_delete m p = Some (freed [p] m).
Proof.
  intros [_ Hwf] Hp. unfold Algo_delete. destruct (Hwf p Hp) as [Hpos _].
  rewrite decide_False by (unfold NULL; lia). by destruct Hp as [g ->].
Qed.

Lemma Algo_delete_Some (m m' : @Mem Genome) (p : addr) :
  Algo_delete m p = Some m' →
  (p = NULL ∧ m' = m) ∨ (p ≠ NULL ∧ live m p ∧ m' = freed [p] m).
Proof.
  unfold Algo_delete. case_decide as Hp; [intros [= <-]; by left|].
  destruct (cells m !! p) as [g|] eqn:Hg; [|done]. intros [= <-].
  right. repeat split; [done|]. by exists g.
Qed.

Lemma lookup_spawned (m : @Mem Genome) (g : Genome) (q : addr) :
  cells (spawned gen_content g m) !! q
  = if decide (q = brk m) then Some (gen_content (brk m) g) else cells m !! q.
Proof.
  unfold spawned. simpl. case_decide as Hq.
  - subst q. apply lookup_insert_eq.
  - by apply lookup_insert_ne.
Qed.

Lemma lookup_spawned_old (m : @Mem Genome) (g : Genome) (q : addr) :
  mem_wf m → live m q → cells (spawned gen_content g m) !! q = cells m !! q.
Proof.
  intros [_ Hwf] Hq. rewrite lookup_spawned. rewrite decide_False; [done|].
  specialize (Hwf q Hq). lia.
Qed.

Lemma not_live_brk (m : @Mem Genome) : mem_wf m → cells m !! brk m = None.
Proof.
  intros [_ Hwf]. destruct (cells m !! brk m) eqn:Hb; [|done].
  assert (live m (brk m)) as Hl by by eexists. specialize (Hwf _ Hl). lia.
Qed.

Lemma mem_wf_spawned (m : @Mem Genome) (g : Genome) :
  mem_wf m → mem_wf (spawned gen_content g m).
Proof.
  intros [Hb Hwf]. split; [simpl; lia|]. intros p [x Hp].
  rewrite lookup_spawned in Hp. simpl. case_decide as Hq; [lia|].
  assert (live m p) as Hl by by eexists. specialize (Hwf _ Hl). lia.
Qed.

Lemma lookup_freed (ps : list addr) (m : @Mem Genome) (q : addr) :
  cells (freed ps m) !! q = if decide (q ∈ ps) then None else cells m !! q.
Proof.
  unfold freed. cbn [cells]. induction ps as [|p ps IH].
  - destruct (decide (q ∈ [])) as [Hin|]; [|done]. by apply elem_of_nil in Hin.
  - cbn [foldr]. destruct (decide (p = q)) as [->|Hne].
    + rewrite lookup_delete_eq.
      destruct (decide (q ∈ q :: ps)) as [|Hnin]; [done|].
      exfalso. apply Hnin. by left.
    + rewrite lookup_delete_ne by done. rewrite IH.
      destruct (decide (q ∈ ps)) as [Hin|Hnin];
        destruct (decide (q ∈ p :: ps)) as [Hin'|Hnin']; try done.
      * exfalso. apply Hnin'. by right.
      * by apply elem_of_cons in Hin' as [->|?].
Qed.

Lemma mem_wf_freed (ps : list addr) (m : @Mem Genome) :
  mem_wf m → mem_wf (freed ps m).
Proof.
  intros [Hb Hwf]. split; [done|]. intros p [x Hp].
  rewrite lookup_freed in Hp. case_decide; [done|]. apply Hwf. by eexists.
Qed.

Lemma freed_nil (m : @Mem Genome) : freed [] m = m.
Proof. by destruct m. Qed.

Lemma freed_snoc (ps : list addr) (p : addr) (m : @Mem Genome) :
  freed [p] (freed ps m) = freed (ps ++ [p]) m.
Proof.
  assert (cells (freed [p] (freed ps m)) = cells (freed (ps ++ [p]) m)) as Hc.
  { apply map_eq. intros q. rewrite !lookup_freed.
    destruct (decide (q ∈ [p])) as [Hq|Hq];
      destruct (decide (q ∈ ps ++ [p])) as [Hq'|Hq']; try done.
    - exfalso. apply Hq'. apply elem_of_app. by right.
    - destruct (decide (q ∈ ps)) as [|Hq'']; [done|].
      by apply elem_of_app in Hq' as [?|?].
    - destruct (decide (q ∈ ps)) as [Hq''|]; [|done].
      exfalso. apply Hq'. apply elem_of_app. by left. }
  unfold freed in *. cbn [cells brk deleted] in *. rewrite Hc.
  f_equal. by rewrite reverse_snoc.
Qed.

Lemma brk_spawned (m : @Mem Genome) (g : Genome) : brk (spawned gen_content g m) = S (brk m).
Proof. done. Qed.

Lemma deleted_spawned (m : @Mem Genome) (g : Genome) :
  deleted (spawned gen_content g m) = deleted m.
Proof. done. Qed.

Lemma brk_freed (ps : list addr) (m : @Mem Genome) : brk (freed ps m) = brk m.
Proof. done. Qed.

Lemma deleted_freed (ps : list addr) (m : @Mem Genome) :
  deleted (freed ps m) = reverse ps ++ deleted m.
Proof. done. Qed.

End StoreFacts.

Lemma insert_take_drop_step {A : Type} (l1 l : list A) (j : nat) (x : A) :
  length l1 = j → j < length l →
  <[j := x]> (l1 ++ drop j l) = (l1 ++ [x]) ++ drop (S j) l.
Proof.
  intros Hl1 Hj. rewrite insert_app_r_alt by lia.
  rewrite Hl1, Nat.sub_diag, <-app_assoc. f_equal.
  destruct (lookup_lt_is_Some_2 l j Hj) as [y Hy].
  by rewrite (drop_S _ _ _ Hy).
Qed.

Section SeedingFacts.
Context {Genome : Type}.
Variable gen_content : addr → Genome → Genome.
Variable process_score : Genome → Processor.Score.

(** ** Generation 1 *)

Lemma spawn_loop (sds pop : list addr) (m : @Mem Genome) (P : nat) :
  mem_wf m → sds ≠ [] → (∀ s, s ∈ sds → live m s) → length pop = P →
  ∃ m', for_each (seq 0 P) (spawn_body gen_content sds) (m, pop)
        = Some (m', seq (brk m) P)
    ∧ mem_wf m' ∧ brk m' = brk m + P ∧ deleted m' = deleted m
    ∧ (∀ q, q < brk m → cells m' !! q = cells m !! q)
    ∧ (∀ j, j < P → ∃ seed g,
         sds !! (j mod length sds) = Some seed ∧ cells m !! seed = Some g
         ∧ cells m' !! (brk m + j) = Some (gen_content (brk m + j) g)).
Proof.
  intros Hwf Hne Hlive Hlen.
  destruct (for_each_seq_total
    (λ j (mp : Mem * list addr),
       mem_wf mp.1 ∧ brk mp.1 = brk m + j ∧ deleted mp.1 = deleted m
       ∧ mp.2 = seq (brk m) j ++ drop j pop
       ∧ (∀ q, q < brk m → cells mp.1 !! q = cells m !! q)
       ∧ (∀ i, i < j → ∃ seed g,
            sds !! (i mod length sds) = Some seed ∧ cells m !! seed = Some g
            ∧ cells mp.1 !! (brk m + i) = Some (gen_content (brk m + i) g)))
    (spawn_body gen_content sds) 0 P (m, pop)) as ([m' pop'] & Hrun & HI).
  - simpl. split_and!; [done|lia|done|done|done|intros i Hi; lia].
  - intros j [m1 pop1] Hj (Hwf1 & Hbrk & Hdel & Hpop & Hold & Hnew).
    simpl in *. unfold spawn_body. simpl.
    assert (length sds ≠ 0) as Hn by by destruct sds.
    rewrite decide_False by done.
    destruct (lookup_lt_is_Some_2 sds (j mod length sds)) as [seed Hseed].
    { by apply Nat.mod_upper_bound. }
    rewrite Hseed. simpl.
    assert (live m seed) as Hl by (apply Hlive; by eapply list_elem_of_lookup_2).
    destruct Hl as [g Hg].
    assert (seed < brk m) as Hlt.
    { destruct Hwf as [_ Hwf]. apply Hwf. by exists g. }
    rewrite (Algo_gen_live gen_content m1 seed g) by by rewrite Hold.
    simpl. eexists. split; [done|]. cbn [fst snd].
    rewrite brk_spawned, deleted_spawned.
    split; [by apply mem_wf_spawned|]. split; [lia|]. split; [done|].
    split; [|split].
    + subst pop1. rewrite Hbrk.
      rewrite insert_take_drop_step by (rewrite ?length_seq; lia).
      by rewrite <-seq_S.
    + intros q Hq. rewrite lookup_spawned. rewrite decide_False by lia. by apply Hold.
    + intros i Hi. rewrite lookup_spawned.
      destruct (decide (i = j)) as [->|Hij].
      * exists seed, g. rewrite decide_True by lia. by rewrite Hbrk.
      * destruct (Hnew i) as (seed' & g' & ? & ? & ?); [lia|].
        exists seed', g'. rewrite decide_False by lia. done.
  - simpl in *. destruct HI as (Hwf' & Hbrk & Hdel & Hpop & Hold & Hnew).
    exists m'. rewrite drop_ge, app_nil_r in Hpop by lia. subst pop'.
    done.
Qed.

Lemma delete_seeds_loop (sds : list addr) (m : @Mem Genome) :
  mem_wf m → NoDup sds → (∀ s, s ∈ sds → live m s) →
  for_each (seq 0 (length sds)) delete_seed_body (m, sds)
  = Some (freed sds m, replicate (length sds) NULL).
Proof.
  intros Hwf Hnd Hlive.
  destruct (for_each_seq_total
    (λ j (ms : Mem * list addr),
       ms.1 = freed (take j sds) m
       ∧ ms.2 = replicate j NULL ++ drop j sds)
    delete_seed_body 0 (length sds) (m, sds)) as ([m' sds'] & Hrun & HI).
  - simpl. by rewrite take_0, freed_nil, drop_0.
  - intros j [m1 sds1] Hj [Hm Hs]. simpl in *. subst m1 sds1.
    unfold delete_seed_body. simpl.
    destruct (lookup_lt_is_Some_2 sds j) as [p Hp]; [lia|].
    rewrite lookup_app_r by (rewrite length_replicate; lia).
    rewrite length_replicate, Nat.sub_diag, lookup_drop, Nat.add_0_r, Hp. simpl.
    rewrite Algo_delete_live.
    + simpl. eexists. split; [done|]. simpl. split.
      * by rewrite freed_snoc, (take_S_r _ _ _ Hp).
      * rewrite insert_take_drop_step by (rewrite ?length_replicate; lia).
        by rewrite <-replicate_S_end.
    + by apply mem_wf_freed.
    + unfold live. rewrite lookup_freed. rewrite decide_False.
      * apply Hlive. by eapply list_elem_of_lookup_2.
      * intros Hin. apply list_elem_of_lookup in Hin as [i Hi].
        apply lookup_take_Some in Hi as [Hi Hij].
        pose proof (NoDup_lookup _ _ _ _ Hnd Hi Hp). lia.
  - simpl in *. destruct HI as [-> ->].
    by rewrite Hrun, firstn_all, drop_all, app_nil_r.
Qed.

End SeedingFacts.

Section BreedingFacts.
Context {Genome : Type}.
Variable gen_content : addr → Genome → Genome.
Variable process_score : Genome → Processor.Score.
Variable god : God.

Local Abbreviation P := (m_populationSize god).
Local Abbreviation k := (m_successorSize god).

(** ** Breeding *)

Lemma breed_loop (b : AlgoScore) (scs : list AlgoScore) (m : @Mem Genome) :
  mem_wf m → 0 < P → 0 < k → k ≤ length scs →
  (∀ s, s ∈ scs → live m (algo s)) →
  ∃ m', for_each (seq 1 (P - 1)) (breed_body gen_content god scs)
          (m, <[0 := algo b]> (replicate P NULL))
        = Some (m', algo b :: seq (brk m) (P - 1))
    ∧ mem_wf m' ∧ brk m' = brk m + (P - 1) ∧ deleted m' = deleted m
    ∧ (∀ q, q < brk m → cells m' !! q = cells m !! q)
    ∧ (∀ j, 1 ≤ j < P → ∃ parent g,
         scs !! (j mod k) = Some parent ∧ cells m !! algo parent = Some g
         ∧ cells m' !! (brk m + (j - 1))
           = Some (gen_content (brk m + (j - 1)) g)).
Proof.
  intros Hwf HP Hk Hlen Hlive.
  destruct (for_each_seq_total
    (λ j (mp : Mem * list addr),
       mem_wf mp.1 ∧ brk mp.1 = brk m + (j - 1) ∧ deleted mp.1 = deleted m
       ∧ mp.2 = (algo b :: seq (brk m) (j - 1)) ++ drop j (replicate P NULL)
       ∧ (∀ q, q < brk m → cells mp.1 !! q = cells m !! q)
       ∧ (∀ i, 1 ≤ i < j → ∃ parent g,
            scs !! (i mod k) = Some parent ∧ cells m !! algo parent = Some g
            ∧ cells mp.1 !! (brk m + (i - 1))
              = Some (gen_content (brk m + (i - 1)) g)))
    (breed_body gen_content god scs) 1 (P - 1)
    (m, <[0 := algo b]> (replicate P NULL))) as ([m' pop'] & Hrun & HI).
  - cbn [fst snd]. split_and!; [done|lia|done| |done|intros i Hi; lia].
    destruct P as [|n]; [lia|]. done.
  - intros j [m1 pop1] Hj (Hwf1 & Hbrk & Hdel & Hpop & Hold & Hnew).
    cbn [fst snd] in *. unfold breed_body. cbn [fst snd].
    rewrite decide_False by lia.
    destruct (lookup_lt_is_Some_2 scs (j mod k)) as [parent Hparent].
    { pose proof (Nat.mod_upper_bound j k). lia. }
    rewrite Hparent. cbn [mbind option_bind].
    assert (live m (algo parent)) as [g Hg]
      by (apply Hlive; by eapply list_elem_of_lookup_2).
    assert (algo parent < brk m) as Hlt.
    { destruct Hwf as [_ Hwf]. apply Hwf. by exists g. }
    rewrite (Algo_gen_live gen_content m1 (algo parent) g) by by rewrite Hold.
    cbn [mbind option_bind]. eexists. split; [done|]. cbn [fst snd].
    rewrite brk_spawned, deleted_spawned.
    split; [by apply mem_wf_spawned|]. split; [lia|]. split; [done|].
    split; [|split].
    + subst pop1. rewrite Hbrk.
      rewrite insert_take_drop_step;
        [|cbn [length]; rewrite length_seq; lia|rewrite length_replicate; lia].
      f_equal. replace (S j - 1) with (S (j - 1)) by lia.
      by rewrite seq_S.
    + intros q Hq. rewrite lookup_spawned. rewrite decide_False by lia. by apply Hold.
    + intros i Hi. rewrite lookup_spawned.
      destruct (decide (i = j)) as [->|Hij].
      * exists parent, g. rewrite decide_True by lia. by rewrite Hbrk.
      * destruct (Hnew i) as (parent' & g' & ? & ? & ?); [lia|].
        exists parent', g'. rewrite decide_False by lia. done.
  - cbn [fst snd] in *. destruct HI as (Hwf' & Hbrk & Hdel & Hpop & Hold & Hnew).
    replace (1 + (P - 1)) with P in * by lia.
    exists m'. rewrite drop_ge, app_nil_r in Hpop by (rewrite length_replicate; lia).
    subst pop'. done.
Qed.

Lemma replace_loop (keep : addr) (newpop pop : list addr) (m : @Mem Genome) :
  mem_wf m → length pop = P → length newpop = P → NoDup pop →
  (∀ p, p ∈ pop → live m p) →
  for_each (seq 0 P) (replace_body keep newpop) (m, pop)
  = Some (freed (filter (λ p, p ≠ keep) pop) m, newpop).
Proof.
  intros Hwf Hlen Hlen' Hnd Hlive.
  destruct (for_each_seq_total
    (λ j (mp : Mem * list addr),
       mp.1 = freed (filter (λ p, p ≠ keep) (take j pop)) m
       ∧ mp.2 = take j newpop ++ drop j pop)
    (replace_body keep newpop) 0 P (m, pop)) as ([m' pop'] & Hrun & HI).
  - cbn [fst snd]. by rewrite !take_0, filter_nil, freed_nil, drop_0.
  - intros j [m1 pop1] Hj [Hm Hs]. cbn [fst snd] in *. subst m1 pop1.
    unfold replace_body. cbn [fst snd].
    destruct (lookup_lt_is_Some_2 pop j) as [p Hp]; [lia|].
    destruct (lookup_lt_is_Some_2 newpop j) as [n Hn]; [lia|].
    rewrite lookup_app_r by (rewrite length_take; lia).
    rewrite length_take, Nat.min_l by lia.
    rewrite Nat.sub_diag, lookup_drop, Nat.add_0_r, Hp, Hn.
    cbn [mbind option_bind].
    rewrite (take_S_r _ _ _ Hp), filter_app, (take_S_r _ _ _ Hn).
    rewrite insert_take_drop_step by (rewrite ?length_take; lia).
    destruct (decide (p = keep)) as [->|Hne].
    + cbn [mbind option_bind]. eexists. split; [done|]. cbn [fst snd].
      rewrite filter_cons_False by (intros ?; done).
      by rewrite filter_nil, app_nil_r.
    + rewrite Algo_delete_live.
      * cbn [mbind option_bind]. eexists. split; [done|]. cbn [fst snd].
        rewrite filter_cons_True by done. by rewrite filter_nil, freed_snoc.
      * by apply mem_wf_freed.
      * unfold live. rewrite lookup_freed. rewrite decide_False.
        -- apply Hlive. by eapply list_elem_of_lookup_2.
        -- intros [_ Hin]%list_elem_of_filter.
           apply list_elem_of_lookup in Hin as [i Hi].
           apply lookup_take_Some in Hi as [Hi Hij].
           pose proof (NoDup_lookup _ _ _ _ Hnd Hi Hp). lia.
  - cbn [fst snd] in *. destruct HI as [-> ->].
    by rewrite Hrun, !firstn_all2, drop_ge, app_nil_r by lia.
Qed.

Lemma free_loop (keep : addr) (pop : list addr) (m : @Mem Genome) :
  mem_wf m → length pop = P → NoDup pop → (∀ p, p ∈ pop → live m p) →
  for_each (seq 0 P) (free_body keep) (m, pop)
  = Some (freed (filter (λ p, p ≠ keep) pop) m,
          (λ p, if decide (p = keep) then p else NULL) <$> pop).
Proof.
  intros Hwf Hlen Hnd Hlive.
  destruct (for_each_seq_total
    (λ j (mp : Mem * list addr),
       mp.1 = freed (filter (λ p, p ≠ keep) (take j pop)) m
       ∧ mp.2 = ((λ p, if decide (p = keep) then p else NULL) <$> take j pop)
                ++ drop j pop)
    (free_body keep) 0 P (m, pop)) as ([m' pop'] & Hrun & HI).
  - cbn [fst snd]. by rewrite !take_0, filter_nil, freed_nil, drop_0.
  - intros j [m1 pop1] Hj [Hm Hs]. cbn [fst snd] in *. subst m1 pop1.
    unfold free_body. cbn [fst snd].
    destruct (lookup_lt_is_Some_2 pop j) as [p Hp]; [lia|].
    rewrite lookup_app_r by (rewrite length_fmap, length_take; lia).
    rewrite length_fmap, length_take, Nat.min_l by lia.
    rewrite Nat.sub_diag, lookup_drop, Nat.add_0_r, Hp.
    cbn [mbind option_bind].
    rewrite (take_S_r _ _ _ Hp), filter_app, fmap_app.
    destruct (decide (p = keep)) as [->|Hne].
    + eexists. split; [done|]. cbn [fst snd].
      rewrite filter_cons_False by (intros ?; done).
      rewrite filter_nil, app_nil_r. split; [done|].
      rewrite <-app_assoc. f_equal. cbn [fmap list_fmap app].
      rewrite decide_True by done. by rewrite (drop_S _ _ _ Hp).
    + rewrite Algo_delete_live.
      * cbn [mbind option_bind]. eexists. split; [done|]. cbn [fst snd].
        rewrite filter_cons_True by done. rewrite filter_nil, freed_snoc.
        split; [done|].
        rewrite insert_take_drop_step by (rewrite ?length_fmap, ?length_take; lia).
        f_equal. f_equal. cbn [fmap list_fmap]. by rewrite decide_False.
      * by apply mem_wf_freed.
      * unfold live. rewrite lookup_freed. rewrite decide_False.
        -- apply Hlive. by eapply list_elem_of_lookup_2.
        -- intros [_ Hin]%list_elem_of_filter.
           apply list_elem_of_lookup in Hin as [i Hi].
           apply lookup_take_Some in Hi as [Hi Hij].
           pose proof (NoDup_lookup _ _ _ _ Hnd Hi Hp). lia.
  - cbn [fst snd] in *. destruct HI as [-> ->].
    by rewrite Hrun, !firstn_all2, drop_ge, app_nil_r by lia.
Qed.

End BreedingFacts.

Lemma covers_weaken (h : Heap) (x y : AlgoScore) :
  covers h x → algoScoreSort x y = false → covers h y.
Proof.
  intros (z & Hz & Hzx) Hxy. exists z. split; [done|].
  by apply algoScoreSort_negtrans with x.
Qed.

Section WorkerFacts.
Context {Genome : Type}.
Variable process_score : Genome → Processor.Score.
Variable H : AlgoScore → AlgoScore → Z.

(** ** The workers *)

Lemma Process_local_spec (k : nat) (m : @Mem Genome) (pop : list addr)
    (td : threadData) :
  stop td ≤ length pop → (∀ p, p ∈ pop → live m p) →
  ∃ w, Process_local process_score H k m pop td = Some w
    ∧ capacity (w_scores w) = k
    ∧ length (items (w_scores w)) = k `min` (stop td - start td)
    ∧ (∀ x, x ∈ w_evaluated w → evaluation_of process_score m pop x)
    ∧ (∀ i p g, start td ≤ i < stop td → pop !! i = Some p →
         cells m !! p = Some g →
         mkAlgoScore p (process_score g) ∈ w_evaluated w)
    ∧ (∀ x, x ∈ items (w_scores w) → x ∈ w_evaluated w)
    ∧ (ranks_like_sorter H → 0 < k →
         ∀ x, x ∈ w_evaluated w → covers (w_scores w) x).
Proof.
  intros Hstop Hlive. unfold Process_local.
  destruct (for_each_seq_total
    (λ i (w : Worker),
       capacity (w_scores w) = k
       ∧ length (items (w_scores w)) = k `min` (i - start td)
       ∧ (∀ x, x ∈ w_evaluated w → evaluation_of process_score m pop x)
       ∧ (∀ i' p g, start td ≤ i' < i → pop !! i' = Some p →
            cells m !! p = Some g →
            mkAlgoScore p (process_score g) ∈ w_evaluated w)
       ∧ (∀ x, x ∈ items (w_scores w) → x ∈ w_evaluated w)
       ∧ (ranks_like_sorter H → 0 < k →
            ∀ x, x ∈ w_evaluated w → covers (w_scores w) x))
    (Process_body process_score H m pop td) (start td) (stop td - start td)
    (mkWorker (mkHeap k []) 0%Qc 0%Qc [])) as (w & Hrun & HI).
  - cbn [w_scores w_evaluated capacity items length].
    split_and!; [done|lia|..].
    + by intros x ?%elem_of_nil.
    + intros i' p g Hi'. lia.
    + by intros x ?%elem_of_nil.
    + by intros _ _ x ?%elem_of_nil.
  - intros i w Hi (Hcap & Hlen & Hev & Hall & Hsub & Hcov).
    unfold Process_body.
    destruct (lookup_lt_is_Some_2 pop i) as [p Hp]; [lia|].
    rewrite Hp. cbn [mbind option_bind].
    destruct (Hlive p) as [g Hg]; [by eapply list_elem_of_lookup_2|].
    unfold process. rewrite Hg. cbn [fmap option_fmap option_map mbind option_bind].
    destruct (welford_step _ _ _ _) as [xM' xBar'].
    eexists. split; [done|]. cbn [w_scores w_evaluated].
    split_and!.
    + by rewrite capacity_Insert.
    + rewrite length_items_Insert_min by lia. lia.
    + intros x [Hx|Hx%list_elem_of_singleton]%elem_of_app; [by apply Hev|].
      subst x. exists g. split_and!; [|done..].
      by eapply list_elem_of_lookup_2.
    + intros i' p' g' Hi' Hp' Hg'. apply elem_of_app.
      destruct (decide (i' = i)) as [->|Hne].
      * right. rewrite Hp in Hp'. injection Hp' as <-.
        rewrite Hg in Hg'. injection Hg' as <-. by left.
      * left. apply (Hall i'); [lia|done..].
    + intros x [->|Hx]%elem_of_items_Insert; apply elem_of_app.
      * right. by left.
      * left. by apply Hsub.
    + intros Hr Hk x [Hx|Hx%list_elem_of_singleton]%elem_of_app.
      * apply covers_Insert_old; [done|]. by apply Hcov.
      * subst x. apply covers_Insert_new; [done|lia].
  - exists w. split; [done|].
    destruct HI as (Hcap & Hlen & Hev & Hall & Hsub & Hcov).
    split_and!; try done.
    + rewrite Hlen. lia.
    + intros i p g Hi. apply Hall. lia.
Qed.

(** ** Moving items between selectors *)

Lemma transfer_loop (k : nat) (local global : Heap) :
  k ≤ length (items local) →
  ∃ hs, for_each (seq 0 k) (transfer_body H) (local, global) = Some hs
    ∧ items hs.1 = drop k (items local)
    ∧ capacity hs.2 = capacity global
    ∧ (length (items global) ≤ capacity global →
         length (items hs.2)
         = capacity global `min` (length (items global) + k))
    ∧ (∀ y, y ∈ items hs.2 → y ∈ items global ∨ y ∈ take k (items local))
    ∧ (ranks_like_sorter H → 0 < capacity global →
         ∀ y, covers global y ∨ y ∈ take k (items local) → covers hs.2 y).
Proof.
  intros Hk.
  destruct (for_each_seq_total
    (λ j (hs : Heap * Heap),
       items hs.1 = drop j (items local)
       ∧ capacity hs.2 = capacity global
       ∧ (length (items global) ≤ capacity global →
            length (items hs.2)
            = capacity global `min` (length (items global) + j))
       ∧ (∀ y, y ∈ items hs.2 → y ∈ items global ∨ y ∈ take j (items local))
       ∧ (ranks_like_sorter H → 0 < capacity global →
            ∀ y, covers global y ∨ y ∈ take j (items local) → covers hs.2 y))
    (transfer_body H) 0 k (local, global)) as (hs & Hrun & HI).
  - cbn [fst snd]. rewrite drop_0, take_0. split_and!; [done|done|lia|..].
    + intros y Hy. by left.
    + intros _ _ y [Hy|Hy%elem_of_nil]; done.
  - intros j [l g] Hj (Hl & Hcap & Hlen & Hsub & Hcov). cbn [fst snd] in *.
    unfold transfer_body. cbn [fst snd].
    destruct (lookup_lt_is_Some_2 (items local) j) as [x Hx]; [lia|].
    assert (Pop l = Some (x, mkHeap (capacity l) (drop (S j) (items local))))
      as ->.
    { unfold Pop. by rewrite Hl, (drop_S _ _ _ Hx). }
    cbn [mbind option_bind]. eexists. split; [done|]. cbn [fst snd items].
    rewrite (take_S_r _ _ _ Hx). split_and!.
    + done.
    + by rewrite capacity_Insert.
    + intros Hle. rewrite length_items_Insert_min by lia. lia.
    + intros y [->|Hy]%elem_of_items_Insert.
      * right. apply elem_of_app. right. by left.
      * destruct (Hsub y Hy); [by left|right]. apply elem_of_app. by left.
    + intros Hr Hc y [Hy|[Hy|Hy%list_elem_of_singleton]%elem_of_app].
      * apply covers_Insert_old; [done|]. apply Hcov; auto.
      * apply covers_Insert_old; [done|]. apply Hcov; auto.
      * subst y. apply covers_Insert_new; [done|lia].
  - exists hs. split; [done|]. cbn [fst snd] in HI. done.
Qed.

Lemma transfer_short (k : nat) (local global : Heap) :
  length (items local) < k →
  for_each (seq 0 k) (transfer_body H) (local, global) = None.
Proof.
  intros Hk. set (n := length (items local)).
  replace k with (n + (k - n)) by lia. rewrite seq_app, for_each_app.
  destruct (transfer_loop n local global) as ([l g] & -> & Hl & _); [done|].
  cbn [fst] in Hl. unfold n in Hl. rewrite drop_all in Hl.
  destruct (k - n) as [|d] eqn:Hd; [lia|].
  cbn [mbind option_bind seq for_each]. unfold transfer_body. cbn [fst].
  unfold Pop. by rewrite Hl.
Qed.

(** The loop at lines 99-102 pops exactly as many items as it has turns. *)
Lemma transfer_exact (k : nat) (local global : Heap) (hs : Heap * Heap) :
  for_each (seq 0 k) (transfer_body H) (local, global) = Some hs →
  length (items hs.1) + k = length (items local).
Proof.
  intros Hrun. destruct (decide (k ≤ length (items local))) as [Hk|Hk].
  - destruct (transfer_loop k local global Hk) as (hs' & Hrun' & Hl & _).
    rewrite Hrun in Hrun'. injection Hrun' as <-.
    rewrite Hl, length_drop. lia.
  - rewrite transfer_short in Hrun by lia. done.
Qed.

End WorkerFacts.

Lemma drain_loop (k : nat) (h : Heap) (scs : list AlgoScore) :
  k ≤ length (items h) → length scs = k →
  for_each (seq 0 k) drain_body (h, scs)
  = Some (mkHeap (capacity h) (drop k (items h)), take k (items h)).
Proof.
  intros Hk Hlen.
  destruct (for_each_seq_total
    (λ j (hs : Heap * list AlgoScore),
       hs.1 = mkHeap (capacity h) (drop j (items h))
       ∧ hs.2 = take j (items h) ++ drop j scs)
    drain_body 0 k (h, scs)) as ([h' scs'] & Hrun & HI).
  - cbn [fst snd]. rewrite !drop_0, take_0. by destruct h.
  - intros j [h1 scs1] Hj [Hh Hs]. cbn [fst snd] in *. subst h1 scs1.
    unfold drain_body. cbn [fst snd].
    destruct (lookup_lt_is_Some_2 (items h) j) as [x Hx]; [lia|].
    unfold Pop. cbn [items capacity]. rewrite (drop_S _ _ _ Hx).
    cbn [mbind option_bind]. eexists. split; [done|]. cbn [fst snd].
    split; [done|].
    rewrite insert_take_drop_step by (rewrite ?length_take; lia).
    by rewrite (take_S_r _ _ _ Hx).
  - cbn [fst snd] in HI. destruct HI as [-> ->].
    by rewrite Hrun, (drop_ge scs), app_nil_r by lia.
Qed.

Lemma drain_short (k : nat) (h : Heap) (scs : list AlgoScore) :
  length (items h) < k → length scs = k →
  for_each (seq 0 k) drain_body (h, scs) = None.
Proof.
  intros Hk Hlen. set (n := length (items h)).
  replace k with (n + (k - n)) by lia. rewrite seq_app, for_each_app.
  destruct (for_each_seq_total
    (λ j (hs : Heap * list AlgoScore), items hs.1 = drop j (items h))
    drain_body 0 n (h, scs)) as ([h' scs'] & -> & HI).
  - done.
  - intros j [h1 scs1] Hj Hh. cbn [fst] in Hh. unfold drain_body. cbn [fst snd].
    destruct (lookup_lt_is_Some_2 (items h) j) as [x Hx]; [lia|].
    unfold Pop. rewrite Hh, (drop_S _ _ _ Hx).
    cbn [mbind option_bind]. eexists. split; [done|]. done.
  - cbn [fst Nat.add] in HI. unfold n in HI. rewrite drop_all in HI.
    destruct (k - n) as [|d] eqn:Hd; [lia|].
    cbn [mbind option_bind seq for_each]. unfold drain_body. cbn [fst].
    unfold Pop. by rewrite HI.
Qed.

Lemma drain_exact (k : nat) (h : Heap) (scs : list AlgoScore)
    (hs : Heap * list AlgoScore) :
  length scs = k →
  for_each (seq 0 k) drain_body (h, scs) = Some hs →
  length (items hs.1) + k = length (items h).
Proof.
  intros Hlen Hrun. destruct (decide (k ≤ length (items h))) as [Hk|Hk].
  - rewrite drain_loop in Hrun by done. injection Hrun as <-.
    cbn [fst items]. rewrite length_drop. lia.
  - rewrite drain_short in Hrun by lia. done.
Qed.

Lemma slices_cover (P T i : nat) :
  0 < T → i < P → ∃ j, j < T ∧ j * P / T ≤ i < S j * P / T.
Proof.
  intros HT Hi.
  assert (∀ n, n ≤ T → i < n * P / T → ∃ j, j < n ∧ j * P / T ≤ i < S j * P / T)
    as Hcut.
  { induction n as [|n IH]; intros Hn Hlt.
    - rewrite Nat.mul_0_l, Nat.Div0.div_0_l in Hlt. lia.
    - destruct (decide (i < n * P / T)) as [Hlt'|Hge].
      + destruct IH as (j & Hj & Hij); [lia|done|]. exists j. split; [lia|done].
      + exists n. split; [lia|]. lia. }
  apply (Hcut T); [done|]. by rewrite (Nat.mul_comm T P), Nat.div_mul by lia.
Qed.

Lemma elem_of_concat {A : Type} (x : A) (ls : list (list A)) :
  x ∈ concat ls ↔ ∃ l, l ∈ ls ∧ x ∈ l.
Proof.
  rewrite list_elem_of_In, in_concat. split.
  - intros (l & Hl & Hx). exists l. by rewrite !list_elem_of_In.
  - intros (l & Hl & Hx). exists l. by rewrite <-!list_elem_of_In.
Qed.

Section EvaluationFacts.
Context {Genome : Type}.
Variable process_score : Genome → Processor.Score.
Variable H : AlgoScore → AlgoScore → Z.
Variable god : God.

Local Abbreviation P := (m_populationSize god).
Local Abbreviation k := (m_successorSize god).

(** ** One generation's evaluation *)

Lemma lookup_threadDatas (T j : nat) :
  j < T →
  (make_threadData P T <$> seq 0 T) !! j = Some (make_threadData P T j).
Proof. intros Hj. by rewrite list_lookup_fmap, lookup_seq_lt. Qed.

Lemma workers_total (T : nat) (m : @Mem Genome) (pop : list addr) :
  is_uint (T * P) → length pop = P → (∀ p, p ∈ pop → live m p) →
  ∃ workers,
    mapM (Process_local process_score H k m pop)
      (make_threadData P T <$> seq 0 T) = Some workers
    ∧ length workers = T
    ∧ ∀ j w, workers !! j = Some w →
        j < T
        ∧ Process_local process_score H k m pop (make_threadData P T j) = Some w.
Proof.
  intros Hu Hlen Hlive.
  destruct (mapM (Process_local process_score H k m pop)
              (make_threadData P T <$> seq 0 T)) as [workers|] eqn:Hm.
  - exists workers. split; [done|]. apply mapM_Some in Hm.
    pose proof (Forall2_length _ _ _ Hm) as Hl.
    rewrite length_fmap, length_seq in Hl. split; [done|].
    intros j w Hw. pose proof (lookup_lt_Some _ _ _ Hw) as Hj.
    split; [lia|].
    destruct (Forall2_lookup_r _ _ _ _ _ Hm Hw) as (td & Htd & Hrun).
    rewrite lookup_threadDatas in Htd by lia. by injection Htd as <-.
  - exfalso. apply mapM_None in Hm. apply Exists_exists in Hm as (td & Htd & Hnone).
    apply list_elem_of_fmap in Htd as (j & -> & Hj%elem_of_seq).
    destruct (Process_local_spec process_score H k m pop (make_threadData P T j))
      as (w & Hw & _); [|done|congruence].
    rewrite make_threadData_stop by (done || lia).
    rewrite Hlen. apply slice_bounds. lia.
Qed.

Lemma evaluate_spec (T : nat) (order : list nat) (m : @Mem Genome)
    (pop : list addr) (global : Heap) :
  order ≡ₚ seq 0 T → is_uint (T * P) → length pop = P →
  (∀ p, p ∈ pop → live m p) →
  capacity global = k → items global = [] → k ≤ P / T →
  ∃ g evs, evaluate process_score H god T order m pop global = Some (g, evs)
    ∧ capacity (sh_scores g) = k
    ∧ length (items (sh_scores g)) = k `min` (T * k)
    ∧ (∀ x, x ∈ evs → evaluation_of process_score m pop x)
    ∧ (0 < T → ∀ i p g, pop !! i = Some p → cells m !! p = Some g →
         mkAlgoScore p (process_score g) ∈ evs)
    ∧ (∀ x, x ∈ items (sh_scores g) → x ∈ evs)
    ∧ (ranks_like_sorter H → 0 < k →
         ∀ x, x ∈ evs → covers (sh_scores g) x).
Proof.
  intros Hperm Hu Hlen Hlive Hcap Hempty Hk. unfold evaluate.
  destruct (workers_total T m pop Hu Hlen Hlive) as (workers & -> & HlenW & Hws).
  cbn [mbind option_bind].
  assert (∀ j w, workers !! j = Some w →
    j < T ∧ capacity (w_scores w) = k
    ∧ length (items (w_scores w)) = k
    ∧ (∀ x, x ∈ w_evaluated w → evaluation_of process_score m pop x)
    ∧ (∀ i p g, j * P / T ≤ i < S j * P / T → pop !! i = Some p →
         cells m !! p = Some g →
         mkAlgoScore p (process_score g) ∈ w_evaluated w)
    ∧ (∀ x, x ∈ items (w_scores w) → x ∈ w_evaluated w)
    ∧ (ranks_like_sorter H → 0 < k →
         ∀ x, x ∈ w_evaluated w → covers (w_scores w) x)) as Hspec.
  { intros j w Hw. destruct (Hws j w Hw) as [Hj Hrun]. split; [done|].
    pose proof (slice_bounds P T j Hj) as [Hb1 Hb2].
    destruct (Process_local_spec process_score H k m pop (make_threadData P T j))
      as (w' & Hw' & Hc & Hl & Hev & Hall & Hsub & Hcov).
    { rewrite make_threadData_stop by done. lia. }
    { done. }
    rewrite Hrun in Hw'. injection Hw' as <-.
    rewrite make_threadData_start, make_threadData_stop in * by done.
    split_and!; try done. rewrite Hl. lia. }
  destruct (for_each_list_total
    (λ done_ (g : Shared),
       capacity (sh_scores g) = k
       ∧ length (items (sh_scores g)) = k `min` (length done_ * k)
       ∧ (∀ y, y ∈ items (sh_scores g) → y ∈ concat (w_evaluated <$> workers))
       ∧ (ranks_like_sorter H → 0 < k → ∀ j w x, j ∈ done_ →
            workers !! j = Some w → x ∈ w_evaluated w →
            covers (sh_scores g) x))
    (merge_body H god (make_threadData P T <$> seq 0 T) workers) order
    (mkShared global (mkStats 0%Qc 0%Qc 0))) as (g & Hrun & HI).
  - cbn [sh_scores length]. rewrite Hempty. split_and!; [done|simpl; lia|..].
    + by intros y ?%elem_of_nil.
    + by intros _ _ j w x ?%elem_of_nil.
  - intros done_ j g Hj (Hc & Hl & Hsub & Hcov).
    rewrite Hperm in Hj. apply elem_of_seq in Hj.
    unfold merge_body. rewrite lookup_threadDatas by lia.
    destruct (lookup_lt_is_Some_2 workers j) as [w Hw]; [lia|].
    rewrite Hw. cbn [mbind option_bind]. unfold Process_merge.
    destruct (Hspec j w Hw) as (_ & Hwc & Hwl & Hwev & _ & Hwsub & Hwcov).
    destruct (transfer_loop H k (w_scores w) (sh_scores g))
      as (hs & -> & Hhs1 & Hhs2 & Hhs3 & Hhs4 & Hhs5); [lia|].
    cbn [mbind option_bind]. eexists. split; [done|]. cbn [sh_scores].
    assert (take k (items (w_scores w)) = items (w_scores w)) as Htake
      by (apply take_ge; lia).
    rewrite Htake in Hhs4, Hhs5.
    split_and!.
    + by rewrite Hhs2.
    + rewrite Hhs3 by lia. rewrite Hc, Hl, length_app. simpl. lia.
    + intros y [Hy|Hy]%Hhs4; [by apply Hsub|].
      apply elem_of_concat. exists (w_evaluated w). split; [|by apply Hwsub].
      apply list_elem_of_fmap. exists w. split; [done|].
      by eapply list_elem_of_lookup_2.
    + intros Hr Hpos j' w' x [Hj'|Hj'%list_elem_of_singleton]%elem_of_app Hw' Hx.
      * apply Hhs5; [done|lia|]. left. by eapply Hcov.
      * subst j'. rewrite Hw in Hw'. injection Hw' as <-.
        destruct (Hwcov Hr Hpos x Hx) as (z & Hz & Hzx).
        apply covers_weaken with z; [|done].
        apply Hhs5; [done|lia|]. by right.
  - rewrite Hrun. cbn [mbind option_bind]. exists g, (concat (w_evaluated <$> workers)).
    destruct HI as (Hc & Hl & Hsub & Hcov).
    split; [done|]. split_and!; try done.
    + rewrite Hl. by rewrite (Permutation_length Hperm), length_seq.
    + intros x (l & (w & -> & Hw)%list_elem_of_fmap & Hx)%elem_of_concat.
      apply list_elem_of_lookup in Hw as [j Hw].
      by apply (Hspec j w Hw).
    + intros HT i p g' Hp Hg. pose proof (lookup_lt_Some _ _ _ Hp) as Hi.
      destruct (slices_cover P T i) as (j & Hj & Hij); [done|lia|].
      destruct (lookup_lt_is_Some_2 workers j) as [w Hw]; [lia|].
      apply elem_of_concat. exists (w_evaluated w). split.
      * apply list_elem_of_fmap. exists w. split; [done|].
        by eapply list_elem_of_lookup_2.
      * destruct (Hspec j w Hw) as (_ & _ & _ & _ & Hall & _). by eapply Hall.
    + intros Hr Hpos x (l & (w & -> & Hw)%list_elem_of_fmap & Hx)%elem_of_concat.
      apply list_elem_of_lookup in Hw as [j Hw].
      apply (Hcov Hr Hpos j w x); [|done..].
      rewrite Hperm. apply elem_of_seq. apply lookup_lt_Some in Hw. lia.
Qed.

End EvaluationFacts.

Section PopulateFacts.
Context {Genome : Type}.
Variable gen_content : addr → Genome → Genome.
Variable process_score : Genome → Processor.Score.
Variable god : God.

Local Abbreviation P := (m_populationSize god).
Local Abbreviation k := (m_successorSize god).

Lemma live_below_brk (m : @Mem Genome) (p : addr) :
  mem_wf m → live m p → p < brk m.
Proof. intros [_ Hwf] Hp. by apply Hwf. Qed.

Lemma breed_spec (b : AlgoScore) (scs : list AlgoScore) (m : @Mem Genome)
    (pop : list addr) :
  mem_wf m → 0 < P → 0 < k → k ≤ length scs →
  (∀ s, s ∈ scs → live m (algo s)) →
  length pop = P → NoDup pop → (∀ p, p ∈ pop → live m p) →
  ∃ m', breed gen_content god b scs m pop
        = Some (m', algo b :: seq (brk m) (P - 1))
    ∧ mem_wf m'
    ∧ deleted m' = reverse (filter (λ p, p ≠ algo b) pop) ++ deleted m
    ∧ (∀ q, live m q → q ∉ filter (λ p, p ≠ algo b) pop →
         cells m' !! q = cells m !! q)
    ∧ (∀ j, 1 ≤ j < P → ∃ parent g,
         scs !! (j mod k) = Some parent ∧ cells m !! algo parent = Some g
         ∧ cells m !! (brk m + (j - 1)) = None
         ∧ cells m' !! (brk m + (j - 1))
           = Some (gen_content (brk m + (j - 1)) g)).
Proof.
  intros Hwf HP Hk Hlen Hscs Hpop Hnd Hlive. unfold breed.
  rewrite decide_False by lia.
  destruct (breed_loop gen_content god b scs m Hwf HP Hk Hlen Hscs)
    as (m1 & -> & Hwf1 & Hbrk & Hdel & Hold & Hnew).
  cbn [mbind option_bind fst snd].
  rewrite replace_loop; try done.
  - eexists. split; [done|]. split_and!.
    + by apply mem_wf_freed.
    + by rewrite deleted_freed, Hdel.
    + intros q Hq Hnin. rewrite lookup_freed, decide_False by done.
      apply Hold. by apply live_below_brk.
    + intros j Hj. destruct (Hnew j Hj) as (parent & g & Hp & Hg & Hc).
      exists parent, g. split_and!; [done..| |].
      * destruct (cells m !! (brk m + (j - 1))) eqn:Hc'; [|done].
        assert (live m (brk m + (j - 1))) as Hl by by eexists.
        apply live_below_brk in Hl; [lia|done].
      * rewrite lookup_freed, decide_False; [done|].
        intros [_ Hin]%list_elem_of_filter. apply Hlive in Hin.
        apply live_below_brk in Hin; [lia|done].
  - cbn [length]. rewrite length_seq. lia.
  - intros p Hp. unfold live. rewrite Hold.
    + by apply Hlive.
    + apply live_below_brk; [done|]. by apply Hlive.
Qed.

Lemma init_population_spec (m : @Mem Genome) (sds pop : list addr) :
  mem_wf m → sds ≠ [] → NoDup sds → (∀ s, s ∈ sds → live m s) →
  length pop = P →
  ∃ m', init_population gen_content god m sds pop
        = Some (m', seq (brk m) P, replicate (length sds) NULL)
    ∧ mem_wf m'
    ∧ deleted m' = reverse sds ++ deleted m
    ∧ (∀ s, s ∈ sds → cells m' !! s = None)
    ∧ (∀ j, j < P → ∃ seed g,
         sds !! (j mod length sds) = Some seed ∧ cells m !! seed = Some g
         ∧ cells m !! (brk m + j) = None
         ∧ cells m' !! (brk m + j) = Some (gen_content (brk m + j) g)).
Proof.
  intros Hwf Hne Hnd Hlive Hpop. unfold init_population.
  destruct (spawn_loop gen_content sds pop m P Hwf Hne Hlive Hpop)
    as (m1 & -> & Hwf1 & Hbrk & Hdel & Hold & Hnew).
  cbn [mbind option_bind fst snd].
  rewrite delete_seeds_loop; try done.
  - cbn [mbind option_bind fst snd]. eexists. split; [done|]. split_and!.
    + by apply mem_wf_freed.
    + by rewrite deleted_freed, Hdel.
    + intros s Hs. by rewrite lookup_freed, decide_True.
    + intros j Hj. destruct (Hnew j Hj) as (seed & g & Hp & Hg & Hc).
      exists seed, g. split_and!; [done..| |].
      * destruct (cells m !! (brk m + j)) eqn:Hc'; [|done].
        assert (live m (brk m + j)) as Hl by by eexists.
        apply live_below_brk in Hl; [lia|done].
      * rewrite lookup_freed, decide_False; [done|].
        intros Hin. apply Hlive in Hin.
        apply live_below_brk in Hin; [lia|done].
  - intros s Hs. unfold live. rewrite Hold.
    + by apply Hlive.
    + apply live_below_brk; [done|]. by apply Hlive.
Qed.

End PopulateFacts.

Lemma max_element_Some (l : list AlgoScore) (b : AlgoScore) :
  max_element algoScoreSort l = Some b →
  b ∈ l ∧ ∀ x, x ∈ l → algoScoreSort b x = false.
Proof.
  destruct l as [|a l]; [done|]. intros [= <-]. split.
  - apply max_element_from_elem.
  - intros x Hx. by apply max_element_from_max.
Qed.

Lemma max_element_is_Some (l : list AlgoScore) :
  0 < length l → is_Some (max_element algoScoreSort l).
Proof. destruct l; simpl; [lia|eauto]. Qed.

Section RunFacts.
Context {Genome : Type}.
Variable gen_content : addr → Genome → Genome.
Variable process_score : Genome → Processor.Score.
Variable schedule : nat → list nat.
Variable H : AlgoScore → AlgoScore → Z.
Variable C : list AlgoScore → nat → bool.
Variable god : God.

Local Abbreviation P := (m_populationSize god).
Local Abbreviation k := (m_successorSize god).

(** ** One generation *)

Lemma config_ok_population (T : nat) : config_ok schedule god T → 0 < P.
Proof.
  intros (HT & Hk & Hle & _). destruct (decide (P = 0)) as [H0|]; [|lia].
  rewrite H0, Nat.Div0.div_0_l in Hle. lia.
Qed.

Lemma select_spec (T i : nat) (st : State) (m1 : @Mem Genome)
    (pop1 sds1 : list addr) :
  config_ok schedule god T →
  mem_wf m1 → length pop1 = P → NoDup pop1 → (∀ p, p ∈ pop1 → live m1 p) →
  capacity (scores st) = k → length (algoscores st) = k →
  (ranks_like_sorter H → ∀ x, x ∈ evaluated st →
     ∃ j p g, pop1 !! j = Some p ∧ cells m1 !! p = Some g
       ∧ algoScoreSort (mkAlgoScore p (process_score g)) x = false) →
  ∃ st', select process_score schedule H god T i st (m1, pop1, sds1) = Some st'
    ∧ running process_score H god st'
    ∧ mem st' = m1 ∧ population st' = pop1 ∧ seeds st' = sds1.
Proof.
  intros (HT & Hk & Hle & Hu & Hsched) Hwf Hlen Hnd Hlive Hcap Hscs Hdom.
  unfold select.
  destruct (evaluate_spec process_score H god T (schedule i) m1 pop1
              (Flush (scores st)))
    as (g & evs & -> & Hgc & Hgl & Hev & Hall & Hsub & Hcov); try done.
  cbn [mbind option_bind].
  assert (length (items (sh_scores g)) = k) as Hgl' by (rewrite Hgl; nia).
  rewrite drain_loop by lia. cbn [mbind option_bind fst snd].
  rewrite take_ge by lia.
  destruct (max_element_is_Some (items (sh_scores g))) as [b Hb]; [lia|].
  rewrite Hb. cbn [mbind option_bind].
  destruct (max_element_Some _ _ Hb) as [Hbin Hbmax].
  destruct (Hev b (Hsub b Hbin)) as (gb & Hbpop & Hbg & Hbs).
  rewrite Hbg. cbn [mbind option_bind].
  eexists. split; [done|]. split; [|done].
  unfold running. cbn [mem population scores algoscores best evaluated capacity].
  split_and!; try done.
  - intros x Hx. split; [by apply Hev, Hsub|].
    apply elem_of_app. right. by apply Hsub.
  - exists b. split_and!; [done..|].
    intros Hr x [Hx|Hx]%elem_of_app.
    + destruct (Hdom Hr x Hx) as (j & p & gp & Hp & Hgp & Hpx).
      apply algoScoreSort_negtrans with (mkAlgoScore p (process_score gp));
        [|done].
      destruct (Hcov Hr Hk (mkAlgoScore p (process_score gp)))
        as (z & Hz & Hzp); [by eapply Hall|].
      apply algoScoreSort_negtrans with z; [by apply Hbmax|done].
    + destruct (Hcov Hr Hk x Hx) as (z & Hz & Hzx).
      apply algoScoreSort_negtrans with z; [by apply Hbmax|done].
Qed.

Lemma generation_first (T : nat) (st : State) :
  config_ok schedule god T → start_ok god st →
  ∃ st', generation gen_content process_score schedule H god T 1 st = Some st'
    ∧ running process_score H god st'.
Proof.
  intros Hcfg (Hwf & Hne & Hnd & Hlive & Hlen & Hcap & Hscs & Hbest & Hev).
  unfold generation, populate. rewrite decide_True by done.
  destruct (init_population_spec gen_content god (mem st) (seeds st)
              (population st)) as (m' & -> & Hwf' & _ & _ & Hnew); try done.
  cbn [mbind option_bind].
  destruct (select_spec T 1 st m' (seq (brk (mem st)) P)
              (replicate (length (seeds st)) NULL))
    as (st' & Hsel & Hrun & _); try done.
  - by rewrite length_seq.
  - apply NoDup_seq.
  - intros p [Hp1 Hp2]%elem_of_seq.
    destruct (Hnew (p - brk (mem st))) as (? & ? & _ & _ & _ & Hc); [lia|].
    replace (brk (mem st) + (p - brk (mem st))) with p in Hc by lia.
    by eexists.
  - intros _ x Hx. rewrite Hev in Hx. by apply elem_of_nil in Hx.
  - by exists st'.
Qed.

Lemma generation_next (T i : nat) (st : State) :
  config_ok schedule god T → running process_score H god st → i ≠ 1 →
  ∃ st', generation gen_content process_score schedule H god T i st = Some st'
    ∧ running process_score H god st'.
Proof.
  intros Hcfg (Hwf & Hlen & Hnd & Hlive & Hcap & Hscs & Hevs & b & Hb & Hmax & Hdom) Hi.
  pose proof (config_ok_population T Hcfg) as HP.
  pose proof Hcfg as (HT & Hk & Hle & Hu & Hsched).
  unfold generation, populate. rewrite decide_False by done.
  rewrite Hb. cbn [mbind option_bind].
  destruct (max_element_Some _ _ Hmax) as [Hbin Hbmax].
  destruct (Hevs b Hbin) as [(gb & Hbpop & Hbg & Hbs) _].
  destruct (breed_spec gen_content god b (algoscores st) (mem st)
              (population st)) as (m' & -> & Hwf' & _ & Hold & Hnew);
    try done; [lia| |].
  { intros s Hs. destruct (Hevs s Hs) as [(g & ? & Hg & _) _]. by eexists. }
  cbn [mbind option_bind fst snd].
  assert (cells m' !! algo b = Some gb) as Hbg'.
  { rewrite Hold; [done|by eexists|].
    intros [Hne _]%list_elem_of_filter. done. }
  destruct (select_spec T i st m' (algo b :: seq (brk (mem st)) (P - 1))
              (seeds st)) as (st' & Hsel & Hrun & _); try done.
  - cbn [length]. rewrite length_seq. lia.
  - apply NoDup_cons. split; [|apply NoDup_seq].
    intros [Hp1 Hp2]%elem_of_seq.
    assert (live (mem st) (algo b)) as Hl by by eexists.
    apply live_below_brk in Hl; [lia|done].
  - intros p [->|[Hp1 Hp2]%elem_of_seq]%elem_of_cons; [by eexists|].
    destruct (Hnew (p - brk (mem st) + 1)) as (? & ? & _ & _ & _ & Hc); [lia|].
    replace (brk (mem st) + (p - brk (mem st) + 1 - 1)) with p in Hc by lia.
    by eexists.
  - intros Hr x Hx. exists 0, (algo b), gb. split_and!; [done..|].
    replace (mkAlgoScore (algo b) (process_score gb)) with b
      by (destruct b; simpl in *; by subst).
    by apply Hdom.
  - by exists st'.
Qed.

(** ** The whole run *)





End RunFacts.

(** ** Termination functors *)

Lemma greedyComplete_true (successors : list AlgoScore) (stepNum : nat) :
  greedyComplete successors stepNum = true
  ↔ ∃ a, a ∈ successors ∧ asuccess a = true.
Proof.
  induction successors as [|a l IH]; simpl.
  - split; [done|]. by intros (a & ?%elem_of_nil & _).
  - destruct (asuccess a) eqn:Ha.
    + split; [|done]. intros _. exists a. split; [by left|done].
    + rewrite IH. split.
      * intros (x & Hx & Hs). exists x. split; [by right|done].
      * intros (x & [->|Hx]%elem_of_cons & Hs); [congruence|by exists x].
Qed.

Section ReportFacts.
Context {Genome : Type}.
Variable gen_content : addr → Genome → Genome.
Variable process_score : Genome → Processor.Score.
Variable schedule : nat → list nat.
Variable H : AlgoScore → AlgoScore → Z.
Variable C : list AlgoScore → nat → bool.
Variable god : God.

Local Abbreviation P := (m_populationSize god).
Local Abbreviation k := (m_successorSize god).

(** ** What a run prints *)

Lemma select_Some (T i : nat) (st st' : @State Genome)
    (mps : Mem * list addr * list addr) :
  select process_score schedule H god T i st mps = Some st' →
  ∃ mu b, reports st' = reports st
            ++ [make_report i (algoscores st') mu b (prevAvg st) (prevBest st)]
    ∧ best st' = Some b
    ∧ length (population st') = length (mps.1.2).
Proof.
  unfold select. destruct mps as [[m1 pop1] sds1].
  destruct (evaluate _ _ _ _ _ _ _ _) as [[g evs]|]; [|done].
  cbn [mbind option_bind].
  destruct (for_each _ _ _) as [hs|]; [|done]. cbn [mbind option_bind].
  destruct (max_element _ _) as [b|]; [|done]. cbn [mbind option_bind].
  destruct (cells m1 !! algo b); [|done]. cbn [mbind option_bind].
  intros [= <-]. cbn [reports algoscores best population]. eauto.
Qed.

Lemma generation_Some (T i : nat) (st st' : @State Genome) :
  generation gen_content process_score schedule H god T i st = Some st' →
  ∃ mu b, reports st' = reports st
            ++ [make_report i (algoscores st') mu b (prevAvg st) (prevBest st)]
    ∧ best st' = Some b.
Proof.
  unfold generation. destruct (populate _ _ _ _) as [mps|]; [|done].
  cbn [mbind option_bind]. intros Hsel.
  destruct (select_Some _ _ _ _ _ Hsel) as (mu & b & ? & ? & _). eauto.
Qed.

Lemma free_losers_Some (keep : addr) (st st' : @State Genome) :
  free_losers god keep st = Some st' →
  reports st' = reports st ∧ algoscores st' = algoscores st
  ∧ evaluated st' = evaluated st ∧ best st' = best st.
Proof.
  unfold free_losers. destruct (for_each _ _ _) as [mp|]; [|done].
  cbn [mbind option_bind]. by intros [= <-].
Qed.

Lemma cycles_reports (T n i : nat) (st st' : @State Genome) (w : AlgoScore) :
  cycles gen_content process_score schedule H C god T n i st = Some (w, st') →
  ∃ new, reports st' = reports st ++ new
    ∧ length new ≤ n
    ∧ (∀ j r, new !! j = Some r →
         r_generation r = i + j
         ∧ (C (r_successors r) (i + j) = true → S j = length new))
    ∧ (length new < n →
         ∃ r, last new = Some r ∧ C (r_successors r) (r_generation r) = true)
    ∧ (0 < n → ∃ mu b scs,
         new !! 0 = Some (make_report i scs mu b (prevAvg st) (prevBest st))).
Proof.
  revert i st. induction n as [|n IH]; intros i st; cbn [cycles].
  - destruct (max_element _ _) as [b|]; [|done]. cbn [mbind option_bind].
    destruct (free_losers _ _ _) as [st1|] eqn:Hfree; [|done].
    cbn [mbind option_bind]. intros [= <- <-].
    apply free_losers_Some in Hfree as (Hr & _).
    exists []. rewrite app_nil_r. split_and!; [done|done| |simpl; lia|lia].
    by intros j r ?.
  - destruct (generation _ _ _ _ _ _ _ _) as [st1|] eqn:Hgen; [|done].
    cbn [mbind option_bind].
    destruct (generation_Some _ _ _ _ Hgen) as (mu & b & Hrep & Hb).
    destruct (C (algoscores st1) i) eqn:HC.
    + rewrite Hb. cbn [mbind option_bind].
      destruct (free_losers _ _ _) as [st2|] eqn:Hfree; [|done].
      cbn [mbind option_bind]. intros [= <- <-].
      apply free_losers_Some in Hfree as (Hr & _). rewrite Hr, Hrep.
      eexists [_]. split_and!; [done|simpl; lia|..].
      * intros [|j] r; [|done]. intros [= <-]. cbn [r_generation make_report].
        split; [lia|done].
      * intros _. eexists. split; [done|].
        cbn [r_successors r_generation make_report]. done.
      * intros _. by eexists _, _, _.
    + intros Hrest. destruct (IH _ _ Hrest) as (new & Hnew & Hlen & Hlook & Hlast & _).
      eexists (_ :: new). split_and!.
      * by rewrite Hnew, Hrep, <-app_assoc.
      * simpl. lia.
      * intros [|j] r.
        -- intros [= <-]. cbn [r_generation r_successors make_report].
           split; [lia|]. rewrite Nat.add_0_r. congruence.
        -- cbn [lookup list_lookup]. intros Hr.
           destruct (Hlook j r Hr) as [Hg Hc].
           replace (i + S j) with (S i + j) by lia. split; [done|].
           intros HCr. simpl. f_equal. by apply Hc.
      * simpl. intros Hlt. destruct Hlast as (r & Hr & HCr); [lia|].
        exists r. split; [|done]. destruct new; [done|]. done.
      * intros _. by eexists _, _, _.
Qed.

Lemma fdiv_zero (a : Qc) : fdiv a 0 = None.
Proof. unfold fdiv. by rewrite decide_True. Qed.

(** The first report of a run divides by the zero-initialised [prevAvg] and
    [prevBest]. *)
Lemma first_report_undefined (m : @Mem Genome) (w : AlgoScore)
    (st : @State Genome) :
  simulate gen_content process_score schedule H C god m = Some (w, st) →
  0 < m_numCycles god →
  ∃ r, reports st !! 0 = Some r ∧ r_generation r = 1
    ∧ r_avg_change r = None ∧ r_best_change r = None.
Proof.
  unfold simulate. destruct (numThreads _ _ _) as [T|]; [|done].
  cbn [mbind option_bind]. intros Hrun Hn.
  destruct (cycles_reports _ _ _ _ _ _ Hrun) as (new & Hnew & _ & _ & _ & Hfirst).
  destruct (Hfirst Hn) as (mu & b & scs & H0).
  cbn [reports prevAvg prevBest app] in Hnew, H0. rewrite Hnew, H0.
  eexists. split; [done|]. cbn [r_generation r_avg_change r_best_change make_report].
  by rewrite !fdiv_zero.
Qed.

End ReportFacts.

Section LengthFacts.
Context {Genome : Type}.
Variable gen_content : addr → Genome → Genome.
Variable process_score : Genome → Processor.Score.
Variable schedule : nat → list nat.
Variable H : AlgoScore → AlgoScore → Z.
Variable C : list AlgoScore → nat → bool.
Variable god : God.

Local Abbreviation P := (m_populationSize god).
Local Abbreviation k := (m_successorSize god).

(** ** Underfilled selectors *)

Lemma evaluate_short (T : nat) (order : list nat) (m : @Mem Genome)
    (pop : list addr) (global : Heap) :
  order ≡ₚ seq 0 T → is_uint (T * P) → length pop = P →
  (∀ p, p ∈ pop → live m p) →
  0 < T → P / T < k →
  evaluate process_score H god T order m pop global = None.
Proof.
  intros Hperm Hu Hlen Hlive HT Hk. unfold evaluate.
  destruct (workers_total process_score H god T m pop Hu Hlen Hlive)
    as (workers & -> & HlenW & Hws).
  cbn [mbind option_bind].
  rewrite (for_each_stuck _ order 0); [done| |].
  - rewrite Hperm. apply elem_of_seq. lia.
  - intros g. unfold merge_body. rewrite lookup_threadDatas by done.
    destruct (lookup_lt_is_Some_2 workers 0) as [w Hw]; [lia|].
    rewrite Hw. cbn [mbind option_bind]. unfold Process_merge.
    destruct (Hws 0 w Hw) as [_ Hrun].
    destruct (Process_local_spec process_score H k m pop (make_threadData P T 0))
      as (w' & Hw' & _ & Hl & _).
    { rewrite make_threadData_stop by done. rewrite Hlen.
      by apply slice_bounds. }
    { done. }
    rewrite Hrun in Hw'. injection Hw' as <-.
    rewrite slice_zero_length in Hl by done.
    rewrite transfer_short; [done|lia].
Qed.

Lemma evaluate_no_thread (order : list nat) (m : @Mem Genome)
    (pop : list addr) (global : Heap) :
  order ≡ₚ seq 0 0 →
  evaluate process_score H god 0 order m pop global
  = Some (mkShared global (mkStats 0%Qc 0%Qc 0), []).
Proof. intros ->%Permutation_nil_r. done. Qed.

(** ** Population length *)

Lemma for_each_length (body : nat → @Mem Genome * list addr → option (Mem * list addr))
    (js : list nat) (mp mp' : Mem * list addr) :
  (∀ j s s', body j s = Some s' → length s'.2 = length s.2) →
  for_each js body mp = Some mp' → length mp'.2 = length mp.2.
Proof.
  intros Hbody. revert mp. induction js as [|j js IH]; intros mp; simpl.
  - by intros [= <-].
  - destruct (body j mp) as [s|] eqn:Hb; [simpl|done]. intros Hrest.
    rewrite (IH _ Hrest). by eapply Hbody.
Qed.

Lemma populate_length (i : nat) (st : @State Genome)
    (mps : Mem * list addr * list addr) :
  populate gen_content god i st = Some mps →
  length (mps.1.2) = length (population st).
Proof.
  unfold populate. case_decide.
  - unfold init_population.
    destruct (for_each _ (spawn_body _ _) _) as [mp|] eqn:Hsp; [|done].
    cbn [mbind option_bind].
    destruct (for_each _ delete_seed_body _) as [ms|]; [|done].
    cbn [mbind option_bind]. intros [= <-]. cbn [fst snd].
    apply for_each_length in Hsp; [done|].
    intros j s s'. unfold spawn_body. case_decide; [done|].
    destruct (_ !! _); [|done]. cbn [mbind option_bind].
    destruct (Algo_gen _ _ _) as [[a' m']|]; [|done]. cbn [mbind option_bind].
    intros [= <-]. cbn [snd]. apply length_insert.
  - destruct (best st) as [b|]; [|done]. cbn [mbind option_bind].
    unfold breed. case_decide; [done|].
    destruct (for_each _ (breed_body _ _ _) _) as [mn|]; [|done].
    cbn [mbind option_bind].
    destruct (for_each _ (replace_body _ _) _) as [mp|] eqn:Hrep; [|done].
    cbn [mbind option_bind]. intros [= <-]. cbn [fst snd].
    apply for_each_length in Hrep; [done|].
    intros j s s'. unfold replace_body.
    destruct (s.2 !! j) as [p|]; [|done]. cbn [mbind option_bind].
    destruct (if decide (p = algo b) then _ else _); [|done].
    cbn [mbind option_bind].
    destruct (_ !! j); [|done]. cbn [mbind option_bind].
    intros [= <-]. cbn [snd]. apply length_insert.
Qed.

Lemma generation_length (T i : nat) (st st' : @State Genome) :
  generation gen_content process_score schedule H god T i st = Some st' →
  length (population st') = length (population st).
Proof.
  unfold generation. destruct (populate _ _ _ _) as [mps|] eqn:Hpop; [|done].
  cbn [mbind option_bind]. intros Hsel.
  apply select_Some in Hsel as (_ & _ & _ & _ & ->).
  by apply populate_length in Hpop.
Qed.

End LengthFacts.

(** ** The statistics of a generation *)

Lemma welford_from_snoc (n : nat) (xs : list Qc) (x xM xBar : Qc) :
  welford_from n (xs ++ [x]) xM xBar
  = (let '(xM', xBar') := welford_from n xs xM xBar in
     welford_step (S (n + length xs)) x xM' xBar').
Proof.
  revert n xM xBar. induction xs as [|y xs IH]; intros n xM xBar.
  - cbn [app length welford_from]. rewrite Nat.add_0_r.
    by destruct (welford_step _ _ _ _).
  - cbn [app length welford_from].
    destruct (welford_step (S n) y xM xBar) as [xM1 xBar1].
    rewrite IH. by replace (S n + length xs) with (n + S (length xs)) by lia.
Qed.

Section StatisticsFacts.
Context {Genome : Type}.
Variable process_score : Genome → Processor.Score.
Variable H : AlgoScore → AlgoScore → Z.
Variable god : God.

Local Abbreviation P := (m_populationSize god).
Local Abbreviation k := (m_successorSize god).

Lemma Process_local_stats (m : @Mem Genome) (pop : list addr)
    (td : threadData) (w : Worker) :
  Process_local process_score H k m pop td = Some w →
  length (w_evaluated w) = stop td - start td
  ∧ Process_stats (ascore <$> w_evaluated w)
    = mkStats (xM w) (xBar w) (stop td - start td).
Proof.
  unfold Process_local. intros Hrun.
  assert (length (w_evaluated w) = start td + (stop td - start td) - start td
          ∧ welford_from 0 (ascore <$> w_evaluated w) 0%Qc 0%Qc = (xM w, xBar w))
    as [Hlen Hw]; [|].
  { eapply (for_each_seq_post
      (λ i (w : Worker),
         length (w_evaluated w) = i - start td
         ∧ welford_from 0 (ascore <$> w_evaluated w) 0%Qc 0%Qc
           = (xM w, xBar w))); [| |exact Hrun].
    - cbn [w_evaluated xM xBar length]. split; [lia|done].
    - intros i v v' Hi [Hlen Hv]. unfold Process_body.
      destruct (pop !! i) as [p|]; [|done]. cbn [mbind option_bind].
      destruct (process _ _ _) as [sc|]; [|done]. cbn [mbind option_bind].
      destruct (welford_step _ _ _ _) as [xM' xBar'] eqn:Hstep.
      intros [= <-]. cbn [w_evaluated xM xBar]. split.
      + rewrite length_app. simpl. lia.
      + rewrite fmap_app. cbn [fmap list_fmap].
        rewrite welford_from_snoc, Hv, length_fmap, Hlen. cbn [Nat.add].
        replace (S (i - start td)) with (i - start td + 1) by lia. done. }
  replace (start td + (stop td - start td) - start td)
    with (stop td - start td) in Hlen by lia.
  split; [done|]. unfold Process_stats. by rewrite Hw, length_fmap, Hlen.
Qed.

Lemma slices_length (T n : nat) (ls : list (list AlgoScore)) :
  n ≤ T → length ls = n →
  (∀ j l, ls !! j = Some l → length l = S j * P / T - j * P / T) →
  length (concat ls) = n * P / T.
Proof.
  intros Hn. revert ls. induction n as [|n IH]; intros ls Hlen Hls.
  - destruct ls; [|done]. by rewrite Nat.mul_0_l, Nat.Div0.div_0_l.
  - destruct (decide (ls = [])) as [->|Hne]; [done|].
    destruct (exists_last Hne) as (ls' & l & ->).
    rewrite length_app in Hlen. cbn [length] in Hlen.
    rewrite concat_app, length_app. cbn [concat]. rewrite app_nil_r.
    rewrite (IH ltac:(lia) ls'); [|lia|].
    + rewrite (Hls n l) by (rewrite lookup_app_r by lia;
                             by replace (n - length ls') with 0 by lia).
      pose proof (slice_bounds P T n ltac:(lia)) as [Hb _]. lia.
    + intros j l' Hl'. apply Hls. by apply lookup_app_l_Some.
Qed.

(** The global statistics a generation ends with are those of all the
    scores it evaluated. *)
Lemma evaluate_stats (T : nat) (order : list nat) (m : @Mem Genome)
    (pop : list addr) (global : Heap) (g : Shared) (evs : list AlgoScore) :
  order ≡ₚ seq 0 T → is_uint (T * P) → 0 < T → length pop = P →
  evaluate process_score H god T order m pop global = Some (g, evs) →
  length evs = P ∧ sh_stats g = stats_of (ascore <$> evs).
Proof.
  intros Hperm Hu HT Hlen. unfold evaluate.
  destruct (mapM _ _) as [workers|] eqn:Hm; [|done]. cbn [mbind option_bind].
  apply mapM_Some in Hm.
  pose proof (Forall2_length _ _ _ Hm) as HlenW.
  rewrite length_fmap, length_seq in HlenW.
  assert (∀ j w, workers !! j = Some w →
    j < T
    ∧ length (w_evaluated w) = S j * P / T - j * P / T
    ∧ Process_stats (ascore <$> w_evaluated w)
      = mkStats (xM w) (xBar w)
          (uint_sub (stop (make_threadData P T j)) (start (make_threadData P T j))))
    as Hws.
  { intros j w Hw. pose proof (lookup_lt_Some _ _ _ Hw) as Hj.
    split; [lia|].
    destruct (Forall2_lookup_r _ _ _ _ _ Hm Hw) as (td & Htd & Hrun).
    rewrite lookup_threadDatas in Htd by lia. injection Htd as <-.
    apply Process_local_stats in Hrun as [Hl Hs].
    rewrite make_threadData_start, make_threadData_stop in * by (done || lia).
    split; [done|]. rewrite Hs. f_equal.
    pose proof (slice_bounds P T j).
    rewrite uint_sub_small; [done|lia|].
    eapply is_uint_le, Hu. nia. }
  assert (length (concat (w_evaluated <$> workers)) = P) as Hall.
  { rewrite (slices_length T T); [|done|by rewrite length_fmap|].
    - by rewrite (Nat.mul_comm T P), Nat.div_mul by lia.
    - intros j l (w & -> & Hw)%list_lookup_fmap_Some. by apply Hws. }
  destruct (for_each _ _ _) as [g'|] eqn:Hmerge; [|done].
  cbn [mbind option_bind]. intros [= <- <-]. split; [done|].
  set (slice := λ j, from_option (λ w, ascore <$> w_evaluated w) [] (workers !! j)).
  assert (sh_stats g'
          = foldl merge_stats (mkStats 0%Qc 0%Qc 0)
              (Process_stats <$> (slice <$> order))) as Hg.
  { eapply (for_each_list_post
      (λ done_ (g : Shared),
         sh_stats g = foldl merge_stats (mkStats 0%Qc 0%Qc 0)
                        (Process_stats <$> (slice <$> done_))));
      [| |exact Hmerge]; [reflexivity|].
    intros done_ j s s' Hj Hs. unfold merge_body.
    destruct ((make_threadData P T <$> seq 0 T) !! j) as [td|] eqn:Htd;
      [|done].
    cbn [mbind option_bind].
    destruct (workers !! j) as [w|] eqn:Hw; [|done]. cbn [mbind option_bind].
    unfold Process_merge.
    destruct (for_each (seq 0 k) _ _) as [hs|]; [|done].
    cbn [mbind option_bind]. intros [= <-]. cbn [sh_stats].
    rewrite !fmap_app, foldl_app. cbn [fmap list_fmap foldl]. rewrite <-Hs.
    f_equal. unfold slice. rewrite Hw. cbn [from_option].
    destruct (Hws j w Hw) as (Hj' & _ & ->).
    rewrite lookup_threadDatas in Htd by done. by injection Htd as <-. }
  rewrite Hg.
  assert (concat (slice <$> seq 0 T) = ascore <$> concat (w_evaluated <$> workers))
    as Hcat.
  { rewrite HlenW. unfold slice. clear. induction workers as [|w ws IH] using rev_ind.
    - done.
    - rewrite length_app. cbn [length]. rewrite Nat.add_1_r, seq_S, !fmap_app.
      rewrite !concat_app, fmap_app. cbn [Nat.add fmap list_fmap concat].
      rewrite !app_nil_r. f_equal.
      + rewrite <-IH. f_equal. apply list_fmap_ext.
        intros i j [-> Hj]%lookup_seq. by rewrite lookup_app_l by lia.
      + by rewrite list_lookup_middle. }
  rewrite <-stats_of_nil, foldl_merge_stats.
  - cbn [app]. rewrite <-Hcat. apply stats_of_perm. by rewrite Hperm.
  - cbn [length Nat.add].
    assert (concat (slice <$> order) ≡ₚ concat (slice <$> seq 0 T)) as Hc
      by by rewrite Hperm.
    rewrite (Permutation_length Hc), Hcat, length_fmap, Hall.
    eapply is_uint_le, Hu. nia.
Qed.

End StatisticsFacts.

Section EliteFacts.
Context {Genome : Type}.
Variable gen_content : addr → Genome → Genome.
Variable process_score : Genome → Processor.Score.
Variable schedule : nat → list nat.
Variable H : AlgoScore → AlgoScore → Z.
Variable god : God.

Local Abbreviation P := (m_populationSize god).
Local Abbreviation k := (m_successorSize god).

(** ** The elite slot *)

Lemma breed_elite_slot (b : AlgoScore) (scs : list AlgoScore) (m m' : @Mem Genome)
    (pop pop' : list addr) :
  breed gen_content god b scs m pop = Some (m', pop') →
  pop' !! 0 = Some (algo b).
Proof.
  unfold breed. case_decide as HP; [done|].
  destruct (for_each _ (breed_body _ _ _) _) as [mn|] eqn:Hbreed; [|done].
  cbn [mbind option_bind]. intros Hrep.
  assert (mn.2 !! 0 = Some (algo b)) as Hnew.
  { replace P with (1 + (P - 1)) in Hbreed at 2 by lia.
    eapply (for_each_seq_post
      (λ j (mp : Mem * list addr), mp.2 !! 0 = Some (algo b))); [| |exact Hbreed].
    - cbn [snd]. apply list_lookup_insert_eq. rewrite length_replicate. lia.
    - intros j mp mp' Hj Hmp. unfold breed_body. case_decide; [done|].
      destruct (scs !! _); [|done]. cbn [mbind option_bind].
      destruct (Algo_gen _ _ _) as [[a' m1]|]; [|done]. cbn [mbind option_bind].
      intros [= <-]. cbn [snd]. rewrite list_lookup_insert_ne by lia. done. }
  destruct P as [|n] eqn:HPn; [done|]. cbn [seq for_each] in Hrep.
  destruct (replace_body (algo b) mn.2 0 (mn.1, pop)) as [mp0|] eqn:H0; [|done].
  cbn [mbind option_bind] in Hrep.
  assert (mp0.2 !! 0 = Some (algo b)) as Hmp0.
  { revert H0. unfold replace_body. cbn [fst snd].
    destruct (pop !! 0) as [p|] eqn:Hp; [|done]. cbn [mbind option_bind].
    destruct (if decide (p = algo b) then _ else _); [|done].
    cbn [mbind option_bind]. rewrite Hnew. cbn [mbind option_bind].
    intros [= <-]. cbn [snd]. apply list_lookup_insert_eq.
    by apply lookup_lt_Some in Hp. }
  change (mp0.2 !! 0 = Some (algo b)) in Hmp0.
  eapply (for_each_seq_post
    (λ j (mp : Mem * list addr), mp.2 !! 0 = Some (algo b)) _ 1 n mp0 (m', pop'));
    [done| |exact Hrep].
  intros j mp mp' Hj Hmp. unfold replace_body.
  destruct (mp.2 !! j); [|done]. cbn [mbind option_bind].
  destruct (if decide (_ = algo b) then _ else _); [|done].
  cbn [mbind option_bind]. destruct (mn.2 !! j); [|done].
  cbn [mbind option_bind]. intros [= <-]. cbn [snd].
  rewrite list_lookup_insert_ne by lia. done.
Qed.

(** In every generation after the first, slot 0 of the population that is
    evaluated is the previous generation's [best->algo]. *)
Lemma generation_elite_slot (T i : nat) (st st' : @State Genome) :
  i ≠ 1 →
  generation gen_content process_score schedule H god T i st = Some st' →
  ∃ b, best st = Some b ∧ population st' !! 0 = Some (algo b).
Proof.
  intros Hi. unfold generation, populate. rewrite decide_False by done.
  destruct (best st) as [b|]; [|done]. cbn [mbind option_bind].
  destruct (breed _ _ _ _ _ _) as [[m' pop']|] eqn:Hbreed; [|done].
  cbn [mbind option_bind fst snd]. intros Hsel. exists b. split; [done|].
  apply breed_elite_slot in Hbreed.
  revert Hsel. unfold select.
  destruct (evaluate _ _ _ _ _ _ _ _) as [[g evs]|]; [|done].
  cbn [mbind option_bind].
  destruct (for_each _ _ _) as [hs|]; [|done]. cbn [mbind option_bind].
  destruct (max_element _ _) as [b'|]; [|done]. cbn [mbind option_bind].
  destruct (cells m' !! algo b'); [|done]. cbn [mbind option_bind].
  by intros [= <-].
Qed.

End EliteFacts.

(** ** The modelled selector keeps its items best first *)

Section SelectorOrder.
Variable H : AlgoScore → AlgoScore → Z.

Hypothesis better_asym : ∀ x y, (H x y <? 0)%Z = true → (H y x <? 0)%Z = false.
Hypothesis better_negtrans : ∀ x y z,
  (H x y <? 0)%Z = false → (H y z <? 0)%Z = false → (H x z <? 0)%Z = false.

Lemma insert_sorted_best_first (x : AlgoScore) (l : list AlgoScore) :
  best_first H l → best_first H (insert_sorted H x l).
Proof.
  unfold best_first. induction 1 as [|y l Hl IH Hy]; cbn [insert_sorted].
  - repeat constructor.
  - destruct (H x y <? 0)%Z eqn:Hxy.
    + constructor; [by constructor|]. constructor; [by apply better_asym|].
      eapply Forall_impl; [exact Hy|]. intros z Hz. cbn beta in *.
      apply better_negtrans with y; [done|by apply better_asym].
    + constructor; [done|].
      rewrite insert_sorted_perm. by constructor.
Qed.

Lemma removelast_best_first (l : list AlgoScore) :
  best_first H l → best_first H (removelast l).
Proof.
  unfold best_first. induction 1 as [|y l Hl IH Hy]; [constructor|].
  cbn [removelast]. destruct l as [|z l]; [constructor|].
  constructor; [done|].
  apply Forall_forall. intros u Hu. rewrite Forall_forall in Hy. apply Hy.
  destruct (last (z :: l)) as [w|] eqn:Hw.
  - rewrite (last_removelast _ _ Hw). apply elem_of_app. by left.
  - by apply last_None in Hw.
Qed.

Lemma Insert_best_first (h : Heap) (x : AlgoScore) :
  best_first H (items h) → best_first H (items (Insert H h x)).
Proof.
  intros Hs. unfold Insert. case_decide; cbn [items].
  - by apply insert_sorted_best_first.
  - destruct (last (items h)); [|done].
    destruct (H x a <? 0)%Z; [|done]. cbn [items].
    by apply insert_sorted_best_first, removelast_best_first.
Qed.

(** [Pop] hands out an item that no retained item beats. *)
Lemma Pop_best (h h' : Heap) (b : AlgoScore) :
  best_first H (items h) → Pop h = Some (b, h') →
  best_first H (items h') ∧ ∀ y, y ∈ items h' → (H y b <? 0)%Z = false.
Proof.
  intros Hs [Hitems _]%Pop_Some. rewrite Hitems in Hs.
  apply StronglySorted_inv in Hs as [Hs Hb]. split; [done|].
  intros y Hy. rewrite Forall_forall in Hb. by apply Hb.
Qed.

End SelectorOrder.

Lemma minScoreHeap_asym (x y : AlgoScore) :
  (minScoreHeap x y <? 0)%Z = true → (minScoreHeap y x <? 0)%Z = false.
Proof.
  unfold minScoreHeap.
  destruct (asuccess x), (asuccess y); cbn [negb andb]; try done.
  all: repeat case_bool_decide; try done.
  all: by destruct (Qclt_asym (ascore x) (ascore y)).
Qed.

Lemma minScoreHeap_negtrans (x y z : AlgoScore) :
  (minScoreHeap x y <? 0)%Z = false → (minScoreHeap y z <? 0)%Z = false →
  (minScoreHeap x z <? 0)%Z = false.
Proof.
  unfold minScoreHeap.
  destruct (asuccess x), (asuccess y), (asuccess z); cbn [negb andb]; try done.
  all: repeat case_bool_decide; try done.
  all: unfold Qclt in *; lra.
Qed.

Lemma maxScoreHeap_asym (x y : AlgoScore) :
  (maxScoreHeap x y <? 0)%Z = true → (maxScoreHeap y x <? 0)%Z = false.
Proof.
  unfold maxScoreHeap.
  destruct (asuccess x), (asuccess y); cbn [negb andb]; try done.
  all: repeat case_bool_decide; try done.
  all: by destruct (Qclt_asym (ascore x) (ascore y)).
Qed.

Lemma maxScoreHeap_negtrans (x y z : AlgoScore) :
  (maxScoreHeap x y <? 0)%Z = false → (maxScoreHeap y z <? 0)%Z = false →
  (maxScoreHeap x z <? 0)%Z = false.
Proof.
  unfold maxScoreHeap.
  destruct (asuccess x), (asuccess y), (asuccess z); cbn [negb andb]; try done.
  all: repeat case_bool_decide; try done.
  all: unfold Qclt in *; lra.
Qed.

(** ** The modelled selector on the scenario of the specification *)

(** A minimising selector of capacity 2 that receives the scores
    (true, 3), (true, 1), (false, 0), (true, 2) drains as (true, 1),
    (true, 2). *)
Example minimising_selector_scenario :
  let item a s v := mkAlgoScore a (Processor.mkScore s (Qc_of_nat v)) in
  let h := foldl (Insert minScoreHeap) (mkHeap 2 [])
             [item 1 true 3; item 2 true 1; item 3 false 0; item 4 true 2] in
  items h = [item 2 true 1; item 4 true 2].
Proof. reflexivity. Qed.

(** ** The loop counter *)


Section CounterFacts.
Context {Genome : Type}.
Variable gen_content : addr → Genome → Genome.
Variable process_score : Genome → Processor.Score.
Variable schedule : nat → list nat.
Variable H : AlgoScore → AlgoScore → Z.
Variable C : list AlgoScore → nat → bool.
Variable god : God.










End CounterFacts.

(** * The claims about the engine *)

Lemma demo_mem_wf : mem_wf demo_mem.
Proof.
  split; [simpl; lia|]. intros p [g Hp]. simpl in Hp.
  apply lookup_singleton_Some in Hp as [<- _]. simpl. lia.
Qed.

Lemma demo_seeds_live (s : addr) : s ∈ m_seeds demo_god → live demo_mem s.
Proof. intros ->%list_elem_of_singleton. by exists 0. Qed.

Lemma demo_config_ok : config_ok demo_schedule demo_god 1.
Proof.
  unfold config_ok, is_uint, UINT_MOD. simpl. split_and!; try lia; done.
Qed.

Lemma lucky_config_ok : config_ok demo_schedule lucky_god 1.
Proof.
  unfold config_ok, is_uint, UINT_MOD. simpl. split_and!; try lia; done.
Qed.

Section Claims.
Context {Genome : Type}.
Variable gen_content : addr → Genome → Genome.
Variable process_score : Genome → Processor.Score.
Variable schedule : nat → list nat.


End Claims.



(** C4 (the code departs from it). In the run of [demo_god] the report of
    generation 1 holds no number for the change of the mean and of the best
    since the previous generation: both divide by the zero the previous
    values start at, and nothing guards the division. *)
Theorem first_generation_divides_by_zero :
  ∃ w st r, simulate demo_gen demo_score demo_schedule minScoreHeap
              patientComplete demo_god demo_mem = Some (w, st)
    ∧ reports st !! 0 = Some r ∧ r_generation r = 1
    ∧ r_avg_change r = None ∧ r_best_change r = None.
Proof.
  destruct (simulate demo_gen demo_score demo_schedule minScoreHeap
              patientComplete demo_god demo_mem) as [[w st]|] eqn:Hrun;
    [|by vm_compute in Hrun].
  destruct (first_report_undefined _ _ _ _ _ _ _ _ _ Hrun) as (r & Hr);
    [simpl; lia|].
  by exists w, st, r.
Qed.

Section MoreClaims.
Context {Genome : Type}.
Variable gen_content : addr → Genome → Genome.
Variable process_score : Genome → Processor.Score.
Variable schedule : nat → list nat.
Variable H : AlgoScore → AlgoScore → Z.
Variable god : God.

Local Abbreviation P := (m_populationSize god).
Local Abbreviation k := (m_successorSize god).

(** C5. Breeding from a population of distinct live individuals returns a
    population of [m_populationSize] slots whose slot 0 is the very object
    [best->algo], with the content it had; that object is not among those
    destroyed while the old population is freed; every other slot [j] holds
    a fresh object derived from [algoscores[j mod m_successorSize]]. A
    generation leaves the population length unchanged, and every generation
    after the first evaluates a population whose slot 0 is the [best->algo]
    of the generation before. *)
Theorem elitism (b : AlgoScore) (scs : list AlgoScore) (m : @Mem Genome)
    (pop : list addr) :
  mem_wf m → 0 < P → 0 < k → length scs = k →
  (∀ s, s ∈ scs → live m (algo s)) →
  length pop = P → NoDup pop → (∀ p, p ∈ pop → live m p) →
  live m (algo b) →
  (∃ m' pop', breed gen_content god b scs m pop = Some (m', pop')
     ∧ length pop' = P
     ∧ pop' !! 0 = Some (algo b)
     ∧ cells m' !! algo b = cells m !! algo b
     ∧ (∃ dl, deleted m' = dl ++ deleted m ∧ algo b ∉ dl)
     ∧ (∀ j, 1 ≤ j < P → ∃ a parent g,
          pop' !! j = Some a ∧ scs !! (j mod k) = Some parent
          ∧ cells m !! algo parent = Some g
          ∧ cells m !! a = None
          ∧ cells m' !! a = Some (gen_content a g)))
  ∧ (∀ T i st st',
       generation gen_content process_score schedule H god T i st = Some st' →
       (length (population st) = P → length (population st') = P)
       ∧ (i ≠ 1 →
            ∃ b', best st = Some b' ∧ population st' !! 0 = Some (algo b'))).
Proof.
  intros Hwf HP Hk Hlen Hscs Hpop Hnd Hlive Hb. split.
  - destruct (breed_spec gen_content god b scs m pop)
      as (m' & Hrun & Hwf' & Hdel & Hold & Hnew); try done; [lia|].
    exists m', (algo b :: seq (brk m) (P - 1)). split_and!; [done| |done|..].
    + cbn [length]. rewrite length_seq. lia.
    + apply Hold; [done|]. by intros [Hne _]%list_elem_of_filter.
    + eexists. split; [done|].
      rewrite elem_of_reverse. by intros [Hne _]%list_elem_of_filter.
    + intros j Hj. destruct (Hnew j Hj) as (parent & g & Hp & Hg & Hfresh & Hc).
      exists (brk m + (j - 1)), parent, g. split_and!; [|done..].
      destruct j as [|j]; [lia|]. cbn [lookup list_lookup].
      rewrite lookup_seq. split; [f_equal|]; lia.
  - intros T i st st' Hgen. split.
    + intros <-. by eapply generation_length.
    + intros Hi. by eapply generation_elite_slot.
Qed.

(** C6. In every generation the element [simulate] takes as the best (line
    298) is the [std::max_element] under [algoScoreSort] of the successor
    set just drained from the global selector (lines 294-297): it is a
    member of that set which no member outranks, so that it is a success as
    soon as the set holds one and, among the members of its own success
    flag, has the highest value; under [algoScoreSort] a success outranks
    every failure and, between equal success flags, the higher value
    outranks the lower. *)
Theorem best_is_maximum_of_successors (T i : nat) (st st' : @State Genome) :
  generation gen_content process_score schedule H god T i st = Some st' →
  ∃ b m1 pop1 sds1 g evs,
    populate gen_content god i st = Some (m1, pop1, sds1)
    ∧ evaluate process_score H god T (schedule i) m1 pop1 (Flush (scores st))
      = Some (g, evs)
    ∧ for_each (seq 0 k) drain_body (sh_scores g, algoscores st)
      = Some (scores st', algoscores st')
    ∧ best st' = Some b
    ∧ max_element algoScoreSort (algoscores st') = Some b
    ∧ b ∈ algoscores st'
    ∧ (∀ x, x ∈ algoscores st' →
         algoScoreSort b x = false
         ∧ (asuccess x = true → asuccess b = true)
         ∧ (asuccess x = asuccess b → (ascore x ≤ ascore b)%Qc))
    ∧ (∀ x y, asuccess x = false → asuccess y = true →
         algoScoreSort x y = true ∧ algoScoreSort y x = false)
    ∧ (∀ x y, asuccess x = asuccess y →
         (algoScoreSort x y = true ↔ (ascore x < ascore y)%Qc)).
Proof.
  unfold generation.
  destruct (populate _ _ _ _) as [[[m1 pop1] sds1]|] eqn:Hpop; [|done].
  cbn [mbind option_bind]. unfold select.
  destruct (evaluate _ _ _ _ _ _ _ _) as [[g evs]|] eqn:Hev; [|done].
  cbn [mbind option_bind].
  destruct (for_each _ _ _) as [[h scs]|] eqn:Hdrain; [|done].
  cbn [mbind option_bind fst snd].
  destruct (max_element _ _) as [b|] eqn:Hb; [|done]. cbn [mbind option_bind].
  destruct (cells m1 !! algo b); [|done]. cbn [mbind option_bind].
  intros [= <-]. cbn [scores algoscores best].
  destruct (max_element_Some _ _ Hb) as [Hin Hmax].
  exists b, m1, pop1, sds1, g, evs. split_and!; try done.
  - intros x Hx. specialize (Hmax x Hx). split_and!; [done| |].
    + intros Hxs. destruct (asuccess b) eqn:Hbs; [done|].
      by rewrite algoScoreSort_success in Hmax.
    + intros Heq. rewrite algoScoreSort_value in Hmax by done.
      apply bool_decide_eq_false in Hmax. by apply Qcnot_lt_le.
  - intros x y Hx Hy. split.
    + by apply algoScoreSort_success.
    + by apply algoScoreSort_failure.
  - intros x y Heq. rewrite algoScoreSort_value by done.
    apply bool_decide_eq_true.
Qed.


(** C9. Each merge pops exactly [m_successorSize] items from the worker's
    selector and the engine pops exactly [m_successorSize] items from the
    global one, whatever they hold. Over a population of live individuals
    all these pops find an item exactly when the successor set is empty or
    there is a worker and [m_populationSize / numThreads], the length of the
    shortest slice, is at least [m_successorSize]. *)
Theorem pops_need_filled_slices (T : nat) (order : list nat) (m : @Mem Genome)
    (pop : list addr) (global : Heap) (scs : list AlgoScore) :
  order ≡ₚ seq 0 T → is_uint (T * P) → length pop = P →
  (∀ p, p ∈ pop → live m p) →
  capacity global = k → items global = [] → length scs = k →
  (is_Some (evaluate process_score H god T order m pop global
            ≫= λ ge, for_each (seq 0 k) drain_body (sh_scores ge.1, scs))
   ↔ k = 0 ∨ (0 < T ∧ k ≤ P / T))
  ∧ (0 < T →
       stop (make_threadData P T 0) - start (make_threadData P T 0) = P / T
       ∧ ∀ j, j < T →
           P / T ≤ stop (make_threadData P T j) - start (make_threadData P T j))
  ∧ (∀ local g hs,
       for_each (seq 0 k) (transfer_body H) (local, g) = Some hs →
       length (items hs.1) + k = length (items local))
  ∧ (∀ h hs,
       for_each (seq 0 k) drain_body (h, scs) = Some hs →
       length (items hs.1) + k = length (items h)).
Proof.
  intros Hperm Hu Hlen Hlive Hcap Hempty Hscs. split_and!.
  - destruct (decide (T = 0)) as [->|HT].
    + rewrite evaluate_no_thread by done. cbn [mbind option_bind fst sh_scores].
      destruct (decide (k = 0)) as [Hk|Hk].
      * rewrite Hk. cbn [seq for_each]. split; [by left|by eexists].
      * rewrite drain_short by (rewrite ?Hempty; simpl; lia).
        split; [by intros [? ?]|]. intros [?|[? _]]; lia.
    + destruct (decide (k ≤ P / T)) as [Hk|Hk].
      * destruct (evaluate_spec process_score H god T order m pop global)
          as (g & evs & -> & Hgc & Hgl & _); try done.
        cbn [mbind option_bind fst].
        rewrite drain_loop by (rewrite ?Hgl; nia).
        split; [right; lia|by eexists].
      * rewrite evaluate_short by (done || lia). cbn [mbind option_bind].
        split; [by intros [? ?]|]. intros [?|[? ?]]; lia.
  - intros HT. split; [by apply slice_zero_length|]. intros j Hj.
    rewrite make_threadData_start, make_threadData_stop by done.
    pose proof (slice_bounds P T j Hj). lia.
  - intros local g hs. apply transfer_exact.
  - intros h hs. by apply drain_exact.
Qed.


End MoreClaims.

Lemma pair_mem_lookup (p : addr) :
  live pair_mem p ↔ p = 1 ∨ p = 2.
Proof.
  unfold live, pair_mem. cbn [cells]. split.
  - intros [g Hg]. apply lookup_insert_Some in Hg as [[<- _]|[_ Hg]]; [by left|].
    apply lookup_singleton_Some in Hg as [<- _]. by right.
  - intros [->| ->]; by eexists.
Qed.

Lemma pair_mem_wf : mem_wf pair_mem.
Proof.
  split; [simpl; lia|]. intros p [->| ->]%pair_mem_lookup; simpl; lia.
Qed.

Lemma elitism_witness :
  ∃ m' pop', breed demo_gen pair_god pair_best [pair_best] pair_mem [1; 2]
             = Some (m', pop')
    ∧ length pop' = 2 ∧ pop' !! 0 = Some 2.
Proof.
  destruct (elitism demo_gen demo_score demo_schedule maxScoreHeap pair_god
              pair_best [pair_best] pair_mem [1; 2])
    as [(m' & pop' & Hrun & Hlen & H0 & _) _].
  - apply pair_mem_wf.
  - simpl. lia.
  - simpl. lia.
  - reflexivity.
  - intros s ->%list_elem_of_singleton. apply pair_mem_lookup. by right.
  - reflexivity.
  - apply NoDup_cons. split; [|apply NoDup_singleton].
    by intros ?%list_elem_of_singleton.
  - intros p [->|[->|?%elem_of_nil]%elem_of_cons]%elem_of_cons;
      [| |done]; apply pair_mem_lookup; auto.
  - apply pair_mem_lookup. by right.
  - by exists m', pop'.
Defined.

Lemma best_is_maximum_of_successors_witness :
  ∃ st' b, generation demo_gen early_score demo_schedule maxScoreHeap
             lucky_god 1 1 lucky_start = Some st'
    ∧ best st' = Some b
    ∧ b = mkAlgoScore 2 (early_score 2)
    ∧ mkAlgoScore 4 (early_score 4) ∈ algoscores st'
    ∧ (∀ x, x ∈ algoscores st' → algoScoreSort b x = false).
Proof.
  destruct (generation demo_gen early_score demo_schedule maxScoreHeap
              lucky_god 1 1 lucky_start) as [st'|] eqn:Hgen;
    [|vm_compute in Hgen; discriminate].
  assert (algoscores st'
          = [mkAlgoScore 2 (early_score 2); mkAlgoScore 4 (early_score 4)]
          ∧ best st' = Some (mkAlgoScore 2 (early_score 2))) as [Hscs Hb].
  { vm_compute in Hgen. injection Hgen as <-. split; reflexivity. }
  destruct (best_is_maximum_of_successors demo_gen early_score demo_schedule
              maxScoreHeap lucky_god 1 1 lucky_start st' Hgen)
    as (b & m1 & pop1 & sds1 & g & evs & _ & _ & _ & Hbest & _ & _ & Hmax
        & _).
  exists st', b. split; [done|]. split; [done|]. split_and!.
  - rewrite Hb in Hbest. congruence.
  - rewrite Hscs. right. by left.
  - intros x Hx. by apply Hmax.
Defined.



Lemma pops_need_filled_slices_witness :
  is_Some (evaluate demo_score minScoreHeap pair_god 1 [0] pair_mem [1; 2]
             (mkHeap 1 [])
           ≫= λ ge, for_each (seq 0 1) drain_body (sh_scores ge.1, [pair_best])).
Proof.
  destruct (pops_need_filled_slices demo_score minScoreHeap pair_god 1 [0]
              pair_mem [1; 2] (mkHeap 1 []) [pair_best]) as [Hiff _].
  - reflexivity.
  - unfold is_uint, UINT_MOD. simpl. lia.
  - reflexivity.
  - intros p [->|[->|?%elem_of_nil]%elem_of_cons]%elem_of_cons;
      [| |done]; apply pair_mem_lookup; auto.
  - reflexivity.
  - reflexivity.
  - reflexivity.
  - apply Hiff. right. simpl. lia.
Defined.


(** * Further properties of the engine *)

(** ** The comparators as orders *)

(** On finite scores the comparators of [Float] are those of the engine. *)
Lemma algoScoreSort_finite (x y : AlgoScore) :
  Float.algoScoreSort (finite_score x) (finite_score y) = algoScoreSort x y.
Proof. done. Qed.

Lemma minScoreHeap_finite (x y : AlgoScore) :
  Float.minScoreHeap (finite_score x) (finite_score y) = minScoreHeap x y.
Proof. done. Qed.

Lemma maxScoreHeap_finite (x y : AlgoScore) :
  Float.maxScoreHeap (finite_score x) (finite_score y) = maxScoreHeap x y.
Proof. done. Qed.

(** No [<] test accepts a NaN. *)
Lemma Float_lt_nan (x y : Float.double) :
  Float.lt x y = true → Float.is_nan x = false ∧ Float.is_nan y = false.
Proof. by destruct x, y. Qed.

Lemma Float_lt_asym (x y : Float.double) :
  Float.lt x y = true → Float.lt y x = false.
Proof.
  destruct x as [|p| |], y as [|q| |]; cbn [Float.lt]; try done.
  rewrite bool_decide_eq_true, bool_decide_eq_false. apply Qclt_asym.
Qed.

Lemma Float_lt_trans (x y z : Float.double) :
  Float.lt x y = true → Float.lt y z = true → Float.lt x z = true.
Proof.
  destruct x as [|p| |], y as [|q| |], z as [|r| |]; cbn [Float.lt]; try done.
  rewrite !bool_decide_eq_true. unfold Qclt. lra.
Qed.

(** Through a finite value, not being below is transitive. *)
Lemma Float_lt_negtrans (x y z : Float.double) :
  Float.is_nan y = false →
  Float.lt x y = false → Float.lt y z = false → Float.lt x z = false.
Proof.
  destruct x as [|p| |], y as [|q| |], z as [|r| |];
    cbn [Float.lt Float.is_nan]; try done.
  rewrite !bool_decide_eq_false. unfold Qclt. lra.
Qed.

(** X1. [algoScoreSort] is irreflexive, asymmetric and transitive on all
    scores, a NaN included. Incomparability under it is transitive, which
    makes it the strict weak ordering [std::max_element] asks for, through
    an item whose score is not a NaN; through a NaN it is not: 1 and 5 are
    both incomparable with a NaN, and 1 is below 5. On finite scores it is
    the comparator of the engine. *)
Theorem algoScoreSort_strict_weak_order (a b c : Float.AlgoScore) :
  Float.algoScoreSort a a = false
  ∧ (Float.algoScoreSort a b = true → Float.algoScoreSort b a = false)
  ∧ (Float.algoScoreSort a b = true → Float.algoScoreSort b c = true →
       Float.algoScoreSort a c = true)
  ∧ (Float.is_nan (Float.ascore b) = false →
     Float.algoScoreSort a b = false → Float.algoScoreSort b a = false →
     Float.algoScoreSort b c = false → Float.algoScoreSort c b = false →
       Float.algoScoreSort a c = false ∧ Float.algoScoreSort c a = false)
  ∧ (∀ x y : AlgoScore,
       Float.algoScoreSort (finite_score x) (finite_score y)
       = algoScoreSort x y)
  ∧ (∃ lo nan hi,
       Float.is_nan (Float.ascore nan) = true
       ∧ Float.algoScoreSort lo nan = false
       ∧ Float.algoScoreSort nan lo = false
       ∧ Float.algoScoreSort nan hi = false
       ∧ Float.algoScoreSort hi nan = false
       ∧ Float.algoScoreSort lo hi = true).
Proof.
  split_and!.
  - unfold Float.algoScoreSort. rewrite Bool.eqb_reflx.
    destruct (Float.ascore a) as [|q| |]; cbn [Float.lt]; try done.
    apply bool_decide_eq_false. unfold Qclt. lra.
  - unfold Float.algoScoreSort.
    destruct (Float.asuccess a), (Float.asuccess b); cbn [Bool.eqb]; try done.
    all: apply Float_lt_asym.
  - unfold Float.algoScoreSort.
    destruct (Float.asuccess a), (Float.asuccess b), (Float.asuccess c);
      cbn [Bool.eqb]; try done.
    all: apply Float_lt_trans.
  - intros Hb. unfold Float.algoScoreSort.
    destruct (Float.asuccess a), (Float.asuccess b), (Float.asuccess c);
      cbn [Bool.eqb]; try done.
    all: intros Hab Hba Hbc Hcb; split.
    all: by eapply Float_lt_negtrans.
  - apply algoScoreSort_finite.
  - exists (Float.mkAlgoScore 1
              (Float.Processor.mkScore false (Float.Finite (Qc_of_nat 1)))),
           (Float.mkAlgoScore 2 (Float.Processor.mkScore false Float.NaN)),
           (Float.mkAlgoScore 3
              (Float.Processor.mkScore false (Float.Finite (Qc_of_nat 5)))).
    by split_and!.
Qed.

Lemma Float_minScoreHeap_negtrans (a b c : Float.AlgoScore) :
  Float.is_nan (Float.ascore b) = false →
  (0 ≤ Float.minScoreHeap a b)%Z → (0 ≤ Float.minScoreHeap b c)%Z →
  (0 ≤ Float.minScoreHeap a c)%Z.
Proof.
  intros Hb. unfold Float.minScoreHeap.
  destruct (Float.asuccess a), (Float.asuccess b), (Float.asuccess c);
    cbn [negb andb]; try (intros; lia).
  all: destruct (Float.lt (Float.ascore a) (Float.ascore b)) eqn:Hab;
    [intros; lia|].
  all: destruct (Float.lt (Float.ascore b) (Float.ascore c)) eqn:Hbc;
    [intros; lia|].
  all: rewrite (Float_lt_negtrans _ _ _ Hb Hab Hbc).
  all: intros _ _; case_match; lia.
Qed.

Lemma Float_maxScoreHeap_negtrans (a b c : Float.AlgoScore) :
  Float.is_nan (Float.ascore b) = false →
  (0 ≤ Float.maxScoreHeap a b)%Z → (0 ≤ Float.maxScoreHeap b c)%Z →
  (0 ≤ Float.maxScoreHeap a c)%Z.
Proof.
  intros Hb. unfold Float.maxScoreHeap.
  destruct (Float.asuccess a), (Float.asuccess b), (Float.asuccess c);
    cbn [negb andb]; try (intros; lia).
  all: destruct (Float.lt (Float.ascore b) (Float.ascore a)) eqn:Hba;
    [rewrite (Float_lt_asym _ _ Hba); intros; lia|].
  all: destruct (Float.lt (Float.ascore c) (Float.ascore b)) eqn:Hcb;
    [rewrite (Float_lt_asym _ _ Hcb); intros; lia|].
  all: rewrite (Float_lt_negtrans _ _ _ Hb Hcb Hba).
  all: intros _ _; case_match; lia.
Qed.

(** X2. Both heap comparators are three-way comparisons on all scores, a
    NaN included: swapping the arguments negates the answer and the answer
    is -1, 0 or 1; [maxScoreHeap] calls better exactly what [algoScoreSort]
    calls greater, and between items of equal success flag [minScoreHeap] is
    [maxScoreHeap] with its arguments swapped. Being no worse is transitive
    through an item whose score is not a NaN, and not through a NaN, against
    which both comparators answer 0. On finite scores they are the
    comparators of the engine. *)
Theorem heap_orderings_three_way (a b c : Float.AlgoScore) :
  Float.minScoreHeap b a = (- Float.minScoreHeap a b)%Z
  ∧ Float.maxScoreHeap b a = (- Float.maxScoreHeap a b)%Z
  ∧ (-1 ≤ Float.minScoreHeap a b ≤ 1)%Z
  ∧ (-1 ≤ Float.maxScoreHeap a b ≤ 1)%Z
  ∧ (Float.is_nan (Float.ascore b) = false →
     (0 ≤ Float.minScoreHeap a b)%Z → (0 ≤ Float.minScoreHeap b c)%Z →
       (0 ≤ Float.minScoreHeap a c)%Z)
  ∧ (Float.is_nan (Float.ascore b) = false →
     (0 ≤ Float.maxScoreHeap a b)%Z → (0 ≤ Float.maxScoreHeap b c)%Z →
       (0 ≤ Float.maxScoreHeap a c)%Z)
  ∧ ((Float.maxScoreHeap a b <? 0)%Z = Float.algoScoreSort b a)
  ∧ (Float.asuccess a = Float.asuccess b →
       Float.minScoreHeap a b = Float.maxScoreHeap b a)
  ∧ (∀ x y : AlgoScore,
       Float.minScoreHeap (finite_score x) (finite_score y) = minScoreHeap x y
       ∧ Float.maxScoreHeap (finite_score x) (finite_score y)
         = maxScoreHeap x y)
  ∧ (∃ lo nan hi,
       Float.is_nan (Float.ascore nan) = true
       ∧ Float.minScoreHeap lo nan = 0%Z ∧ Float.minScoreHeap nan hi = 0%Z
       ∧ Float.minScoreHeap lo hi = (-1)%Z
       ∧ Float.maxScoreHeap hi nan = 0%Z ∧ Float.maxScoreHeap nan lo = 0%Z
       ∧ Float.maxScoreHeap hi lo = (-1)%Z).
Proof.
  assert (∀ x y : Float.AlgoScore,
            Float.minScoreHeap y x = (- Float.minScoreHeap x y)%Z
            ∧ Float.maxScoreHeap y x = (- Float.maxScoreHeap x y)%Z) as Hswap.
  { intros x y. unfold Float.minScoreHeap, Float.maxScoreHeap.
    destruct (Float.asuccess x), (Float.asuccess y); cbn [negb andb];
      try done.
    all: destruct (Float.lt (Float.ascore x) (Float.ascore y)) eqn:Hxy.
    all: try by rewrite (Float_lt_asym _ _ Hxy).
    all: by destruct (Float.lt (Float.ascore y) (Float.ascore x)). }
  split_and!.
  - apply Hswap.
  - apply Hswap.
  - unfold Float.minScoreHeap. repeat case_match; lia.
  - unfold Float.minScoreHeap. repeat case_match; lia.
  - unfold Float.maxScoreHeap. repeat case_match; lia.
  - unfold Float.maxScoreHeap. repeat case_match; lia.
  - apply Float_minScoreHeap_negtrans.
  - apply Float_maxScoreHeap_negtrans.
  - unfold Float.maxScoreHeap, Float.algoScoreSort.
    destruct (Float.asuccess a), (Float.asuccess b); cbn [negb andb Bool.eqb];
      try done.
    all: destruct (Float.lt (Float.ascore b) (Float.ascore a)) eqn:Hba.
    all: try by rewrite (Float_lt_asym _ _ Hba).
    all: by destruct (Float.lt (Float.ascore a) (Float.ascore b)).
  - intros Heq. unfold Float.minScoreHeap, Float.maxScoreHeap. rewrite Heq.
    destruct (Float.asuccess b); cbn [negb andb].
    all: destruct (Float.lt (Float.ascore a) (Float.ascore b)) eqn:Hab.
    all: try by rewrite (Float_lt_asym _ _ Hab).
    all: done.
  - intros x y. split; [apply minScoreHeap_finite|apply maxScoreHeap_finite].
  - exists (Float.mkAlgoScore 1
              (Float.Processor.mkScore false (Float.Finite (Qc_of_nat 1)))),
           (Float.mkAlgoScore 2 (Float.Processor.mkScore false Float.NaN)),
           (Float.mkAlgoScore 3
              (Float.Processor.mkScore false (Float.Finite (Qc_of_nat 4)))).
    by split_and!.
Qed.

(** ** The slices of the workers *)

Lemma slice_upper (P T j : nat) :
  0 < T → S j * P / T ≤ j * P / T + P / T + 1.
Proof.
  intros HT.
  pose proof (Nat.div_mod_eq (j * P) T) as H1.
  pose proof (Nat.div_mod_eq P T) as H2.
  pose proof (Nat.mod_upper_bound (j * P) T ltac:(lia)) as H3.
  pose proof (Nat.mod_upper_bound P T ltac:(lia)) as H4.
  apply Nat.lt_succ_r. apply Nat.Div0.div_lt_upper_bound. nia.
Qed.

(** X3. With at least one worker and slice bounds that do not wrap, the
    slices tile the population: the first starts at 0, each stops where the
    next starts, the last stops at [populationSize], and every slice holds
    [populationSize / numThreads] individuals or one more. *)
Theorem slices_tile_population (P T : nat) :
  0 < T → is_uint (T * P) →
  start (make_threadData P T 0) = 0
  ∧ stop (make_threadData P T (T - 1)) = P
  ∧ (∀ j, S j < T →
       stop (make_threadData P T j) = start (make_threadData P T (S j)))
  ∧ (∀ j, j < T →
       start (make_threadData P T j) ≤ stop (make_threadData P T j)
       ∧ P / T ≤ stop (make_threadData P T j) - start (make_threadData P T j)
         ≤ P / T + 1).
Proof.
  intros HT Hu. split_and!.
  - rewrite make_threadData_start by done.
    by rewrite Nat.mul_0_l, Nat.Div0.div_0_l.
  - rewrite make_threadData_stop by (done || lia).
    replace (S (T - 1)) with T by lia.
    by rewrite (Nat.mul_comm T P), Nat.div_mul by lia.
  - intros j Hj.
    by rewrite make_threadData_stop, make_threadData_start by (done || lia).
  - intros j Hj.
    rewrite make_threadData_start, make_threadData_stop by done.
    pose proof (slice_bounds P T j Hj). pose proof (slice_upper P T j HT). lia.
Qed.

Lemma slices_tile_population_witness :
  start (make_threadData 10 3 0) = 0
  ∧ stop (make_threadData 10 3 2) = 10
  ∧ stop (make_threadData 10 3 0) = start (make_threadData 10 3 1).
Proof.
  destruct (slices_tile_population 10 3) as (H0 & Hlast & Hnext & _).
  - lia.
  - unfold is_uint, UINT_MOD. simpl. lia.
  - split_and!; [exact H0|exact Hlast|apply Hnext; lia].
Defined.

(** X4. The thread count [simulate] computes leaves every worker at least
    [minThreadWorkloadSize] individuals, whenever it is positive and the
    slice bounds do not wrap. *)
Theorem workers_get_min_workload (P W M T j : nat) :
  numThreads P W M = Some T → 0 < T → is_uint (T * P) → j < T →
  W ≤ stop (make_threadData P T j) - start (make_threadData P T j).
Proof.
  intros HT Hpos Hu Hj.
  unfold numThreads in HT. case_decide as HW; [done|]. cbv zeta in HT.
  injection HT as HT.
  assert (T ≤ P / W) as Hle by (case_decide; lia).
  assert (W ≤ P / T) as HWT.
  { apply Nat.div_le_lower_bound; [lia|].
    pose proof (Nat.Div0.mul_div_le P W). nia. }
  rewrite make_threadData_start, make_threadData_stop by done.
  pose proof (slice_bounds P T j Hj). lia.
Qed.

Lemma workers_get_min_workload_witness :
  4 ≤ stop (make_threadData 10 2 1) - start (make_threadData 10 2 1).
Proof.
  apply (workers_get_min_workload 10 4 8 2 1).
  - reflexivity.
  - lia.
  - unfold is_uint, UINT_MOD. simpl. lia.
  - lia.
Defined.

(** ** What a generation evaluates *)

Section EvaluatedFacts.
Context {Genome : Type}.
Variable process_score : Genome → Processor.Score.
Variable H : AlgoScore → AlgoScore → Z.
Variable god : God.

Local Abbreviation P := (m_populationSize god).
Local Abbreviation k := (m_successorSize god).

Lemma Process_local_in_order (m : @Mem Genome) (pop : list addr)
    (td : threadData) (w : Worker) :
  Process_local process_score H k m pop td = Some w →
  Forall2 (scored_as process_score m)
    (take (stop td - start td) (drop (start td) pop)) (w_evaluated w).
Proof.
  unfold Process_local. intros Hrun.
  assert (Forall2 (scored_as process_score m)
            (take (start td + (stop td - start td) - start td)
               (drop (start td) pop)) (w_evaluated w)) as Hall.
  { eapply (for_each_seq_post
      (λ i (w : Worker),
         Forall2 (scored_as process_score m)
           (take (i - start td) (drop (start td) pop)) (w_evaluated w)));
      [| |exact Hrun].
    - rewrite Nat.sub_diag. constructor.
    - intros i v v' Hi Hv. unfold Process_body.
      destruct (pop !! i) as [p|] eqn:Hp; [|done]. cbn [mbind option_bind].
      unfold process. destruct (cells m !! p) as [g|] eqn:Hg; [|done].
      cbn [fmap option_fmap option_map mbind option_bind].
      destruct (welford_step _ _ _ _) as [xM' xBar'].
      intros [= <-]. cbn [w_evaluated].
      replace (S i - start td) with (S (i - start td)) by lia.
      rewrite (take_S_r _ _ p).
      + apply Forall2_app; [done|]. constructor; [|constructor].
        split; [done|]. by exists g.
      + rewrite lookup_drop. by replace (start td + (i - start td)) with i by lia. }
  by replace (start td + (stop td - start td) - start td)
    with (stop td - start td) in Hall by lia.
Qed.

Lemma evaluate_in_order (T : nat) (order : list nat) (m : @Mem Genome)
    (pop : list addr) (global : Heap) (g : Shared) (evs : list AlgoScore) :
  0 < T → is_uint (T * P) → length pop = P →
  evaluate process_score H god T order m pop global = Some (g, evs) →
  Forall2 (scored_as process_score m) pop evs.
Proof.
  intros HT Hu Hlen. unfold evaluate.
  destruct (mapM _ _) as [workers|] eqn:Hm; [|done]. cbn [mbind option_bind].
  apply mapM_Some in Hm.
  pose proof (Forall2_length _ _ _ Hm) as HlenW.
  rewrite length_fmap, length_seq in HlenW.
  destruct (for_each _ _ _) as [g'|]; [|done]. cbn [mbind option_bind].
  intros [= _ <-].
  assert (∀ n, n ≤ T →
    Forall2 (scored_as process_score m) (take (n * P / T) pop)
      (concat (w_evaluated <$> take n workers))) as Hcut.
  { induction n as [|n IH]; intros Hn.
    - rewrite Nat.mul_0_l, Nat.Div0.div_0_l. constructor.
    - destruct (lookup_lt_is_Some_2 workers n) as [w Hw]; [lia|].
      rewrite (take_S_r _ _ _ Hw), fmap_app, concat_app.
      cbn [fmap list_fmap concat]. rewrite app_nil_r.
      destruct (Forall2_lookup_r _ _ _ _ _ Hm Hw) as (td & Htd & Hrun).
      rewrite lookup_threadDatas in Htd by lia. injection Htd as <-.
      apply Process_local_in_order in Hrun.
      rewrite make_threadData_start, make_threadData_stop in Hrun by (done || lia).
      pose proof (slice_bounds P T n ltac:(lia)) as [Hb _].
      replace (S n * P / T) with (n * P / T + (S n * P / T - n * P / T)) by lia.
      rewrite <-take_take_drop. apply Forall2_app; [apply IH; lia|done]. }
  specialize (Hcut T ltac:(lia)).
  rewrite (Nat.mul_comm T P), Nat.div_mul in Hcut by lia.
  by rewrite !take_ge in Hcut by lia.
Qed.

End EvaluatedFacts.

(** ** What a generation and a run leave behind *)

Section TraceFacts.
Context {Genome : Type}.
Variable gen_content : addr → Genome → Genome.
Variable process_score : Genome → Processor.Score.
Variable schedule : nat → list nat.
Variable H : AlgoScore → AlgoScore → Z.
Variable C : list AlgoScore → nat → bool.
Variable god : God.

Local Abbreviation P := (m_populationSize god).
Local Abbreviation k := (m_successorSize god).

Lemma select_post (T i : nat) (st st' : @State Genome) (m1 : Mem)
    (pop1 sds1 : list addr) :
  select process_score schedule H god T i st (m1, pop1, sds1) = Some st' →
  ∃ g evs b,
    evaluate process_score H god T (schedule i) m1 pop1 (Flush (scores st))
    = Some (g, evs)
    ∧ mem st' = m1 ∧ population st' = pop1 ∧ seeds st' = sds1
    ∧ evaluated st' = evaluated st ++ evs
    ∧ best st' = Some b
    ∧ max_element algoScoreSort (algoscores st') = Some b
    ∧ is_Some (cells m1 !! algo b)
    ∧ prevAvg st' = popBar (sh_stats g) ∧ prevBest st' = ascore b
    ∧ reports st'
      = reports st ++ [make_report i (algoscores st') (popBar (sh_stats g)) b
                         (prevAvg st) (prevBest st)].
Proof.
  unfold select.
  destruct (evaluate _ _ _ _ _ _ _ _) as [[g evs]|]; [|done].
  cbn [mbind option_bind].
  destruct (for_each _ _ _) as [hs|]; [|done]. cbn [mbind option_bind].
  destruct (max_element _ _) as [b|] eqn:Hb; [|done]. cbn [mbind option_bind].
  destruct (cells m1 !! algo b) eqn:Hlive; [|done]. cbn [mbind option_bind].
  intros [= <-]. exists g, evs, b.
  cbn [mem population seeds evaluated best algoscores prevAvg prevBest reports].
  split_and!; done.
Qed.

Lemma generation_post (T i : nat) (st st' : @State Genome) :
  generation gen_content process_score schedule H god T i st = Some st' →
  ∃ m1 pop1 sds1 g evs b,
    populate gen_content god i st = Some (m1, pop1, sds1)
    ∧ evaluate process_score H god T (schedule i) m1 pop1 (Flush (scores st))
      = Some (g, evs)
    ∧ mem st' = m1 ∧ population st' = pop1 ∧ seeds st' = sds1
    ∧ evaluated st' = evaluated st ++ evs
    ∧ best st' = Some b
    ∧ max_element algoScoreSort (algoscores st') = Some b
    ∧ is_Some (cells m1 !! algo b)
    ∧ prevAvg st' = popBar (sh_stats g) ∧ prevBest st' = ascore b
    ∧ reports st'
      = reports st ++ [make_report i (algoscores st') (popBar (sh_stats g)) b
                         (prevAvg st) (prevBest st)].
Proof.
  unfold generation.
  destruct (populate _ _ _ _) as [[[m1 pop1] sds1]|]; [|done].
  cbn [mbind option_bind]. intros Hsel.
  apply select_post in Hsel as (g & evs & b & Hsel).
  by exists m1, pop1, sds1, g, evs, b.
Qed.

Lemma free_losers_fields (keep : addr) (st st' : @State Genome) :
  free_losers god keep st = Some st' →
  reports st' = reports st ∧ algoscores st' = algoscores st
  ∧ evaluated st' = evaluated st ∧ best st' = best st
  ∧ prevAvg st' = prevAvg st ∧ prevBest st' = prevBest st
  ∧ seeds st' = seeds st ∧ scores st' = scores st.
Proof.
  unfold free_losers. destruct (for_each _ _ _) as [mp|]; [|done].
  cbn [mbind option_bind]. by intros [= <-].
Qed.

(** A property that every generation preserves holds of the state the loop
    ends in, from which the losers are then freed; the answer is the maximum
    of that state's successor set. *)
Lemma cycles_invariant (Inv : nat → @State Genome → Prop) (T n i : nat)
    (st st' : @State Genome) (w : AlgoScore) :
  Inv i st →
  (∀ j s s', Inv j s →
     generation gen_content process_score schedule H god T j s = Some s' →
     Inv (S j) s') →
  cycles gen_content process_score schedule H C god T n i st = Some (w, st') →
  ∃ j s, i ≤ j ≤ i + n ∧ (0 < n → i < j) ∧ Inv j s
    ∧ max_element algoScoreSort (algoscores s) = Some w
    ∧ free_losers god (algo w) s = Some st'.
Proof.
  intros Hinv Hstep. revert i st Hinv.
  induction n as [|n IH]; intros i st Hinv; cbn [cycles].
  - destruct (max_element _ _) as [b|] eqn:Hb; [|done]. cbn [mbind option_bind].
    destruct (free_losers _ _ _) as [st1|] eqn:Hfree; [|done].
    cbn [mbind option_bind]. intros [= <- <-].
    exists i, st. split_and!; [lia|lia|lia|done..].
  - destruct (generation _ _ _ _ _ _ _ _) as [st1|] eqn:Hgen; [|done].
    cbn [mbind option_bind]. pose proof (Hstep _ _ _ Hinv Hgen) as Hinv1.
    destruct (C (algoscores st1) i).
    + apply generation_post in Hgen
        as (_ & _ & _ & _ & _ & b & _ & _ & _ & _ & _ & _ & Hb & Hmax & _).
      rewrite Hb. cbn [mbind option_bind].
      destruct (free_losers _ _ _) as [st2|] eqn:Hfree; [|done].
      cbn [mbind option_bind]. intros [= <- <-].
      exists (S i), st1. split_and!; [lia|lia|lia|done..].
    + intros Hrest. destruct (IH _ _ Hinv1 Hrest) as (j & s & Hj & _ & Hs).
      exists j, s. split_and!; [lia|lia|lia|apply Hs..].
Qed.

End TraceFacts.

Lemma max_element_success (l : list AlgoScore) (b : AlgoScore) :
  max_element algoScoreSort l = Some b →
  asuccess b = true ↔ ∃ a, a ∈ l ∧ asuccess a = true.
Proof.
  intros [Hb Hmax]%max_element_Some. split.
  - intros Hs. by exists b.
  - intros (a & Ha & Hs). destruct (asuccess b) eqn:Hbs; [done|].
    specialize (Hmax a Ha). by rewrite algoScoreSort_success in Hmax.
Qed.

Section RunExtras.
Context {Genome : Type}.
Variable gen_content : addr → Genome → Genome.
Variable process_score : Genome → Processor.Score.
Variable schedule : nat → list nat.
Variable H : AlgoScore → AlgoScore → Z.
Variable god : God.

Local Abbreviation P := (m_populationSize god).
Local Abbreviation k := (m_successorSize god).

(** X5. A generation's workers evaluate every individual of the population
    exactly once: whatever the order of the merges, the evaluated pairs are,
    slot by slot, the individuals of the population with the score the
    evaluator gives their content. *)
Theorem population_evaluated_once (T : nat) (order : list nat) (m : @Mem Genome)
    (pop : list addr) (global : Heap) (g : Shared) (evs : list AlgoScore) :
  0 < T → is_uint (T * P) → length pop = P →
  evaluate process_score H god T order m pop global = Some (g, evs) →
  length evs = P
  ∧ Forall2 (scored_as process_score m) pop evs
  ∧ ∀ i p, pop !! i = Some p →
      ∃ c, cells m !! p = Some c
        ∧ evs !! i = Some (mkAlgoScore p (process_score c)).
Proof.
  intros HT Hu Hlen Hrun.
  pose proof (evaluate_in_order _ _ _ _ _ _ _ _ _ _ HT Hu Hlen Hrun) as Hall.
  split_and!; [|done|].
  - by rewrite <-(Forall2_length _ _ _ Hall).
  - intros i p Hp.
    destruct (Forall2_lookup_l _ _ _ _ _ Hall Hp) as ([a s] & Hx & Ha & c & Hc & Hs).
    cbn [algo score] in *. subst. by exists c.
Qed.

(** X6. Over exact arithmetic, with finite scores and no rounding, the
    global statistics a generation ends with are those of the scores of the
    whole population, whatever the order of the merges: the count is
    [populationSize], [popBar] the mean and [popM] the sum of squared
    deviations from it. *)
Theorem generation_statistics (T : nat) (order : list nat) (m : @Mem Genome)
    (pop : list addr) (global : Heap) (g : Shared) (evs : list AlgoScore) :
  order ≡ₚ seq 0 T → 0 < T → is_uint (T * P) → length pop = P →
  evaluate process_score H god T order m pop global = Some (g, evs) →
  popN (sh_stats g) = P
  ∧ popBar (sh_stats g) = mean (ascore <$> evs)
  ∧ popM (sh_stats g) = sumSqDev (ascore <$> evs).
Proof.
  intros Hperm HT Hu Hlen Hrun.
  destruct (evaluate_stats _ _ _ _ _ _ _ _ _ _ Hperm Hu HT Hlen Hrun) as [Hl ->].
  rewrite sumSqDev_stats_of. cbn [popN popBar popM stats_of].
  by rewrite length_fmap.
Qed.

(** X7. A run evaluates [populationSize] individuals in each generation it
    runs. *)
Theorem run_evaluates_each_generation (C : list AlgoScore → nat → bool)
    (m : @Mem Genome) (T : nat) (w : AlgoScore) (st : @State Genome) :
  numThreads P (m_minThreadWorkloadSize god) (m_maxNumThreads god) = Some T →
  0 < T → is_uint (T * P) →
  simulate gen_content process_score schedule H C god m = Some (w, st) →
  length (evaluated st) = length (reports st) * P.
Proof.
  intros HT Hpos Hu. unfold simulate. rewrite HT. cbn [mbind option_bind].
  intros Hrun.
  apply (cycles_invariant gen_content process_score schedule H C god
    (λ _ s, length (population s) = P
            ∧ length (evaluated s) = length (reports s) * P))
    in Hrun as (j & s & _ & _ & [_ Hs] & _ & Hfree).
  - apply free_losers_fields in Hfree as (-> & _ & -> & _). done.
  - cbn [population evaluated reports length]. by rewrite length_replicate.
  - intros j s s' [Hpop Hev] Hgen.
    pose proof (generation_length _ _ _ _ _ _ _ _ _ Hgen) as Hlen.
    apply generation_post in Hgen
      as (m1 & pop1 & sds1 & g & evs & b & _ & Heval & _ & Hp1 & _ & -> & _
          & _ & _ & _ & _ & ->).
    split; [by rewrite Hlen|].
    apply evaluate_in_order in Heval; [|done|done|by rewrite <-Hp1, Hlen].
    apply Forall2_length in Heval.
    rewrite !length_app. cbn [length]. rewrite <-Hp1, Hlen, Hpop in Heval. lia.
Qed.

(** X8. Each report after the first computes its changes from the report
    before it: the change of the mean from that report's mean and the change
    of the best from that report's best score; and the best of every report
    is the maximum of its successor set. *)
Theorem reports_chain (C : list AlgoScore → nat → bool) (m : @Mem Genome)
    (w : AlgoScore) (st : @State Genome) :
  simulate gen_content process_score schedule H C god m = Some (w, st) →
  (∀ j r r', reports st !! j = Some r → reports st !! S j = Some r' →
     r_avg_change r' = percent (fdiv (- (r_mu r' - r_mu r)) (r_mu r))
     ∧ r_best_change r'
       = percent (fdiv (- (ascore (r_best r') - ascore (r_best r)))
                    (ascore (r_best r))))
  ∧ (∀ j r, reports st !! j = Some r →
       max_element algoScoreSort (r_successors r) = Some (r_best r)
       ∧ r_above_avg r
         = percent (fdiv (- (ascore (r_best r) - r_mu r)) (r_mu r))).
Proof.
  unfold simulate. destruct (numThreads _ _ _) as [T|]; [|done].
  cbn [mbind option_bind]. intros Hrun.
  apply (cycles_invariant gen_content process_score schedule H C god
    (λ _ s,
       (∀ j r r', reports s !! j = Some r → reports s !! S j = Some r' →
          r_avg_change r' = percent (fdiv (- (r_mu r' - r_mu r)) (r_mu r))
          ∧ r_best_change r'
            = percent (fdiv (- (ascore (r_best r') - ascore (r_best r)))
                         (ascore (r_best r))))
       ∧ (∀ j r, reports s !! j = Some r →
            max_element algoScoreSort (r_successors r) = Some (r_best r)
            ∧ r_above_avg r
              = percent (fdiv (- (ascore (r_best r) - r_mu r)) (r_mu r)))
       ∧ (∀ r, last (reports s) = Some r →
            prevAvg s = r_mu r ∧ prevBest s = ascore (r_best r))))
    in Hrun as (j & s & _ & _ & (Hchain & Hbest & _) & _ & Hfree).
  - apply free_losers_fields in Hfree as (-> & _). done.
  - cbn [reports]. split_and!; by intros.
  - intros j s s' (Hchain & Hbest & Hlast) Hgen.
    apply generation_post in Hgen
      as (_ & _ & _ & g & evs & b & _ & _ & _ & _ & _ & _ & _ & Hmax & _
          & HpA & HpB & Hrep).
    rewrite Hrep. split_and!.
    + intros i r r' Hr Hr'.
      destruct (decide (S i < length (reports s))) as [Hlt|Hge].
      * rewrite lookup_app_l in Hr, Hr' by lia. by eapply Hchain.
      * apply lookup_lt_Some in Hr' as Hi. rewrite length_app in Hi.
        cbn [length] in Hi.
        rewrite lookup_app_l in Hr by lia.
        rewrite lookup_app_r in Hr' by lia.
        replace (S i - length (reports s)) with 0 in Hr' by lia.
        injection Hr' as <-.
        destruct (Hlast r) as [-> ->].
        { rewrite last_lookup. rewrite <-Hr. f_equal. lia. }
        done.
    + intros i r Hr.
      destruct (decide (i < length (reports s))) as [Hlt|Hge].
      * rewrite lookup_app_l in Hr by lia. by eapply Hbest.
      * apply lookup_lt_Some in Hr as Hi. rewrite length_app in Hi.
        cbn [length] in Hi. rewrite lookup_app_r in Hr by lia.
        replace (i - length (reports s)) with 0 in Hr by lia.
        injection Hr as <-. done.
    + intros r. rewrite last_snoc. intros [= <-].
      cbn [r_mu r_best make_report]. done.
Qed.

(** X9. A run under [greedyComplete] that ran at least one generation
    returns a success exactly when its last successor set holds one; it does
    so whenever it stops before [numCycles] generations; and when it returns
    a failure it ran [numCycles] generations and no successor set ever held a
    success. *)
Theorem greedy_run_returns_success (m : @Mem Genome) (w : AlgoScore)
    (st : @State Genome) :
  simulate gen_content process_score schedule H greedyComplete god m
  = Some (w, st) →
  0 < m_numCycles god →
  (asuccess w = true
   ↔ ∃ r a, last (reports st) = Some r ∧ a ∈ r_successors r
       ∧ asuccess a = true)
  ∧ (length (reports st) < m_numCycles god → asuccess w = true)
  ∧ (asuccess w = false →
       length (reports st) = m_numCycles god
       ∧ ∀ r a, r ∈ reports st → a ∈ r_successors r → asuccess a = false).
Proof.
  unfold simulate. destruct (numThreads _ _ _) as [T|]; [|done].
  cbn [mbind option_bind]. intros Hrun Hn.
  pose proof Hrun as Hreports.
  apply cycles_reports in Hreports as (new & Hnew & Hle & Hlook & Hlast & _).
  cbn [reports app] in Hnew.
  apply (cycles_invariant gen_content process_score schedule H greedyComplete
    god
    (λ j s, j = 1 ∨ ∃ r, last (reports s) = Some r
                         ∧ r_successors r = algoscores s))
    in Hrun as (j & s & Hj & Hj' & Hinv & Hmax & Hfree).
  2:{ by left. }
  2:{ intros i s s' _ Hgen. right.
      apply generation_post in Hgen
        as (_ & _ & _ & g & evs & b & _ & _ & _ & _ & _ & _ & _ & _ & _ & _
            & _ & ->).
      eexists. by rewrite last_snoc. }
  destruct Hinv as [->|(r & Hr & Hsucc)]; [lia|].
  apply free_losers_fields in Hfree as (Hrep & _).
  rewrite <-Hrep in Hr. rewrite <-Hsucc in Hmax.
  pose proof (max_element_success _ _ Hmax) as Hiff.
  assert (asuccess w = true
          ↔ ∃ r a, last (reports st) = Some r ∧ a ∈ r_successors r
              ∧ asuccess a = true) as Hfirst.
  { rewrite Hiff. split.
    - intros (a & Ha & Hs). by exists r, a.
    - intros (r' & a & Hr' & Ha & Hs). rewrite Hr in Hr'.
      injection Hr' as <-. by exists a. }
  split_and!; [done| |].
  - rewrite Hnew. intros Hlt. destruct (Hlast Hlt) as (r' & Hr' & HC).
    apply Hfirst. apply greedyComplete_true in HC as (a & Ha & Hs).
    exists r', a. by rewrite Hnew.
  - intros Hw.
    assert (∀ r' a, r' ∈ reports st → a ∈ r_successors r' →
              asuccess a = false) as Hnone.
    { intros r' a [i Hi]%list_elem_of_lookup Ha.
      destruct (asuccess a) eqn:Hs; [|done].
      rewrite Hnew in Hi. destruct (Hlook i r' Hi) as [_ HC].
      assert (S i = length new) as Hi'.
      { apply HC, greedyComplete_true. by exists a. }
      assert (last (reports st) = Some r') as Hr'.
      { rewrite Hnew, last_lookup, <-Hi. f_equal. lia. }
      rewrite <-Hw. symmetry. apply Hfirst. by exists r', a. }
    split; [|done]. rewrite Hnew.
    destruct (decide (length new < m_numCycles god)) as [Hlt|]; [|lia].
    destruct (Hlast Hlt) as (r' & Hr' & HC).
    apply greedyComplete_true in HC as (a & Ha & Hs).
    rewrite (Hnone r' a) in Hs; [done| |done].
    rewrite Hnew. by apply last_Some_elem_of.
Qed.

End RunExtras.

Lemma max_element_from_replicate (x : AlgoScore) (n : nat) :
  max_element_from algoScoreSort x (replicate n x) = x.
Proof.
  induction n as [|n IH]; [done|]. cbn [replicate max_element_from].
  by rewrite algoScoreSort_irrefl.
Qed.

Section EdgeFacts.
Context {Genome : Type}.
Variable gen_content : addr → Genome → Genome.
Variable process_score : Genome → Processor.Score.
Variable schedule : nat → list nat.
Variable H : AlgoScore → AlgoScore → Z.
Variable C : list AlgoScore → nat → bool.
Variable god : God.

Local Abbreviation P := (m_populationSize god).
Local Abbreviation k := (m_successorSize god).

(** The final loop finds nothing to destroy in a population of null
    pointers when the winner is the null pointer. *)
Lemma free_loop_null (m : @Mem Genome) (n : nat) :
  for_each (seq 0 n) (free_body NULL) (m, replicate n NULL)
  = Some (m, replicate n NULL).
Proof.
  destruct (for_each_seq_total
    (λ _ (mp : Mem * list addr), mp = (m, replicate n NULL))
    (free_body NULL) 0 n (m, replicate n NULL)) as (mp & -> & ->); [done| |done].
  intros j t Hj ->. exists (m, replicate n NULL). split; [|done].
  unfold free_body. cbn [fst snd].
  rewrite lookup_replicate_2 by lia. cbn [mbind option_bind].
  by rewrite decide_True.
Qed.

(** X10. With [numCycles = 0] the loop body never runs: when the minimal
    workload or the successor size is zero the call is undefined (a division
    by zero at line 225, the maximum of an empty range at line 335), and
    otherwise it returns the value-initialised entry with the null
    individual, having created, evaluated and destroyed nothing, the seeds
    included. *)
Theorem simulate_without_cycles (m : @Mem Genome) :
  m_numCycles god = 0 →
  (m_minThreadWorkloadSize god = 0 ∨ k = 0 →
     simulate gen_content process_score schedule H C god m = None)
  ∧ (m_minThreadWorkloadSize god ≠ 0 → 0 < k →
     ∃ w st, simulate gen_content process_score schedule H C god m
             = Some (w, st)
       ∧ algo w = NULL ∧ mem st = m ∧ seeds st = m_seeds god
       ∧ population st = replicate P NULL
       ∧ reports st = [] ∧ evaluated st = []).
Proof.
  intros Hn. unfold simulate, numThreads. rewrite Hn. split.
  - intros [HW|Hk].
    + by rewrite decide_True.
    + case_decide; [done|]. cbn [mbind option_bind cycles algoscores].
      by rewrite Hk.
  - intros HW Hk. rewrite decide_False by done.
    cbn [mbind option_bind cycles algoscores].
    destruct k as [|k'] eqn:Hk'; [lia|].
    cbn [replicate max_element]. rewrite max_element_from_replicate.
    cbn [mbind option_bind algo]. unfold free_losers.
    cbn [mem population]. rewrite free_loop_null.
    cbn [mbind option_bind fst snd]. eexists _, _. split; [done|].
    by split_and!.
Qed.

(** X11. A seed that occurs twice in the seed list is destroyed twice: the
    second [delete] at line 253 finds the object gone (the first occurrence
    alone is zeroed at line 254), so generation 1 is undefined. *)
Theorem duplicate_seed_is_destroyed_twice (m : @Mem Genome)
    (sds pop : list addr) (i j : nat) (p : addr) :
  i < j → sds !! i = Some p → sds !! j = Some p → p ≠ NULL →
  init_population gen_content god m sds pop = None.
Proof.
  intros Hij Hi Hj Hp. unfold init_population.
  destruct (for_each _ (spawn_body _ _) _) as [[m1 pop1]|]; [|done].
  cbn [mbind option_bind fst snd].
  destruct (for_each (seq 0 (length sds)) delete_seed_body (m1, sds))
    as [ms|] eqn:Hdel; [exfalso|done].
  pose proof (lookup_lt_Some _ _ _ Hj) as Hjlen.
  apply (for_each_seq_post
    (λ t (ms : Mem * list addr),
       (t ≤ j → (∀ u, t ≤ u → ms.2 !! u = sds !! u)
                ∧ (i < t → cells ms.1 !! p = None))
       ∧ (j < t → False))) in Hdel.
  - destruct Hdel as [_ Hfalse]. apply Hfalse. lia.
  - split; [|lia]. intros _. split; [done|lia].
  - intros t [m2 s2] [m3 s3] Ht [Hinv Hpast]. cbn [fst snd] in *.
    unfold delete_seed_body. cbn [fst snd].
    destruct (decide (t ≤ j)) as [Htj|]; [|exfalso; apply Hpast; lia].
    destruct (Hinv Htj) as [Hsame Hgone].
    rewrite (Hsame t) by lia.
    destruct (sds !! t) as [q|] eqn:Hq; [|done]. cbn [mbind option_bind].
    destruct (Algo_delete m2 q) as [m4|] eqn:Hd; [|done].
    cbn [mbind option_bind]. intros [= <- <-].
    apply Algo_delete_Some in Hd.
    destruct (decide (t = j)) as [->|Hne].
    + exfalso. rewrite Hj in Hq. injection Hq as <-.
      destruct Hd as [[? _]|(_ & [g Hg] & _)]; [done|].
      rewrite Hgone in Hg by lia. done.
    + split; [|lia]. intros _. split.
      * intros u Hu. rewrite list_lookup_insert_ne by lia. apply Hsame. lia.
      * intros Hit. destruct Hd as [[Hq0 Hm4]|(Hq0 & Hql & Hm4)]; subst m4.
        -- apply Hgone. destruct (decide (t = i)) as [->|]; [|lia].
           rewrite Hi in Hq. by injection Hq as <-.
        -- rewrite lookup_freed. case_decide as Hin; [done|].
           apply Hgone. destruct (decide (t = i)) as [->|]; [|lia].
           rewrite Hi in Hq. injection Hq as <-.
           exfalso. apply Hin. by left.
Qed.

End EdgeFacts.

Lemma simulate_without_cycles_witness :
  ∃ w st, simulate demo_gen demo_score demo_schedule maxScoreHeap
            patientComplete (mkGod [1] 3 2 3 1 0) demo_mem = Some (w, st)
    ∧ algo w = NULL ∧ mem st = demo_mem.
Proof.
  destruct (simulate_without_cycles demo_gen demo_score demo_schedule
              maxScoreHeap patientComplete (mkGod [1] 3 2 3 1 0) demo_mem)
    as [_ Hsome]; [reflexivity|].
  destruct Hsome as (w & st & Hrun & Hw & Hm & _).
  - discriminate.
  - simpl. lia.
  - by exists w, st.
Defined.

Lemma duplicate_seed_is_destroyed_twice_witness :
  init_population demo_gen demo_god demo_mem [1; 1] (replicate 3 NULL) = None.
Proof.
  apply (duplicate_seed_is_destroyed_twice demo_gen demo_god demo_mem [1; 1]
           (replicate 3 NULL) 0 1 1); [lia|reflexivity|reflexivity|discriminate].
Defined.

(** ** The store over a run *)

Section LeakFacts.
Context {Genome : Type}.
Variable gen_content : addr → Genome → Genome.
Variable process_score : Genome → Processor.Score.
Variable schedule : nat → list nat.
Variable H : AlgoScore → AlgoScore → Z.
Variable C : list AlgoScore → nat → bool.
Variable god : God.

Local Abbreviation P := (m_populationSize god).
Local Abbreviation k := (m_successorSize god).

(** The store generation 1 leaves: the seeds are gone, everything else that
    was there is untouched, and the new objects fill the next
    [populationSize] addresses. *)
Lemma init_population_store (m : @Mem Genome) (sds pop : list addr) :
  mem_wf m → sds ≠ [] → NoDup sds → (∀ s, s ∈ sds → live m s) →
  length pop = P →
  ∃ m', init_population gen_content god m sds pop
        = Some (m', seq (brk m) P, replicate (length sds) NULL)
    ∧ brk m' = brk m + P
    ∧ (∀ q, q < brk m →
         cells m' !! q = if decide (q ∈ sds) then None else cells m !! q).
Proof.
  intros Hwf Hne Hnd Hlive Hpop. unfold init_population.
  destruct (spawn_loop gen_content sds pop m P Hwf Hne Hlive Hpop)
    as (m1 & -> & Hwf1 & Hbrk & Hdel & Hold & Hnew).
  cbn [mbind option_bind fst snd].
  rewrite delete_seeds_loop; try done.
  - cbn [mbind option_bind fst snd]. eexists. split; [done|]. split.
    + by rewrite brk_freed.
    + intros q Hq. rewrite lookup_freed.
      repeat case_decide; try done. by apply Hold.
  - intros s Hs. unfold live. rewrite Hold.
    + by apply Hlive.
    + apply live_below_brk; [done|]. by apply Hlive.
Qed.

(** The store a later generation leaves: of the old population the elite
    alone survives, everything else is untouched, and the new objects fill
    the next [populationSize - 1] addresses. *)
Lemma breed_store (b : AlgoScore) (scs : list AlgoScore) (m : @Mem Genome)
    (pop : list addr) :
  mem_wf m → 0 < P → 0 < k → k ≤ length scs →
  (∀ s, s ∈ scs → live m (algo s)) →
  length pop = P → NoDup pop → (∀ p, p ∈ pop → live m p) →
  ∃ m', breed gen_content god b scs m pop
        = Some (m', algo b :: seq (brk m) (P - 1))
    ∧ brk m' = brk m + (P - 1)
    ∧ (∀ q, q < brk m →
         cells m' !! q
         = if decide (q ∈ filter (λ p, p ≠ algo b) pop) then None
           else cells m !! q).
Proof.
  intros Hwf HP Hk Hlen Hscs Hpop Hnd Hlive. unfold breed.
  rewrite decide_False by lia.
  destruct (breed_loop gen_content god b scs m Hwf HP Hk Hlen Hscs)
    as (m1 & -> & Hwf1 & Hbrk & Hdel & Hold & Hnew).
  cbn [mbind option_bind fst snd].
  rewrite replace_loop; try done.
  - eexists. split; [done|]. split.
    + by rewrite brk_freed.
    + intros q Hq. rewrite lookup_freed.
      repeat case_decide; try done. by apply Hold.
  - cbn [length]. rewrite length_seq. lia.
  - intros p Hp. unfold live. rewrite Hold.
    + by apply Hlive.
    + apply live_below_brk; [done|]. by apply Hlive.
Qed.

Lemma tidy_first (T : nat) (st st' : @State Genome) :
  config_ok schedule god T → start_ok god st → reports st = [] →
  generation gen_content process_score schedule H god T 1 st = Some st' →
  tidy process_score H god (mem st) (seeds st) st'.
Proof.
  intros Hcfg Hstart Hrep Hgen.
  destruct (generation_first gen_content process_score schedule H god T st
              Hcfg Hstart) as (st1 & Hgen1 & Hrun).
  rewrite Hgen in Hgen1. injection Hgen1 as <-.
  destruct Hstart as (Hwf & Hne & Hnd & Hlive & Hlen & _).
  apply generation_post in Hgen
    as (m1 & pop1 & sds1 & g & evs & b & Hpop & _ & Hm & Hp & _ & _ & _ & _
        & _ & _ & _ & Hreports).
  unfold populate in Hpop. rewrite decide_True in Hpop by done.
  destruct (init_population_store (mem st) (seeds st) (population st))
    as (m' & Hinit & Hbrk & Hold); try done.
  rewrite Hinit in Hpop. injection Hpop as <- <- <-.
  rewrite Hrep in Hreports. cbn [app] in Hreports.
  split_and!; [done|..].
  - rewrite Hreports. cbn [length]. lia.
  - rewrite Hreports, Hm, Hbrk. cbn [length]. lia.
  - rewrite Hp. intros p [Hp1 _]%elem_of_seq. done.
  - rewrite Hm. done.
  - rewrite Hp. intros q Hq Hl. apply elem_of_seq. split; [done|].
    rewrite <-Hbrk, <-Hm. apply live_below_brk; [|done]. apply Hrun.
Qed.

Lemma tidy_next (T i : nat) (m0 : @Mem Genome) (sds : list addr)
    (st st' : @State Genome) :
  config_ok schedule god T → i ≠ 1 → tidy process_score H god m0 sds st →
  generation gen_content process_score schedule H god T i st = Some st' →
  tidy process_score H god m0 sds st'.
Proof.
  intros Hcfg Hi (Hrun & Hlen & Hbrk & Hfresh & Hold & Hnew) Hgen.
  destruct (generation_next gen_content process_score schedule H god T i st
              Hcfg Hrun Hi) as (st1 & Hgen1 & Hrun').
  rewrite Hgen in Hgen1. injection Hgen1 as <-.
  pose proof (config_ok_population schedule god T Hcfg) as HP.
  pose proof Hcfg as (_ & Hk & _).
  destruct Hrun as (Hwf & Hplen & Hnd & Hlive & _ & Hscs & Hevs & b & Hb
                    & Hmax & _).
  destruct (max_element_Some _ _ Hmax) as [Hbin _].
  destruct (Hevs b Hbin) as [(gb & Hbpop & Hbg & _) _].
  apply generation_post in Hgen
    as (m1 & pop1 & sds1 & g & evs & b' & Hpop & _ & Hm & Hp & _ & _ & _ & _
        & _ & _ & _ & Hreports).
  unfold populate in Hpop. rewrite decide_False in Hpop by done.
  rewrite Hb in Hpop. cbn [mbind option_bind] in Hpop.
  destruct (breed_store b (algoscores st) (mem st) (population st))
    as (m' & Hbreed & Hbrk' & Hold'); try done; [lia| |].
  { intros s Hs. destruct (Hevs s Hs) as [(x & _ & Hx & _) _]. by eexists. }
  rewrite Hbreed in Hpop. cbn [mbind option_bind fst snd] in Hpop.
  injection Hpop as <- <- <-.
  assert (brk m0 ≤ brk (mem st)) as Hle.
  { rewrite Hbrk, <-Nat.add_assoc. apply Nat.le_add_r. }
  split_and!; [done|..].
  - rewrite Hreports, length_app. cbn [length]. lia.
  - rewrite Hreports, length_app, Hm, Hbrk', Hbrk. cbn [length].
    destruct (length (reports st)) as [|L]; [lia|].
    replace (S L + 1 - 1) with (S L) by lia.
    replace (S L - 1) with L by lia. lia.
  - rewrite Hp. intros p [->|[Hp1 _]%elem_of_seq]%elem_of_cons.
    + by apply Hfresh.
    + lia.
  - rewrite Hm. intros q Hq. rewrite Hold' by lia.
    rewrite decide_False; [by apply Hold|].
    intros [_ Hin]%list_elem_of_filter. apply Hfresh in Hin. lia.
  - rewrite Hm, Hp. intros q Hq Hl.
    destruct (decide (q < brk (mem st))) as [Hlt|Hge].
    + destruct Hl as [x Hx]. rewrite Hold' in Hx by done.
      case_decide as Hin; [done|].
      assert (q ∈ population st) as Hqpop.
      { apply Hnew; [done|]. by eexists. }
      destruct (decide (q = algo b)) as [->|Hne]; [by left|].
      exfalso. apply Hin. by apply list_elem_of_filter.
    + right. apply elem_of_seq. split; [lia|].
      rewrite <-Hbrk'. apply live_below_brk; [|done].
      rewrite <-Hm. apply Hrun'.
Qed.

(** A run of at least one generation ends by freeing the losers of a tidy
    state. *)
Lemma simulate_tidy (m : @Mem Genome) (T : nat) (w : AlgoScore)
    (st : @State Genome) :
  numThreads P (m_minThreadWorkloadSize god) (m_maxNumThreads god) = Some T →
  config_ok schedule god T →
  mem_wf m → m_seeds god ≠ [] → NoDup (m_seeds god) →
  (∀ s, s ∈ m_seeds god → live m s) →
  0 < m_numCycles god →
  simulate gen_content process_score schedule H C god m = Some (w, st) →
  ∃ s, tidy process_score H god m (m_seeds god) s
    ∧ max_element algoScoreSort (algoscores s) = Some w
    ∧ free_losers god (algo w) s = Some st.
Proof.
  intros HT Hcfg Hwf Hne Hnd Hlive Hn. unfold simulate. rewrite HT.
  cbn [mbind option_bind]. intros Hrun.
  set (st0 := mkState m (m_seeds god) (replicate P NULL) (mkHeap k [])
                (replicate k (mkAlgoScore NULL (Processor.mkScore false 0%Qc)))
                None 0%Qc 0%Qc [] []) in *.
  assert (start_ok god st0) as Hstart.
  { unfold start_ok, st0.
    cbn [mem seeds population scores algoscores best evaluated capacity].
    by rewrite !length_replicate. }
  apply (cycles_invariant gen_content process_score schedule H C god
    (λ j s, (j = 1 ∧ s = st0)
            ∨ (1 < j ∧ tidy process_score H god m (m_seeds god) s)))
    in Hrun as (j & s & _ & Hj & Hinv & Hmax & Hfree).
  - destruct Hinv as [[-> _]|[_ Htidy]]; [lia|]. by exists s.
  - by left.
  - intros j s s' [[-> ->]|[Hj Htidy]] Hgen; right.
    + split; [lia|]. by apply (tidy_first T st0 s').
    + split; [lia|]. apply (tidy_next T j m (m_seeds god) s s'); [done|lia|done..].
Qed.

(** X12. A run of at least one generation leaves no object behind but the
    winner: at the return the live objects are the winner and what was in
    the store before the call other than the seeds, the latter with their
    content untouched; the winner is an object the run created, and the
    population holds nothing but the winner and null pointers. *)
Theorem run_frees_all_but_winner (m : @Mem Genome) (T : nat) (w : AlgoScore)
    (st : @State Genome) :
  numThreads P (m_minThreadWorkloadSize god) (m_maxNumThreads god) = Some T →
  config_ok schedule god T →
  mem_wf m → m_seeds god ≠ [] → NoDup (m_seeds god) →
  (∀ s, s ∈ m_seeds god → live m s) →
  0 < m_numCycles god →
  simulate gen_content process_score schedule H C god m = Some (w, st) →
  (∀ q, live (mem st) q ↔ q = algo w ∨ (live m q ∧ q ∉ m_seeds god))
  ∧ (∀ q, live m q → q ∉ m_seeds god → cells (mem st) !! q = cells m !! q)
  ∧ ¬ live m (algo w)
  ∧ algo w ∈ population st
  ∧ (∀ p, p ∈ population st → p = algo w ∨ p = NULL).
Proof.
  intros HT Hcfg Hwf Hne Hnd Hlive Hn Hsim.
  destruct (simulate_tidy m T w st) as (s & Htidy & Hmax & Hfree); try done.
  destruct Htidy as (Hrun & _ & _ & Hfresh & Hold & Hnew).
  destruct Hrun as (Hwfs & Hplen & Hnds & Hlives & _ & _ & Hevs & _).
  destruct (max_element_Some _ _ Hmax) as [Hwin _].
  destruct (Hevs w Hwin) as [(gw & Hwpop & Hwg & _) _].
  unfold free_losers in Hfree. rewrite free_loop in Hfree by done.
  injection Hfree as <-. cbn [mem population fst snd].
  assert (∀ q, q ∈ filter (λ p, p ≠ algo w) (population s) → brk m ≤ q)
    as Hlosers.
  { intros q [_ Hq]%list_elem_of_filter. by apply Hfresh. }
  assert (∀ q, live m q → q ∉ m_seeds god →
            cells (freed (filter (λ p, p ≠ algo w) (population s)) (mem s)) !! q
            = cells m !! q) as Hkept.
  { intros q Hq Hnot. pose proof (live_below_brk _ _ Hwf Hq) as Hlt.
    rewrite lookup_freed, decide_False.
    - by rewrite Hold, decide_False.
    - intros Hin%Hlosers. lia. }
  split_and!.
  - intros q. split.
    + intros [x Hx]. rewrite lookup_freed in Hx. case_decide as Hin; [done|].
      destruct (decide (q < brk m)) as [Hlt|Hge].
      * right. rewrite Hold in Hx by done. case_decide; [done|].
        split; [by eexists|done].
      * left. assert (q ∈ population s) as Hq.
        { apply Hnew; [lia|by eexists]. }
        destruct (decide (q = algo w)) as [|Hne']; [done|].
        exfalso. apply Hin. by apply list_elem_of_filter.
    + intros [->|[Hq Hnot]].
      * exists gw. rewrite lookup_freed, decide_False; [done|].
        by intros [? _]%list_elem_of_filter.
      * unfold live. by rewrite Hkept.
  - done.
  - intros Hl%(live_below_brk _ _ Hwf). apply Hfresh in Hwpop. lia.
  - apply list_elem_of_fmap. exists (algo w). by rewrite decide_True.
  - intros p (q & -> & _)%list_elem_of_fmap. case_decide; [by left|by right].
Qed.

(** X13. A run of [g] generations, [g] being at least one, creates
    [populationSize] individuals in the first and [populationSize - 1] in
    each later one. *)
Theorem run_allocation_count (m : @Mem Genome) (T : nat) (w : AlgoScore)
    (st : @State Genome) :
  numThreads P (m_minThreadWorkloadSize god) (m_maxNumThreads god) = Some T →
  config_ok schedule god T →
  mem_wf m → m_seeds god ≠ [] → NoDup (m_seeds god) →
  (∀ s, s ∈ m_seeds god → live m s) →
  0 < m_numCycles god →
  simulate gen_content process_score schedule H C god m = Some (w, st) →
  0 < length (reports st)
  ∧ brk (mem st) = brk m + P + (length (reports st) - 1) * (P - 1).
Proof.
  intros HT Hcfg Hwf Hne Hnd Hlive Hn Hsim.
  destruct (simulate_tidy m T w st) as (s & Htidy & Hmax & Hfree); try done.
  destruct Htidy as (Hrun & Hlen & Hbrk & _).
  destruct Hrun as (Hwfs & Hplen & Hnds & Hlives & _).
  unfold free_losers in Hfree. rewrite free_loop in Hfree by done.
  injection Hfree as <-. cbn [mem reports fst snd]. by rewrite brk_freed.
Qed.

End LeakFacts.

(** ** The properties on the concrete runs *)

Lemma population_evaluated_once_witness :
  ∃ g evs, evaluate demo_score maxScoreHeap pair_god 1 [0] pair_mem [1; 2]
             (mkHeap 1 []) = Some (g, evs)
    ∧ length evs = 2
    ∧ Forall2 (scored_as demo_score pair_mem) [1; 2] evs.
Proof.
  destruct (evaluate demo_score maxScoreHeap pair_god 1 [0] pair_mem [1; 2]
              (mkHeap 1 [])) as [[g evs]|] eqn:Hrun.
  - exists g, evs. split; [done|].
    destruct (population_evaluated_once demo_score maxScoreHeap pair_god 1
                [0] pair_mem [1; 2] (mkHeap 1 []) g evs) as (Hlen & Hall & _).
    + lia.
    + unfold is_uint, UINT_MOD. simpl. lia.
    + reflexivity.
    + exact Hrun.
    + by split.
  - vm_compute in Hrun. discriminate.
Defined.

Lemma generation_statistics_witness :
  ∃ g evs, evaluate demo_score maxScoreHeap pair_god 1 [0] pair_mem [1; 2]
             (mkHeap 1 []) = Some (g, evs)
    ∧ popN (sh_stats g) = 2
    ∧ popBar (sh_stats g) = mean (ascore <$> evs).
Proof.
  destruct (evaluate demo_score maxScoreHeap pair_god 1 [0] pair_mem [1; 2]
              (mkHeap 1 [])) as [[g evs]|] eqn:Hrun.
  - exists g, evs. split; [done|].
    destruct (generation_statistics demo_score maxScoreHeap pair_god 1
                [0] pair_mem [1; 2] (mkHeap 1 []) g evs) as (HN & Hbar & _).
    + reflexivity.
    + lia.
    + unfold is_uint, UINT_MOD. simpl. lia.
    + reflexivity.
    + exact Hrun.
    + by split.
  - vm_compute in Hrun. discriminate.
Defined.

Lemma run_evaluates_each_generation_witness :
  ∃ w st, simulate demo_gen demo_score demo_schedule maxScoreHeap
            patientComplete lucky_god demo_mem = Some (w, st)
    ∧ length (evaluated st) = length (reports st) * 3.
Proof.
  destruct (simulate demo_gen demo_score demo_schedule maxScoreHeap
              patientComplete lucky_god demo_mem) as [[w st]|] eqn:Hrun.
  - exists w, st. split; [done|].
    apply (run_evaluates_each_generation demo_gen demo_score demo_schedule
             maxScoreHeap lucky_god patientComplete demo_mem 1 w st).
    + reflexivity.
    + lia.
    + unfold is_uint, UINT_MOD. simpl. lia.
    + exact Hrun.
  - vm_compute in Hrun. discriminate.
Defined.

Lemma reports_chain_witness :
  ∃ w st, simulate demo_gen demo_score demo_schedule maxScoreHeap
            patientComplete lucky_god demo_mem = Some (w, st)
    ∧ ∀ j r, reports st !! j = Some r →
        max_element algoScoreSort (r_successors r) = Some (r_best r).
Proof.
  destruct (simulate demo_gen demo_score demo_schedule maxScoreHeap
              patientComplete lucky_god demo_mem) as [[w st]|] eqn:Hrun.
  - exists w, st. split; [done|].
    destruct (reports_chain demo_gen demo_score demo_schedule maxScoreHeap
                lucky_god patientComplete demo_mem w st Hrun) as [_ Hbest].
    intros j r Hr. by apply (Hbest j r).
  - vm_compute in Hrun. discriminate.
Defined.

Lemma greedy_run_returns_success_witness :
  ∃ w st, simulate demo_gen lucky_score demo_schedule minScoreHeap
            greedyComplete lucky_god demo_mem = Some (w, st)
    ∧ (length (reports st) < 3 → asuccess w = true).
Proof.
  destruct (simulate demo_gen lucky_score demo_schedule minScoreHeap
              greedyComplete lucky_god demo_mem) as [[w st]|] eqn:Hrun.
  - exists w, st. split; [done|].
    destruct (greedy_run_returns_success demo_gen lucky_score demo_schedule
                minScoreHeap lucky_god demo_mem w st Hrun) as (_ & Hearly & _).
    + simpl. lia.
    + exact Hearly.
  - vm_compute in Hrun. discriminate.
Defined.

Lemma run_frees_all_but_winner_witness :
  ∃ w st, simulate demo_gen demo_score demo_schedule maxScoreHeap
            patientComplete lucky_god demo_mem = Some (w, st)
    ∧ ∀ q, live (mem st) q ↔ q = algo w ∨ (live demo_mem q ∧ q ∉ [1]).
Proof.
  destruct (simulate demo_gen demo_score demo_schedule maxScoreHeap
              patientComplete lucky_god demo_mem) as [[w st]|] eqn:Hrun.
  - exists w, st. split; [done|].
    destruct (run_frees_all_but_winner demo_gen demo_score demo_schedule
                maxScoreHeap patientComplete lucky_god demo_mem 1 w st)
      as [Hlive _].
    + reflexivity.
    + apply lucky_config_ok.
    + apply demo_mem_wf.
    + discriminate.
    + apply NoDup_singleton.
    + apply demo_seeds_live.
    + simpl. lia.
    + exact Hrun.
    + exact Hlive.
  - vm_compute in Hrun. discriminate.
Defined.

Lemma run_allocation_count_witness :
  ∃ w st, simulate demo_gen demo_score demo_schedule minScoreHeap
            greedyComplete lucky_god demo_mem = Some (w, st)
    ∧ brk (mem st) = 2 + 3 + (length (reports st) - 1) * 2.
Proof.
  destruct (simulate demo_gen demo_score demo_schedule minScoreHeap
              greedyComplete lucky_god demo_mem) as [[w st]|] eqn:Hrun.
  - exists w, st. split; [done|].
    destruct (run_allocation_count demo_gen demo_score demo_schedule
                minScoreHeap greedyComplete lucky_god demo_mem 1 w st)
      as [_ Hbrk].
    + reflexivity.
    + apply lucky_config_ok.
    + apply demo_mem_wf.
    + discriminate.
    + apply NoDup_singleton.
    + apply demo_seeds_live.
    + simpl. lia.
    + exact Hrun.
    + exact Hbrk.
  - vm_compute in Hrun. discriminate.
Defined.

(** ** The sign of the reported percentages *)

(** [-(x - d) / d * 100] against a positive [d] is positive exactly when [x]
    is below [d], and against a negative [d] exactly when [x] is above it. *)
Lemma progress_sign (x d v : Qc) :
  percent (fdiv (- (x - d)) d) = Some v →
  ((0 < d)%Qc → (0 < v)%Qc ↔ (x < d)%Qc)
  ∧ ((d < 0)%Qc → (0 < v)%Qc ↔ (d < x)%Qc).
Proof.
  unfold percent, fdiv. case_decide as Hd; [done|]. cbn [fmap option_fmap option_map].
  intros [= <-].
  assert (0 < Qc_of_nat 100)%Qc as H100 by done.
  split; intros Hsign.
  - assert (0 < / d * Qc_of_nat 100)%Qc as Hc.
    { apply Qcmult_pos_pos; [by apply Qcinv_pos|done]. }
    replace (- (x - d) / d * Qc_of_nat 100)%Qc
      with ((d - x) * (/ d * Qc_of_nat 100))%Qc by (unfold Qcdiv; ring).
    pose proof (Qcmult_lt_mono_pos_r 0 (d - x) _ Hc) as Hiff.
    rewrite Qcmult_0_l in Hiff. rewrite <-Hiff. split; intros Hlt.
    + apply Qclt_minus_iff. exact Hlt.
    + apply Qclt_minus_iff in Hlt. exact Hlt.
  - assert (0 < / (- d) * Qc_of_nat 100)%Qc as Hc.
    { apply Qcmult_pos_pos; [|done]. apply Qcinv_pos.
      apply Qclt_minus_iff in Hsign. by rewrite Qcplus_0_l in Hsign. }
    replace (- (x - d) / d * Qc_of_nat 100)%Qc
      with ((x - d) * (/ (- d) * Qc_of_nat 100))%Qc.
    2:{ unfold Qcdiv. field. split; [done|]. intros Hz. apply Hd.
        rewrite <-(Qcopp_involutive d), Hz. ring. }
    pose proof (Qcmult_lt_mono_pos_r 0 (x - d) _ Hc) as Hiff.
    rewrite Qcmult_0_l in Hiff. rewrite <-Hiff. split; intros Hlt.
    + apply Qclt_minus_iff. exact Hlt.
    + apply Qclt_minus_iff in Hlt. exact Hlt.
Qed.

(** X14. The percentages of a report count a lower score as progress: against
    a positive mean the share above the average is positive exactly when the
    best scores below the mean, and the two changes are positive exactly when
    the mean, or the best score, dropped below a positive previous value;
    against a negative reference the signs are the other way round, and
    against zero the figure is undefined. *)
Theorem report_counts_lower_as_progress (i : nat) (scs : list AlgoScore)
    (mu : Qc) (b : AlgoScore) (pa pb : Qc) :
  (∀ v, r_above_avg (make_report i scs mu b pa pb) = Some v →
     ((0 < mu)%Qc → (0 < v)%Qc ↔ (ascore b < mu)%Qc)
     ∧ ((mu < 0)%Qc → (0 < v)%Qc ↔ (mu < ascore b)%Qc))
  ∧ (∀ v, r_avg_change (make_report i scs mu b pa pb) = Some v →
     ((0 < pa)%Qc → (0 < v)%Qc ↔ (mu < pa)%Qc)
     ∧ ((pa < 0)%Qc → (0 < v)%Qc ↔ (pa < mu)%Qc))
  ∧ (∀ v, r_best_change (make_report i scs mu b pa pb) = Some v →
     ((0 < pb)%Qc → (0 < v)%Qc ↔ (ascore b < pb)%Qc)
     ∧ ((pb < 0)%Qc → (0 < v)%Qc ↔ (pb < ascore b)%Qc))
  ∧ (r_above_avg (make_report i scs mu b pa pb) = None ↔ mu = 0%Qc)
  ∧ (r_avg_change (make_report i scs mu b pa pb) = None ↔ pa = 0%Qc)
  ∧ (r_best_change (make_report i scs mu b pa pb) = None ↔ pb = 0%Qc).
Proof.
  cbn [make_report r_above_avg r_avg_change r_best_change].
  split_and!; try (intros v Hv; by apply progress_sign);
    unfold percent, fdiv; case_decide; cbn [fmap option_fmap option_map];
    split; done.
Qed.
